(** * memoryfile: an mmap-based arena allocator

    Shallow embedding of [src/native/memoryfile.c] and
    [src/native/memoryfile.h].

    The mapped region is a list of bytes indexed from the mapping base;
    every [u64] of the C source is a [Z] with its wrap-around written
    out ([wrap64]); a pointer into the mapping is the byte distance from
    [mmap_base] ([None] is [NULL]).  A function returns [None] where the
    C program has no defined result: a [NULL] or out-of-mapping
    dereference, or a walk over a cyclic free list that never ends. *)

From Stdlib Require Import ZArith Lia List Sorted Permutation.
From stdpp Require Import base list sorting gmap strings.
From coqutil Require Import Byte Word.LittleEndianList.
Local Open Scope Z_scope.

Abbreviation byte := Init.Byte.byte.

(** ** Machine integers *)

Definition wrap64 (z : Z) : Z := z mod 2 ^ 64.
Definition wrap32 (z : Z) : Z := z mod 2 ^ 32.

(** ** The mapped bytes *)

Module Mem.

Definition in_range (m : list byte) (a : Z) (n : nat) : bool :=
  (0 <=? a) && (a + Z.of_nat n <=? Z.of_nat (length m)).

Definition load_bytes (m : list byte) (a : Z) (n : nat) : option (list byte) :=
  if in_range m a n then Some (take n (drop (Z.to_nat a) m)) else None.

Definition store_bytes (m : list byte) (a : Z) (bs : list byte) : option (list byte) :=
  if in_range m a (length bs)
  then Some (take (Z.to_nat a) m ++ bs ++ drop (Z.to_nat a + length bs) m)
  else None.

(** Little-endian integers: the format is in native byte order, and the
    machines it runs on are little-endian. *)
Definition load64 (m : list byte) (a : Z) : option Z :=
  bs ← load_bytes m a 8; Some (le_combine bs).

Definition store64 (m : list byte) (a : Z) (v : Z) : option (list byte) :=
  store_bytes m a (le_split 8 v).

Definition load32 (m : list byte) (a : Z) : option Z :=
  bs ← load_bytes m a 4; Some (le_combine bs).

Definition store32 (m : list byte) (a : Z) (v : Z) : option (list byte) :=
  store_bytes m a (le_split 4 v).

End Mem.

(** ** memoryfile.h: constants and layout *)

Definition MEMFILE_MAGIC : Z := 0x4D454D46.
Definition MEMFILE_VERSION : Z := 1.

(** [memfile_header_t] (packed): field offsets and size. *)
Definition f_magic : Z := 0.
Definition f_version : Z := 4.
Definition f_file_size : Z := 8.
Definition f_allocated : Z := 16.
Definition f_free_list_head : Z := 24.
Definition sizeof_header : Z := 32.

(** [memfile_free_t] (packed): [size] at 0, [next] at 8. *)
Definition f_size : Z := 0.
Definition f_next : Z := 8.
Definition sizeof_free : Z := 16.

(** [memfile_alloc_t] (packed): [size] at 0. *)
Definition sizeof_alloc : Z := 8.

(** [memfile_t].  [mmap_base] holds the bytes of the mapping; [file_len]
    is the length of the backing file behind [fd]. *)
Record memfile : Type := MemFile {
  mmap_base : list byte;
  mmap_size : Z;
  file_len : Z
}.

Definition set_base (mf : memfile) (m : list byte) : memfile :=
  {| mmap_base := m; mmap_size := mmap_size mf; file_len := file_len mf |}.

(** Reading and writing a [u64] through a pointer into the mapping
    ([mf->header] is the pointer 0). *)
Definition rd64 (mf : memfile) (p : Z) : option Z :=
  Mem.load64 (mmap_base mf) p.

Definition wr64 (mf : memfile) (p : Z) (v : Z) : option memfile :=
  m ← Mem.store64 (mmap_base mf) p v; Some (set_base mf m).

(** Results of the system calls the allocator makes. *)
Record sys : Type := Sys {
  open_ok : bool;
  ftruncate_ok : bool;
  mmap_ok : bool;
  mremap_ok : bool
}.

(** [ftruncate] takes an [off_t]: a length of 2^63 or more is negative
    there and is refused whatever the state of the disk. *)
Definition sys_ftruncate (os : sys) (len : Z) : bool :=
  ftruncate_ok os && (len <? 2 ^ 63).

(** ** Pointer conversion *)

Definition memfile_ptr (mf : memfile) (offset : Z) : option Z :=
  if (offset =? 0) || (mmap_size mf <=? offset) then None
  else Some offset.

(** ** Direct read/write at offset *)

(** The result is the [int] returned and the bytes copied into [buf].
    [memcpy] of a range that leaves the mapping has no defined result. *)
Definition memfile_read (mf : memfile) (offset len : Z) : option (Z * list byte) :=
  if mmap_size mf <? wrap64 (offset + len) then Some (-1, [])
  else match memfile_ptr mf offset with
       | None => Some (-1, [])
       | Some src =>
           bs ← Mem.load_bytes (mmap_base mf) src (Z.to_nat len);
           Some (0, bs)
       end.

(** [memcpy] reads [len] bytes of [buf]: a shorter [buf] has no defined
    result either. *)
Definition memfile_write (mf : memfile) (offset : Z) (buf : list byte) (len : Z)
  : option (Z * memfile) :=
  if mmap_size mf <? wrap64 (offset + len) then Some (-1, mf)
  else match memfile_ptr mf offset with
       | None => Some (-1, mf)
       | Some dst =>
           if Z.of_nat (length buf) <? len then None
           else m ← Mem.store_bytes (mmap_base mf) dst (take (Z.to_nat len) buf);
                Some (0, set_base mf m)
       end.

(** ** File growth *)

(** [ftruncate] sets the length of the file; [mremap] gives a mapping of
    the new size whose bytes past the old ones are those of the
    extended file, zeros. *)
Definition memfile_remap (os : sys) (mf : memfile) (new_size : Z)
  : option (Z * memfile) :=
  if negb (sys_ftruncate os new_size) then Some (-1, mf)
  else
    let mf1 := {| mmap_base := mmap_base mf; mmap_size := mmap_size mf;
                  file_len := new_size |} in
    if negb (mremap_ok os) then Some (-1, mf1)
    else
      let mf2 := {| mmap_base := resize (Z.to_nat new_size) Byte.x00 (mmap_base mf1);
                    mmap_size := new_size; file_len := new_size |} in
      mf3 ← wr64 mf2 f_file_size new_size;
      Some (0, mf3).

Definition memfile_ensure_space (os : sys) (mf : memfile) (needed : Z)
  : option (Z * memfile) :=
  allocated ← rd64 mf f_allocated;
  file_size ← rd64 mf f_file_size;
  if wrap64 (allocated + needed) <=? file_size then Some (0, mf)
  else
    let new_size := wrap64 (mmap_size mf * 2) in
    let new_size :=
      if new_size <? wrap64 (allocated + needed)
      then wrap64 (allocated + needed + 4096)
      else new_size in
    memfile_remap os mf new_size.

(** ** Allocation *)

(** A walk along [next] links that takes more steps than the mapping
    has bytes has met some node twice and never ends. *)
Definition walk_fuel (mf : memfile) : nat := Z.to_nat (mmap_size mf).

(** The first-fit loop.  [Some None]: the loop ended without a fit;
    [Some (Some (p, mf'))]: [memfile_alloc] returned [p] from inside it. *)
Fixpoint alloc_search (fuel : nat) (mf : memfile) (total_size : Z)
    (prev_offset free_offset : Z) : option (option (Z * memfile)) :=
  if free_offset =? 0 then Some None
  else match fuel with
  | O => None
  | S fuel' =>
    free_block ← memfile_ptr mf free_offset;
    fsize ← rd64 mf (free_block + f_size);
    if total_size <=? fsize then
      let remaining := fsize - total_size in
      if sizeof_free + 8 <=? remaining then
        let new_free_offset := wrap64 (free_offset + total_size) in
        new_free ← memfile_ptr mf new_free_offset;
        mf1 ← wr64 mf (new_free + f_size) remaining;
        nxt ← rd64 mf1 (free_block + f_next);
        mf2 ← wr64 mf1 (new_free + f_next) nxt;
        mf3 ← (if prev_offset =? 0
               then wr64 mf2 f_free_list_head new_free_offset
               else prev ← memfile_ptr mf2 prev_offset;
                    wr64 mf2 (prev + f_next) new_free_offset);
        alloc ← memfile_ptr mf3 free_offset;
        mf4 ← wr64 mf3 alloc total_size;
        Some (Some (wrap64 (free_offset + sizeof_alloc), mf4))
      else
        let total_size := fsize in
        nxt ← rd64 mf (free_block + f_next);
        mf1 ← (if prev_offset =? 0
               then wr64 mf f_free_list_head nxt
               else prev ← memfile_ptr mf prev_offset;
                    wr64 mf (prev + f_next) nxt);
        alloc ← memfile_ptr mf1 free_offset;
        mf2 ← wr64 mf1 alloc total_size;
        Some (Some (wrap64 (free_offset + sizeof_alloc), mf2))
    else
      nxt ← rd64 mf (free_block + f_next);
      alloc_search fuel' mf total_size free_offset nxt
  end.

(** [(total_size + 7) & ~7ULL] *)
Definition align8 (total_size : Z) : Z :=
  Z.land (wrap64 (total_size + 7)) (2 ^ 64 - 8).

Definition alloc_total (size : Z) : Z := align8 (wrap64 (size + sizeof_alloc)).

Definition memfile_alloc (os : sys) (mf : memfile) (size : Z)
  : option (Z * memfile) :=
  let total_size := alloc_total size in
  head ← rd64 mf f_free_list_head;
  found ← alloc_search (walk_fuel mf) mf total_size 0 head;
  match found with
  | Some r => Some r
  | None =>
    '(rc, mf1) ← memfile_ensure_space os mf total_size;
    if rc <? 0 then Some (0, mf1)
    else
      offset ← rd64 mf1 f_allocated;
      alloc ← memfile_ptr mf1 offset;
      mf2 ← wr64 mf1 alloc total_size;
      allocated ← rd64 mf2 f_allocated;
      mf3 ← wr64 mf2 f_allocated (wrap64 (allocated + total_size));
      Some (wrap64 (offset + sizeof_alloc), mf3)
  end.

Definition memfile_free (mf : memfile) (offset : Z) : option memfile :=
  if offset =? 0 then Some mf
  else
    let alloc_offset := wrap64 (offset - sizeof_alloc) in
    alloc ← memfile_ptr mf alloc_offset;
    sz ← rd64 mf alloc;
    mf1 ← wr64 mf (alloc + f_size) sz;
    head ← rd64 mf1 f_free_list_head;
    mf2 ← wr64 mf1 (alloc + f_next) head;
    wr64 mf2 f_free_list_head alloc_offset.

(** ** Coalescing *)

(** An entry of the temporary array [blocks]. *)
Record blk : Type := Blk { b_offset : Z; b_size : Z }.

#[global] Instance blk_eq_dec : EqDecision blk.
Proof. solve_decision. Defined.

(** The counting loop; [free_count] is a [u32]. *)
Fixpoint count_free (fuel : nat) (mf : memfile) (offset free_count : Z) : option Z :=
  if offset =? 0 then Some free_count
  else match fuel with
  | O => None
  | S fuel' =>
    block ← memfile_ptr mf offset;
    nxt ← rd64 mf (block + f_next);
    count_free fuel' mf nxt (wrap32 (free_count + 1))
  end.

(** The collecting loop: [n] entries from [offset] on. *)
Fixpoint collect (n : nat) (mf : memfile) (offset : Z) : option (list blk) :=
  match n with
  | O => Some []
  | S n' =>
    block ← memfile_ptr mf offset;
    sz ← rd64 mf (block + f_size);
    nxt ← rd64 mf (block + f_next);
    rest ← collect n' mf nxt;
    Some (Blk offset sz :: rest)
  end.

(** The inner [while] of the insertion sort.  The [int j] of the source
    runs down to -1; [j1] is [j + 1].  The result is the array and the
    final [j + 1]. *)
Fixpoint sort_inner (blocks : list blk) (key_off : Z) (j1 : nat)
  : option (list blk * nat) :=
  match j1 with
  | O => Some (blocks, O)
  | S j =>
    bj ← blocks !! j;
    if key_off <? b_offset bj
    then sort_inner (<[S j := bj]> blocks) key_off j
    else Some (blocks, S j)
  end.

(** The outer [for] of the insertion sort, from [i] on, [todo] rounds.
    [int j = i - 1] has no defined value once [i - 1] leaves the range
    of [int]. *)
Fixpoint sort_loop (todo i : nat) (blocks : list blk) : option (list blk) :=
  match todo with
  | O => Some blocks
  | S todo' =>
    key ← blocks !! i;
    if 2 ^ 31 <=? Z.of_nat i - 1 then None
    else
      '(blocks1, j1) ← sort_inner blocks (b_offset key) i;
      sort_loop todo' (S i) (<[j1 := Blk (b_offset key) (b_size key)]> blocks1)
  end.

(** The merging loop, from [i] on, [todo] rounds. *)
Fixpoint merge_loop (todo i write_idx : nat) (blocks : list blk)
  : option (list blk * nat) :=
  match todo with
  | O => Some (blocks, write_idx)
  | S todo' =>
    adjacent ← (if (0 <? write_idx)%nat
                then prev ← blocks !! (write_idx - 1)%nat;
                     bi ← blocks !! i;
                     Some (wrap64 (b_offset prev + b_size prev) =? b_offset bi)
                else Some false);
    if adjacent : bool then
      prev ← blocks !! (write_idx - 1)%nat;
      bi ← blocks !! i;
      merge_loop todo' (S i) write_idx
        (<[(write_idx - 1)%nat :=
             Blk (b_offset prev) (wrap64 (b_size prev + b_size bi))]> blocks)
    else
      blocks1 ← (if (write_idx =? i)%nat then Some blocks
                 else bi ← blocks !! i; Some (<[write_idx := bi]> blocks));
      merge_loop todo' (S i) (S write_idx) blocks1
  end.

(** The rebuilding loop, from [i] on, [todo] rounds. *)
Fixpoint rebuild_loop (todo i write_idx : nat) (blocks : list blk)
    (mf : memfile) : option memfile :=
  match todo with
  | O => Some mf
  | S todo' =>
    bi ← blocks !! i;
    block ← memfile_ptr mf (b_offset bi);
    mf1 ← wr64 mf (block + f_size) (b_size bi);
    nxt ← (if (S i <? write_idx)%nat
           then bn ← blocks !! (S i); Some (b_offset bn)
           else Some 0);
    mf2 ← wr64 mf1 (block + f_next) nxt;
    rebuild_loop todo' (S i) write_idx blocks mf2
  end.

(** [malloc] is taken to succeed. *)
Definition memfile_coalesce (mf : memfile) : option memfile :=
  head ← rd64 mf f_free_list_head;
  if head =? 0 then Some mf
  else
    free_count ← count_free (walk_fuel mf) mf head 0;
    if free_count <? 2 then Some mf
    else
      let n := Z.to_nat free_count in
      blocks ← collect n mf head;
      blocks ← sort_loop (n - 1) 1 blocks;
      '(blocks, write_idx) ← merge_loop n 0 0 blocks;
      b0 ← blocks !! 0%nat;
      mf1 ← wr64 mf f_free_list_head (b_offset b0);
      rebuild_loop write_idx 0 write_idx blocks mf1.

(** ** Open *)

(** The files of the file system, by path. *)
Abbreviation files := (gmap string (list byte)).

Definition init_header (m : list byte) (initial_size : Z) : option (list byte) :=
  m ← Mem.store32 m f_magic MEMFILE_MAGIC;
  m ← Mem.store32 m f_version MEMFILE_VERSION;
  m ← Mem.store64 m f_file_size initial_size;
  m ← Mem.store64 m f_allocated sizeof_header;
  Mem.store64 m f_free_list_head 0.

(** The result is the handle ([None] is the [NULL] of a failed open)
    and the file system afterwards.  [exists_] is the [exists] of the
    source.  The mapping is shared: what is written through it is in
    the file.  The header of a fresh file is always written inside the
    mapping, which has 96 bytes or more. *)
Definition memfile_open (os : sys) (fs : files) (path : string) (initial_size : Z)
  : option memfile * files :=
  let st := fs !! path in
  let exists_ := match st with Some c => (0 <? length c)%nat | None => false end in
  if exists_ then
    if negb (open_ok os) then (None, fs)
    else
      let c := default [] st in
      if negb (mmap_ok os) then (None, fs)
      else if negb (bool_decide (Mem.load32 c f_magic = Some MEMFILE_MAGIC))
      then (None, fs)
      else (Some {| mmap_base := c; mmap_size := Z.of_nat (length c);
                    file_len := Z.of_nat (length c) |}, fs)
  else
    if negb (open_ok os) then (None, fs)
    else
      (* O_CREAT *)
      let fs1 := match st with Some _ => fs | None => <[path := []]> fs end in
      let initial_size :=
        if initial_size <? sizeof_header + 64 then 4096 else initial_size in
      if negb (sys_ftruncate os initial_size) then (None, fs1)
      else
        let c := resize (Z.to_nat initial_size) Byte.x00 (default [] st) in
        let fs2 := <[path := c]> fs1 in
        if negb (mmap_ok os) then (None, delete path fs2)
        else
          match init_header c initial_size with
          | Some m =>
              (Some {| mmap_base := m; mmap_size := initial_size;
                       file_len := initial_size |}, <[path := m]> fs2)
          | None => (None, fs2)
          end.

(** ** Well-formed free lists *)

(** The free list that starts at offset [h] is the list [L] of blocks:
    every node is reached through [memfile_ptr], carries the block's
    size, and the last [next] is 0. *)
Fixpoint chain (mf : memfile) (h : Z) (L : list blk) : Prop :=
  match L with
  | [] => h = 0
  | b :: L' =>
      h = b_offset b /\ memfile_ptr mf h = Some h /\
      rd64 mf (h + f_size) = Some (b_size b) /\
      exists n, rd64 mf (h + f_next) = Some n /\ chain mf n L'
  end.

Definition blk_end (b : blk) : Z := b_offset b + b_size b.

Definition disjoint_blk (a b : blk) : Prop :=
  blk_end a <= b_offset b \/ blk_end b <= b_offset a.

(** A block lies past the header, has room for a free node and ends
    below the high-water mark. *)
Definition blk_ok (allocated : Z) (b : blk) : Prop :=
  sizeof_header <= b_offset b /\ sizeof_free <= b_size b /\
  blk_end b <= allocated.

(** The state [mf] has the well-formed free list [L]: the mapping is as
    large as the handle says, the list is linked from the header, its
    blocks lie in [sizeof_header, allocated) and no two of them
    overlap. *)
Record well_formed (mf : memfile) (L : list blk) : Prop := WellFormed {
  wf_mapped : mmap_size mf = Z.of_nat (length (mmap_base mf));
  wf_size : mmap_size mf < 2 ^ 64;
  wf_chain : exists h, rd64 mf f_free_list_head = Some h /\ chain mf h L;
  wf_blocks : exists allocated,
      rd64 mf f_allocated = Some allocated /\ allocated <= mmap_size mf /\
      Forall (blk_ok allocated) L;
  wf_nodup : NoDup L;
  wf_disjoint : forall a b, a ∈ L -> b ∈ L -> a <> b -> disjoint_blk a b
}.

(** Offsets strictly ascending, and a gap between each block and the
    next one. *)
Fixpoint separated (L : list blk) : Prop :=
  match L with
  | a :: (b :: _) as L' =>
      b_offset a < b_offset b /\ blk_end a < b_offset b /\ separated L'
  | _ => True
  end.

(** The free-list state of a handle: the head and, node by node, the
    offset, size and link. *)
Definition free_list_is (mf : memfile) (L : list blk) : Prop :=
  exists h, rd64 mf f_free_list_head = Some h /\ chain mf h L.

(** The merge of the sorted array as a function: [cur] is the entry at
    [write_idx - 1]. *)
Fixpoint merge_from (cur : blk) (rest : list blk) : list blk :=
  match rest with
  | [] => [cur]
  | x :: rest' =>
      if wrap64 (b_offset cur + b_size cur) =? b_offset x
      then merge_from (Blk (b_offset cur) (wrap64 (b_size cur + b_size x))) rest'
      else cur :: merge_from x rest'
  end.

(** The order the insertion sort establishes. *)
Definition le_off (a b : blk) : Prop := b_offset a <= b_offset b.

(** Sorted by offset with no overlap: each block ends at or before the
    start of the next. *)
Fixpoint ordered (L : list blk) : Prop :=
  match L with
  | a :: (b :: _) as L' => blk_end a <= b_offset b /\ ordered L'
  | _ => True
  end.

(** The rebuilding loop over the surviving entries, as a recursion on
    the list of them. *)
Fixpoint write_nodes (M : list blk) (mf : memfile) : option memfile :=
  match M with
  | [] => Some mf
  | b :: M' =>
    block ← memfile_ptr mf (b_offset b);
    mf1 ← wr64 mf (block + f_size) (b_size b);
    mf2 ← wr64 mf1 (block + f_next)
                   (match M' with c :: _ => b_offset c | [] => 0 end);
    write_nodes M' mf2
  end.

Definition head_offset (M : list blk) : Z :=
  match M with b :: _ => b_offset b | [] => 0 end.

(** A node of the list: 16 bytes past the header and inside a mapping
    of [len] bytes. *)
Definition node_ok (len : Z) (b : blk) : Prop :=
  sizeof_header <= b_offset b /\
  b_offset b + sizeof_free <= len /\
  0 <= b_size b < 2 ^ 64.

(** The node of [a] ends before the node of [c] starts. *)
Definition node_before (a c : blk) : Prop :=
  b_offset a + sizeof_free <= b_offset c.

(** Address [q] holds a [u64] that no node of [M] overlaps. *)
Definition off_nodes (M : list blk) (q : Z) : Prop :=
  Forall (fun b => q + 8 <= b_offset b \/ b_offset b + sizeof_free <= q) M.

(** ** Runs used as examples *)

Definition all_ok : sys := Sys true true true true.

Definition no_file : memfile := MemFile [] 0 0.

(** The state a run ends in. *)
Definition run (r : option memfile) : memfile := default no_file r.

(** A fresh arena of 4096 bytes. *)
Definition fresh_4096 : option memfile :=
  fst (memfile_open all_ok ∅ "arena" 4096).

(** Three blocks of 100 bytes allocated one after the other, then freed
    in the order second, first, third. *)
Definition three_freed : option memfile :=
  mf ← fresh_4096;
  '(a, mf) ← memfile_alloc all_ok mf 100;
  '(b, mf) ← memfile_alloc all_ok mf 100;
  '(c, mf) ← memfile_alloc all_ok mf 100;
  mf ← memfile_free mf b;
  mf ← memfile_free mf a;
  memfile_free mf c.

Definition three_freed_list : list blk :=
  [Blk 256 112; Blk 32 112; Blk 144 112].

(** ** Offsets handed out by [memfile_alloc] *)

(** [p] is a valid caller-visible offset of [mf]: its allocation header
    at [p - 8] lies past the file header, and the 16 bytes from there on
    (the free node that [memfile_free] writes) lie inside the mapping. *)
Definition valid_offset (mf : memfile) (p : Z) : Prop :=
  sizeof_header <= p - sizeof_alloc /\
  p - sizeof_alloc + sizeof_free <= mmap_size mf /\
  p < 2 ^ 64.

(** One block of 100 bytes allocated in a fresh arena. *)
Definition one_alloc : option (Z * memfile) :=
  mf ← fresh_4096; memfile_alloc all_ok mf 100.

(** A zero-byte block allocated in a fresh arena, and a block of 8
    bytes after it. *)
Definition zero_then_eight : option (Z * Z * memfile) :=
  mf ← fresh_4096;
  '(a, mf) ← memfile_alloc all_ok mf 0;
  '(b, mf) ← memfile_alloc all_ok mf 8;
  Some (a, b, mf).

(** A block that fills a fresh arena up to its last 8 bytes, and a
    zero-byte block in those. *)
Definition zero_at_end : option (Z * memfile) :=
  mf ← fresh_4096;
  '(_, mf) ← memfile_alloc all_ok mf 4048;
  memfile_alloc all_ok mf 0.

(** ** Sync and close *)

(** The system calls [memfile_sync] and [memfile_close] make, in the
    order they are made. *)
Inductive syscall : Type :=
  | Msync (len : Z)
  | Munmap (len : Z)
  | CloseFd
  | FreePath.

(** The part of [memfile_t] the lifecycle functions look at: the
    mapping, whether [mmap_base] is not [NULL], and [closed].  A [NULL]
    handle is [None]. *)
Record handle : Type := Handle {
  h_file : memfile;
  h_mapped : bool;
  h_closed : bool
}.

Definition memfile_sync (mf : option handle) : list syscall :=
  match mf with
  | None => []
  | Some h =>
      if h_closed h || negb (h_mapped h) then []
      else [Msync (mmap_size (h_file h))]
  end.

(** The handle afterwards and the calls made. *)
Definition memfile_close (mf : option handle) : option handle * list syscall :=
  match mf with
  | None => (None, [])
  | Some h =>
      if h_closed h then (Some h, [])
      else
        let h1 := {| h_file := h_file h; h_mapped := h_mapped h; h_closed := true |} in
        (Some h1,
         memfile_sync (Some h1)
           ++ [Munmap (mmap_size (h_file h1)); CloseFd; FreePath])
  end.

(** ** Measures and segments of the free list *)

(** The bytes in the blocks of a list. *)
Definition free_bytes (L : list blk) : Z :=
  foldr (fun b acc => b_size b + acc) 0 L.

(** The part of a free list from offset [h] up to, and not including,
    the node at offset [t]. *)
Fixpoint chain_to (mf : memfile) (h : Z) (L : list blk) (t : Z) : Prop :=
  match L with
  | [] => h = t
  | b :: L' =>
      h = b_offset b /\ memfile_ptr mf h = Some h /\
      rd64 mf (h + f_size) = Some (b_size b) /\
      exists n, rd64 mf (h + f_next) = Some n /\ chain_to mf n L' t
  end.

(** The offset of the last block of a list, 0 for the empty list: the
    [prev_offset] of the first-fit loop after it has passed the list. *)
Definition last_offset (prev : Z) (L : list blk) : Z :=
  match last L with Some b => b_offset b | None => prev end.

(** Byte [i] does not belong to the 8 bytes at [a]. *)
Definition outside (a : Z) (i : nat) : Prop :=
  Z.of_nat i < a \/ a + 8 <= Z.of_nat i.

(** A handle on a fresh arena of 4096 bytes, as [memfile_open] returns
    it. *)
Definition fresh_handle : handle :=
  {| h_file := run fresh_4096; h_mapped := true; h_closed := false |}.

(** Blocks of 8, 100 and 8 bytes allocated in a fresh arena, then the
    second and the first freed: the free list is the block of 16 bytes
    at 32, then the block of 112 bytes at 48. *)
Definition small_then_large : option memfile :=
  mf ← fresh_4096;
  '(a, mf) ← memfile_alloc all_ok mf 8;
  '(b, mf) ← memfile_alloc all_ok mf 100;
  '(c, mf) ← memfile_alloc all_ok mf 8;
  mf ← memfile_free mf b;
  memfile_free mf a.

(** * Proofs *)

(** ** Wrap-around *)

Lemma wrap64_small z : 0 <= z < 2 ^ 64 -> wrap64 z = z.
Proof. intros H. unfold wrap64. apply Z.mod_small. exact H. Qed.

Lemma wrap64_range z : 0 <= wrap64 z < 2 ^ 64.
Proof. unfold wrap64. apply Z.mod_pos_bound. lia. Qed.

Module MemFacts.
Import Mem.

Lemma in_range_true m a n :
  in_range m a n = true <-> 0 <= a /\ a + Z.of_nat n <= Z.of_nat (length m).
Proof. unfold in_range. rewrite andb_true_iff, Z.leb_le, Z.leb_le. tauto. Qed.

Lemma load_bytes_Some m a n bs :
  load_bytes m a n = Some bs <->
  (0 <= a /\ a + Z.of_nat n <= Z.of_nat (length m)) /\
  bs = take n (drop (Z.to_nat a) m).
Proof.
  unfold load_bytes. destruct (in_range m a n) eqn:E.
  - apply in_range_true in E. split.
    + intros [= <-]. auto.
    + intros [_ ->]. reflexivity.
  - split; [discriminate|]. intros [H _]. apply in_range_true in H. congruence.
Qed.

Lemma store_bytes_Some m a bs m' :
  store_bytes m a bs = Some m' <->
  (0 <= a /\ a + Z.of_nat (length bs) <= Z.of_nat (length m)) /\
  m' = take (Z.to_nat a) m ++ bs ++ drop (Z.to_nat a + length bs) m.
Proof.
  unfold store_bytes. destruct (in_range m a (length bs)) eqn:E.
  - apply in_range_true in E. split.
    + intros [= <-]. auto.
    + intros [_ ->]. reflexivity.
  - split; [discriminate|]. intros [H _]. apply in_range_true in H. congruence.
Qed.

Lemma store_bytes_length m a bs m' :
  store_bytes m a bs = Some m' -> length m' = length m.
Proof.
  intros [[H0 H1] ->]%store_bytes_Some.
  rewrite !length_app, length_take, length_drop. lia.
Qed.

(** Byte [i] after a store: inside the stored range it is the stored
    byte, outside it is unchanged. *)
Lemma store_bytes_lookup m a bs m' (i : nat) :
  store_bytes m a bs = Some m' ->
  m' !! i =
  if decide (Z.to_nat a <= i < Z.to_nat a + length bs)%nat
  then bs !! (i - Z.to_nat a)%nat else m !! i.
Proof.
  intros [[H0 H1] ->]%store_bytes_Some.
  assert (Hl : length (take (Z.to_nat a) m) = Z.to_nat a)
    by (rewrite length_take; lia).
  destruct (decide (Z.to_nat a <= i < Z.to_nat a + length bs)%nat) as [Hin|Hout].
  - rewrite lookup_app_r by lia. rewrite Hl.
    rewrite lookup_app_l by lia. reflexivity.
  - destruct (decide (i < Z.to_nat a)%nat) as [Hlt|Hge].
    + rewrite lookup_app_l by lia. rewrite lookup_take.
      destruct (decide (i < Z.to_nat a)%nat); [reflexivity|lia].
    + rewrite lookup_app_r by lia. rewrite Hl.
      rewrite lookup_app_r by lia. rewrite lookup_drop. f_equal. lia.
Qed.

Lemma load_store_same m a bs m' :
  store_bytes m a bs = Some m' -> load_bytes m' a (length bs) = Some bs.
Proof.
  intros H. pose proof (store_bytes_length _ _ _ _ H) as Hlen.
  pose proof H as [[H0 H1] _]%store_bytes_Some.
  apply load_bytes_Some. split; [lia|].
  apply list_eq. intros i. rewrite lookup_take.
  destruct (decide (i < length bs)%nat) as [Hi|Hi].
  - rewrite lookup_drop, (store_bytes_lookup _ _ _ _ _ H).
    destruct (decide _) as [_|Hn]; [f_equal; lia|lia].
  - apply lookup_ge_None. lia.
Qed.

Lemma load_store_other m a bs m' a' n :
  store_bytes m a bs = Some m' ->
  a' + Z.of_nat n <= a \/ a + Z.of_nat (length bs) <= a' ->
  load_bytes m' a' n = load_bytes m a' n.
Proof.
  intros H Hd. pose proof (store_bytes_length _ _ _ _ H) as Hlen.
  pose proof H as [[H0 H1] _]%store_bytes_Some.
  unfold load_bytes, in_range. rewrite Hlen.
  destruct ((0 <=? a') && _) eqn:E; [|reflexivity].
  apply andb_true_iff in E as [E1%Z.leb_le E2%Z.leb_le].
  f_equal. apply list_eq. intros i. rewrite !lookup_take.
  destruct (decide (i < n)%nat) as [Hi|Hi]; [|reflexivity].
  rewrite !lookup_drop, (store_bytes_lookup _ _ _ _ _ H).
  destruct (decide _) as [Hn|_]; [lia|reflexivity].
Qed.

Lemma store_load_id m a n bs :
  load_bytes m a n = Some bs -> store_bytes m a bs = Some m.
Proof.
  intros [[H0 H1] ->]%load_bytes_Some.
  assert (Hl : length (take n (drop (Z.to_nat a) m)) = n)
    by (rewrite length_take, length_drop; lia).
  apply store_bytes_Some. rewrite Hl. split; [lia|].
  rewrite <- (take_drop (Z.to_nat a) m) at 1. f_equal.
  rewrite <- (take_drop n (drop (Z.to_nat a) m)) at 1. f_equal.
  rewrite drop_drop. reflexivity.
Qed.

Lemma store_bytes_defined m a bs :
  0 <= a -> a + Z.of_nat (length bs) <= Z.of_nat (length m) ->
  is_Some (store_bytes m a bs).
Proof.
  intros H0 H1. unfold store_bytes.
  destruct (in_range m a (length bs)) eqn:E; [eauto|].
  assert (in_range m a (length bs) = true) by (apply in_range_true; lia).
  congruence.
Qed.

Lemma load_bytes_length m a n bs :
  load_bytes m a n = Some bs -> length bs = n.
Proof.
  intros [[H0 H1] ->]%load_bytes_Some. rewrite length_take, length_drop. lia.
Qed.

(** *** 64-bit words *)

Lemma load64_Some m a v :
  load64 m a = Some v -> 0 <= a /\ a + 8 <= Z.of_nat (length m).
Proof.
  unfold load64. destruct (load_bytes m a 8) as [bs|] eqn:E; [|discriminate].
  intros _. apply load_bytes_Some in E. lia.
Qed.

Lemma load64_defined m a :
  0 <= a -> a + 8 <= Z.of_nat (length m) -> is_Some (load64 m a).
Proof.
  intros H0 H1. unfold load64, load_bytes.
  assert (in_range m a 8 = true) as -> by (apply in_range_true; lia).
  simpl. eauto.
Qed.

Lemma load64_range m a v : load64 m a = Some v -> 0 <= v < 2 ^ 64.
Proof.
  unfold load64. destruct (load_bytes m a 8) as [bs|] eqn:E; [|discriminate].
  intros [= <-]. pose proof (le_combine_bound bs) as Hb.
  rewrite (load_bytes_length _ _ _ _ E) in Hb. exact Hb.
Qed.


Lemma store64_defined m a v :
  0 <= a -> a + 8 <= Z.of_nat (length m) -> is_Some (store64 m a v).
Proof.
  intros H0 H1. apply store_bytes_defined; [exact H0|].
  rewrite length_le_split. lia.
Qed.

Lemma store64_length m a v m' : store64 m a v = Some m' -> length m' = length m.
Proof. apply store_bytes_length. Qed.

Lemma load64_store64_same m a v m' :
  store64 m a v = Some m' -> load64 m' a = Some (wrap64 v).
Proof.
  unfold store64, load64. intros H. apply load_store_same in H.
  rewrite length_le_split in H. rewrite H. simpl.
  rewrite le_combine_split. reflexivity.
Qed.

Lemma load64_store64_other m a v m' a' :
  store64 m a v = Some m' -> a' + 8 <= a \/ a + 8 <= a' ->
  load64 m' a' = load64 m a'.
Proof.
  unfold store64, load64. intros H Hd.
  rewrite (load_store_other _ _ _ _ a' 8 H); [reflexivity|].
  rewrite length_le_split. lia.
Qed.

Lemma store64_load64_id m a v : load64 m a = Some v -> store64 m a v = Some m.
Proof.
  unfold store64, load64.
  destruct (load_bytes m a 8) as [bs|] eqn:E; [|discriminate].
  intros [= <-]. pose proof (load_bytes_length _ _ _ _ E) as Hl.
  rewrite <- Hl, split_le_combine. eapply store_load_id, E.
Qed.

Lemma store64_lookup_other m a v m' (i : nat) :
  store64 m a v = Some m' -> Z.of_nat i < a \/ a + 8 <= Z.of_nat i ->
  m' !! i = m !! i.
Proof.
  unfold store64. intros H Hd. pose proof H as [[H0 H1] _]%store_bytes_Some.
  rewrite (store_bytes_lookup _ _ _ _ _ H). rewrite length_le_split.
  destruct (decide _) as [Hn|_]; [lia|reflexivity].
Qed.

End MemFacts.

(** ** Reads and writes through the handle *)

Lemma memfile_ptr_Some mf o p :
  memfile_ptr mf o = Some p <-> p = o /\ o <> 0 /\ o < mmap_size mf.
Proof.
  unfold memfile_ptr.
  destruct (Z.eqb_spec o 0) as [E0|E0];
    destruct (Z.leb_spec (mmap_size mf) o) as [E1|E1]; simpl;
    (split; [try discriminate; intros [= <-]; auto | intros (-> & ? & ?)]);
    try lia; reflexivity.
Qed.

Lemma memfile_ptr_ok mf o :
  o <> 0 -> o < mmap_size mf -> memfile_ptr mf o = Some o.
Proof. intros. apply memfile_ptr_Some. auto. Qed.

Lemma wr64_inv mf p v mf' :
  wr64 mf p v = Some mf' ->
  exists m, Mem.store64 (mmap_base mf) p v = Some m /\ mf' = set_base mf m.
Proof.
  unfold wr64. destruct (Mem.store64 (mmap_base mf) p v) as [m|]; [|discriminate].
  intros [= <-]. eauto.
Qed.

Lemma wr64_mmap_size mf p v mf' :
  wr64 mf p v = Some mf' -> mmap_size mf' = mmap_size mf.
Proof. intros (m & _ & ->)%wr64_inv. reflexivity. Qed.

Lemma wr64_file_len mf p v mf' :
  wr64 mf p v = Some mf' -> file_len mf' = file_len mf.
Proof. intros (m & _ & ->)%wr64_inv. reflexivity. Qed.

Lemma wr64_length mf p v mf' :
  wr64 mf p v = Some mf' ->
  length (mmap_base mf') = length (mmap_base mf).
Proof.
  intros (m & H & ->)%wr64_inv. simpl. eapply MemFacts.store64_length, H.
Qed.

Lemma wr64_ptr mf p v mf' o :
  wr64 mf p v = Some mf' -> memfile_ptr mf' o = memfile_ptr mf o.
Proof. intros H. unfold memfile_ptr. rewrite (wr64_mmap_size _ _ _ _ H). reflexivity. Qed.

Lemma rd64_wr64_same mf p v mf' :
  wr64 mf p v = Some mf' -> rd64 mf' p = Some (wrap64 v).
Proof.
  intros (m & H & ->)%wr64_inv. unfold rd64. simpl.
  eapply MemFacts.load64_store64_same, H.
Qed.

Lemma rd64_wr64_other mf p v mf' q :
  wr64 mf p v = Some mf' -> q + 8 <= p \/ p + 8 <= q ->
  rd64 mf' q = rd64 mf q.
Proof.
  intros (m & H & ->)%wr64_inv Hd. unfold rd64. simpl.
  eapply MemFacts.load64_store64_other; eauto.
Qed.

Lemma wr64_defined mf p v :
  0 <= p -> p + 8 <= Z.of_nat (length (mmap_base mf)) -> is_Some (wr64 mf p v).
Proof.
  intros H0 H1. unfold wr64.
  destruct (MemFacts.store64_defined (mmap_base mf) p v H0 H1) as [m ->].
  simpl. eauto.
Qed.

Lemma wr64_id mf p v : rd64 mf p = Some v -> wr64 mf p v = Some mf.
Proof.
  unfold rd64, wr64. intros H. rewrite (MemFacts.store64_load64_id _ _ _ H).
  simpl. destruct mf. reflexivity.
Qed.

Lemma rd64_range mf p v : rd64 mf p = Some v -> 0 <= v < 2 ^ 64.
Proof. apply MemFacts.load64_range. Qed.

(** ** The insertion sort *)

(** The inner loop stops at the split of the sorted prefix into the
    entries it keeps in place and the ones it has moved up by one. *)
Lemma sort_inner_spec key_off (pre : list blk) :
  forall g suf,
  exists lo hi arr',
    pre = lo ++ hi /\
    Forall (fun b => key_off < b_offset b) hi /\
    (forall x, last lo = Some x -> b_offset x <= key_off) /\
    sort_inner (pre ++ g :: suf) key_off (length pre) = Some (arr', length lo) /\
    forall k, <[length lo := k]> arr' = lo ++ k :: hi ++ suf.
Proof.
  induction pre as [|b pre IH] using rev_ind; intros g suf.
  - exists [], [], (g :: suf). simpl. repeat split; auto.
    intros x [=].
  - rewrite length_app. simpl length.
    replace (length pre + 1)%nat with (S (length pre)) by lia.
    simpl sort_inner. rewrite <- app_assoc. simpl app.
    rewrite list_lookup_middle by reflexivity. simpl.
    destruct (key_off <? b_offset b) eqn:E.
    + apply Z.ltb_lt in E.
      replace (<[S (length pre) := b]> (pre ++ b :: g :: suf))
        with (pre ++ b :: b :: suf).
      2:{ rewrite insert_app_r_alt by lia.
          replace (S (length pre) - length pre)%nat with 1%nat by lia.
          reflexivity. }
      destruct (IH b (b :: suf)) as (lo & hi & arr' & Hp & Hhi & Hlo & Hs & Hk).
      exists lo, (hi ++ [b]), arr'. repeat split.
      * rewrite Hp, <- app_assoc. reflexivity.
      * apply Forall_app. split; [exact Hhi|]. repeat constructor. exact E.
      * exact Hlo.
      * exact Hs.
      * intros k. rewrite Hk, <- app_assoc. reflexivity.
    + apply Z.ltb_ge in E.
      exists (pre ++ [b]), [], (pre ++ b :: g :: suf). repeat split.
      * rewrite app_nil_r. reflexivity.
      * constructor.
      * intros x. rewrite last_snoc. intros [= <-]. exact E.
      * rewrite length_app. simpl. do 3 f_equal. lia.
      * intros k. rewrite length_app. simpl.
        replace (pre ++ b :: g :: suf) with ((pre ++ [b]) ++ g :: suf)
          by (rewrite <- app_assoc; reflexivity).
        rewrite insert_app_r_alt by (rewrite length_app; simpl; lia).
        rewrite length_app. simpl.
        replace (length pre + 1 - (length pre + 1))%nat with 0%nat by lia.
        reflexivity.
Qed.

Lemma sorted_snoc_last (l : list blk) (x k : blk) :
  StronglySorted le_off l -> last l = Some x -> le_off x k ->
  forall y, y ∈ l -> le_off y k.
Proof.
  intros Hs [l' ->]%last_Some Hx y Hy.
  apply elem_of_app in Hy as [Hy|Hy].
  - assert (le_off y x).
    { eapply StronglySorted_app_1_elem_of; eauto. apply elem_of_cons. auto. }
    unfold le_off in *. lia.
  - apply elem_of_cons in Hy as [->|Hy]; [exact Hx|]. inversion Hy.
Qed.


Lemma blk_eta (b : blk) : Blk (b_offset b) (b_size b) = b.
Proof. destruct b. reflexivity. Qed.

(** The outer loop sorts the array, keeps its entries, and leaves an
    array that is already in order as it is. *)
Lemma sort_loop_spec (suf : list blk) :
  forall pre,
  StronglySorted le_off pre ->
  Z.of_nat (length pre + length suf) <= 2 ^ 31 ->
  exists sorted,
    sort_loop (length suf) (length pre) (pre ++ suf) = Some sorted /\
    pre ++ suf ≡ₚ sorted /\
    StronglySorted le_off sorted /\
    (StronglySorted le_off (pre ++ suf) -> sorted = pre ++ suf).
Proof.
  induction suf as [|key suf IH]; intros pre Hpre Hlen.
  - exists (pre ++ []). simpl. split; [reflexivity|]. split; [reflexivity|].
    split; [rewrite app_nil_r; exact Hpre | reflexivity].
  - simpl length in *. simpl sort_loop.
    rewrite list_lookup_middle by reflexivity. simpl.
    destruct (Z.leb_spec (2 ^ 31) (Z.of_nat (length pre) - 1)) as [Hbig|_]; [lia|].
    destruct (sort_inner_spec (b_offset key) pre key suf)
      as (lo & hi & arr' & Hp & Hhi & Hlo & Hs & Hk).
    rewrite Hs. simpl. rewrite Hk, blk_eta.
    assert (Hsplit : StronglySorted le_off (lo ++ hi)) by (rewrite <- Hp; exact Hpre).
    apply StronglySorted_app in Hsplit as (Hlh & Hslo & Hshi).
    assert (Hlok : forall y, y ∈ lo -> le_off y key).
    { intros y Hy. destruct (last lo) as [x|] eqn:El.
      - exact (sorted_snoc_last lo x key Hslo El (Hlo x eq_refl) y Hy).
      - apply last_None in El. subst lo. inversion Hy. }
    assert (Hpre' : StronglySorted le_off (lo ++ key :: hi)).
    { apply StronglySorted_app_2.
      - intros x1 x2 H1 [->|H2]%elem_of_cons; auto.
      - exact Hslo.
      - apply StronglySorted_cons. split; [|exact Hshi].
        eapply Forall_impl; [exact Hhi|]. unfold le_off. simpl. intros; lia. }
    destruct (IH (lo ++ key :: hi) Hpre') as (sorted & HS & Hperm & Hsorted & Hid).
    { rewrite length_app. simpl. rewrite Hp, length_app in Hlen. lia. }
    assert (Hlen' : length (lo ++ key :: hi) = S (length pre)).
    { rewrite Hp, !length_app. simpl. lia. }
    rewrite Hlen' in HS.
    assert (Happ : (lo ++ key :: hi) ++ suf = lo ++ key :: hi ++ suf)
      by (rewrite <- app_assoc; reflexivity).
    rewrite Happ in HS, Hperm, Hid.
    exists sorted. repeat split; auto.
    + rewrite <- Hperm, Hp, <- app_assoc.
      apply Permutation_app_head. symmetry. apply Permutation_middle.
    + intros Hall.
      apply StronglySorted_app in Hall as (Hpk & _ & Hks).
      assert (hi = []) as ->.
      { destruct hi as [|h hi]; [reflexivity|]. exfalso.
        apply Forall_cons in Hhi as [Hh _].
        assert (le_off h key).
        { apply Hpk; [|apply elem_of_cons; auto].
          rewrite Hp. apply elem_of_app. right. apply elem_of_cons. auto. }
        unfold le_off in *. lia. }
      rewrite app_nil_r in Hp. subst lo.
      apply Hid. simpl. apply StronglySorted_app_2; auto.
Qed.

(** ** The merge *)

(** While the loop runs the array is the merged entries [done ++ [cur]],
    then entries already consumed, then the entries still to visit. *)
Lemma merge_loop_spec (rest : list blk) :
  forall done cur mid i w,
  i = (length done + 1 + length mid)%nat ->
  w = (length done + 1)%nat ->
  exists arr',
    merge_loop (length rest) i w (done ++ cur :: mid ++ rest)
      = Some (arr', length (done ++ merge_from cur rest)) /\
    take (length (done ++ merge_from cur rest)) arr' = done ++ merge_from cur rest.
Proof.
  induction rest as [|x rest IH]; intros done cur mid i w -> ->.
  - simpl. exists (done ++ cur :: mid ++ []). split.
    + rewrite length_app. reflexivity.
    + replace (done ++ cur :: mid ++ []) with ((done ++ [cur]) ++ mid ++ [])
        by (rewrite <- app_assoc; reflexivity).
      apply take_app_length.
  - simpl length. simpl merge_loop.
    assert (H0 : (0 <? length done + 1)%nat = true) by (apply Nat.ltb_lt; lia).
    rewrite H0. replace (length done + 1 - 1)%nat with (length done) by lia.
    assert (Hcur : (done ++ cur :: mid ++ x :: rest) !! length done = Some cur)
      by (apply list_lookup_middle; reflexivity).
    rewrite Hcur. simpl.
    assert (Hx : (done ++ cur :: mid ++ x :: rest) !! (length done + 1 + length mid)%nat
                 = Some x).
    { replace (done ++ cur :: mid ++ x :: rest) with ((done ++ cur :: mid) ++ x :: rest)
        by (rewrite <- app_assoc; reflexivity).
      apply list_lookup_middle. rewrite length_app. simpl. lia. }
    rewrite Hx. simpl.
    destruct (wrap64 (b_offset cur + b_size cur) =? b_offset x) eqn:E.
    + replace (<[length done := Blk (b_offset cur) (wrap64 (b_size cur + b_size x))]>
                 (done ++ cur :: mid ++ x :: rest))
        with (done ++ Blk (b_offset cur) (wrap64 (b_size cur + b_size x))
                :: (mid ++ [x]) ++ rest).
      2:{ rewrite insert_app_r_alt by lia. rewrite Nat.sub_diag. simpl.
          rewrite <- app_assoc. reflexivity. }
      apply IH; [rewrite length_app; simpl; lia | reflexivity].
    + assert (Hd : forall l, (done ++ [cur]) ++ l = done ++ cur :: l)
        by (intros l; rewrite <- app_assoc; reflexivity).
      destruct mid as [|m mid0].
      * assert (H1 : (length done + 1 =? length done + 1 + length (@nil blk))%nat = true)
          by (apply Nat.eqb_eq; simpl; lia).
        rewrite H1. simpl.
        destruct (IH (done ++ [cur]) x [] (S (length done + 1 + 0)) (S (length done + 1)))
          as (arr' & Hm & Ht).
        { rewrite length_app. simpl. lia. }
        { rewrite length_app. simpl. lia. }
        repeat rewrite Hd in Hm. repeat rewrite Hd in Ht. simpl in Hm.
        exists arr'. split; assumption.
      * assert (H1 : (length done + 1 =? length done + 1 + length (m :: mid0))%nat = false)
          by (apply Nat.eqb_neq; simpl; lia).
        rewrite H1. simpl.
        replace (<[(length done + 1)%nat := x]> (done ++ cur :: m :: mid0 ++ x :: rest))
          with ((done ++ [cur]) ++ x :: (mid0 ++ [x]) ++ rest).
        2:{ rewrite Hd. simpl.
            rewrite insert_app_r_alt by lia.
            replace (length done + 1 - length done)%nat with 1%nat by lia.
            simpl. rewrite <- app_assoc. reflexivity. }
        destruct (IH (done ++ [cur]) x (mid0 ++ [x])
                    (S (length done + 1 + S (length mid0))) (S (length done + 1)))
          as (arr' & Hm & Ht).
        { rewrite !length_app. simpl. lia. }
        { rewrite length_app. simpl. lia. }
        repeat rewrite Hd in Hm. repeat rewrite Hd in Ht. rewrite Hd.
        exists arr'. split; assumption.
Qed.

(** The whole loop, from [i = 0] and [write_idx = 0]. *)
Lemma merge_loop_all (b0 : blk) (rest : list blk) :
  exists arr',
    merge_loop (S (length rest)) 0 0 (b0 :: rest)
      = Some (arr', length (merge_from b0 rest)) /\
    take (length (merge_from b0 rest)) arr' = merge_from b0 rest.
Proof.
  simpl merge_loop.
  destruct (merge_loop_spec rest [] b0 [] 1%nat 1%nat) as (arr' & Hm & Ht);
    [reflexivity..|].
  simpl in Hm, Ht. exists arr'. split; assumption.
Qed.

(** ** Blocks in order *)

Lemma blk_ok_pos al b : blk_ok al b -> b_offset b < blk_end b.
Proof. unfold blk_ok, blk_end, sizeof_free. lia. Qed.

(** A sorted array of pairwise disjoint blocks is in order. *)
Lemma sorted_ordered al (S : list blk) :
  StronglySorted le_off S -> NoDup S ->
  (forall a b, a ∈ S -> b ∈ S -> a <> b -> disjoint_blk a b) ->
  Forall (blk_ok al) S -> ordered S.
Proof.
  induction S as [|a [|b l] IH]; intros Hs Hn Hd Hok; simpl; auto.
  apply StronglySorted_cons in Hs as [Hab Hs].
  apply NoDup_cons in Hn as [Ha Hn].
  apply Forall_cons in Hok as [Hoka Hok].
  split.
  - apply Forall_cons in Hab as [Hab _].
    assert (Hne : a <> b) by (intros ->; apply Ha, elem_of_cons; auto).
    destruct (Hd a b) as [H|H]; auto.
    + apply elem_of_cons; auto.
    + apply elem_of_cons. right. apply elem_of_cons. auto.
    + apply Forall_cons in Hok as [Hokb _]. apply blk_ok_pos in Hokb.
      unfold le_off in Hab. lia.
  - apply IH; auto. intros x y Hx Hy. apply Hd; apply elem_of_cons; auto.
Qed.

Lemma separated_later al a (L : list blk) :
  separated (a :: L) -> Forall (blk_ok al) L ->
  Forall (fun c => blk_end a < b_offset c) L.
Proof.
  revert a. induction L as [|b L IH]; intros a Hs Hok; [constructor|].
  destruct Hs as (_ & Hab & Hs).
  apply Forall_cons in Hok as [Hokb Hok].
  constructor; [exact Hab|].
  eapply Forall_impl; [apply (IH b Hs Hok)|].
  simpl. intros c Hc. apply blk_ok_pos in Hokb. lia.
Qed.

Lemma separated_tail a (L : list blk) : separated (a :: L) -> separated L.
Proof. destruct L as [|b L]; simpl; tauto. Qed.

Lemma separated_sorted al (L : list blk) :
  separated L -> Forall (blk_ok al) L -> StronglySorted le_off L.
Proof.
  induction L as [|a L IH]; intros Hs Hok; [constructor|].
  pose proof Hok as [Hoka Hok']%Forall_cons.
  apply StronglySorted_cons. split.
  - eapply Forall_impl; [apply (separated_later al a L Hs Hok')|].
    unfold le_off. simpl. intros c Hc. apply blk_ok_pos in Hoka. lia.
  - apply IH; [eapply separated_tail, Hs | exact Hok'].
Qed.

Lemma separated_nodup al (L : list blk) :
  separated L -> Forall (blk_ok al) L -> NoDup L.
Proof.
  induction L as [|a L IH]; intros Hs Hok; [constructor|].
  pose proof Hok as [Hoka Hok']%Forall_cons.
  apply NoDup_cons. split.
  - intros Hin. pose proof (separated_later al a L Hs Hok') as Hl.
    rewrite Forall_forall in Hl. specialize (Hl a Hin).
    apply blk_ok_pos in Hoka. lia.
  - apply IH; [eapply separated_tail, Hs | exact Hok'].
Qed.

Lemma separated_disjoint al (L : list blk) :
  separated L -> Forall (blk_ok al) L ->
  forall a b, a ∈ L -> b ∈ L -> a <> b -> disjoint_blk a b.
Proof.
  induction L as [|x L IH]; intros Hs Hok a b Ha Hb Hne; [inversion Ha|].
  pose proof Hok as [Hokx Hok']%Forall_cons.
  pose proof (separated_later al x L Hs Hok') as Hl.
  rewrite Forall_forall in Hl.
  apply elem_of_cons in Ha as [->|Ha]; apply elem_of_cons in Hb as [->|Hb].
  - congruence.
  - left. specialize (Hl b Hb). lia.
  - right. specialize (Hl a Ha). lia.
  - apply IH; auto. eapply separated_tail, Hs.
Qed.

(** ** The merged list *)

Lemma merge_from_head cur rest :
  exists c tl, merge_from cur rest = c :: tl /\ b_offset c = b_offset cur.
Proof.
  revert cur. induction rest as [|x rest IH]; intros cur; simpl; [eauto|].
  destruct (_ =? _); [|eauto].
  destruct (IH (Blk (b_offset cur) (wrap64 (b_size cur + b_size x))))
    as (c & tl & -> & Hc). eauto.
Qed.

(** Merging blocks that are in order leaves a gap between any two
    neighbours, keeps every block inside the arena, and starts at the
    first block's offset. *)
Lemma merge_from_spec al rest :
  al < 2 ^ 64 ->
  forall cur,
  ordered (cur :: rest) -> Forall (blk_ok al) (cur :: rest) ->
  separated (merge_from cur rest) /\
  Forall (blk_ok al) (merge_from cur rest) /\
  Forall (fun c => exists b, b ∈ cur :: rest /\ b_offset c = b_offset b)
         (merge_from cur rest).
Proof.
  intros Hal. induction rest as [|x rest IH]; intros cur Ho Hok.
  - simpl. split; [exact I|]. split; [exact Hok|].
    repeat constructor. exists cur. split; [apply elem_of_cons; auto|reflexivity].
  - pose proof Hok as [Hokc [Hokx Hokr]%Forall_cons]%Forall_cons.
    destruct Ho as [Hcx Ho].
    assert (Hnw : wrap64 (b_offset cur + b_size cur) = blk_end cur).
    { apply wrap64_small. unfold blk_ok, blk_end, sizeof_header, sizeof_free in *. lia. }
    simpl merge_from. rewrite Hnw.
    destruct (Z.eqb_spec (blk_end cur) (b_offset x)) as [Heq|Hne].
    + set (cur' := Blk (b_offset cur) (wrap64 (b_size cur + b_size x))).
      assert (Hsz : wrap64 (b_size cur + b_size x) = b_size cur + b_size x).
      { apply wrap64_small. unfold blk_ok, blk_end, sizeof_header, sizeof_free in *. lia. }
      assert (Hend : blk_end cur' = blk_end x).
      { unfold cur', blk_end in *. simpl. rewrite Hsz. lia. }
      destruct (IH cur') as (Hs & Hf & Hsub).
      * destruct rest as [|y rest]; [exact I|]. simpl in Ho |- *.
        rewrite Hend. exact Ho.
      * constructor; [|exact Hokr].
        unfold blk_ok in *. rewrite Hend. unfold cur'. simpl. rewrite Hsz.
        unfold sizeof_free, sizeof_header in *. lia.
      * split; [exact Hs|]. split; [exact Hf|].
        eapply Forall_impl; [exact Hsub|]. simpl.
        intros c (b & [->|Hb]%elem_of_cons & Hc).
        -- exists cur. split; [apply elem_of_cons; auto|exact Hc].
        -- exists b. split; [|exact Hc].
           apply elem_of_cons. right. apply elem_of_cons. auto.
    + assert (Hokxr : Forall (blk_ok al) (x :: rest)) by (constructor; assumption).
      destruct (IH x Ho Hokxr) as (Hs & Hf & Hsub).
      destruct (merge_from_head x rest) as (c & tl & Hm & Hc).
      rewrite Hm in *. split; [|split].
      * pose proof (blk_ok_pos _ _ Hokc) as Hpos.
        change (b_offset cur < b_offset c /\ blk_end cur < b_offset c /\
                separated (c :: tl)).
        rewrite Hc. split; [lia|]. split; [lia|exact Hs].
      * constructor; assumption.
      * constructor.
        -- exists cur. split; [apply elem_of_cons; auto|reflexivity].
        -- eapply Forall_impl; [exact Hsub|]. simpl.
           intros c0 (b & Hb & Hc0). exists b. split; [|exact Hc0].
           apply elem_of_cons. auto.
Qed.

(** Merging a list that already has its gaps changes nothing. *)
Lemma merge_from_separated al rest :
  al < 2 ^ 64 ->
  forall cur,
  separated (cur :: rest) -> Forall (blk_ok al) (cur :: rest) ->
  merge_from cur rest = cur :: rest.
Proof.
  intros Hal. induction rest as [|x rest IH]; intros cur Hs Hok; [reflexivity|].
  pose proof Hok as [Hokc Hok']%Forall_cons.
  destruct Hs as (_ & Hgap & Hs).
  simpl merge_from.
  assert (Hnw : wrap64 (b_offset cur + b_size cur) = blk_end cur).
  { apply wrap64_small. unfold blk_ok, blk_end, sizeof_header, sizeof_free in *. lia. }
  rewrite Hnw.
  destruct (Z.eqb_spec (blk_end cur) (b_offset x)) as [Heq|_]; [lia|].
  f_equal. apply IH; assumption.
Qed.

(** ** Walking the free list *)

Lemma chain_head mf h L : chain mf h L -> h = head_offset L.
Proof. destruct L; simpl; tauto. Qed.

Lemma chain_count mf (L : list blk) :
  forall h fuel c,
  chain mf h L -> (length L <= fuel)%nat ->
  0 <= c -> c + Z.of_nat (length L) < 2 ^ 32 ->
  count_free fuel mf h c = Some (c + Z.of_nat (length L)).
Proof.
  induction L as [|b L IH]; intros h fuel c Hc Hf H0 Hb.
  - simpl in Hc. subst h. destruct fuel; simpl; f_equal; lia.
  - destruct Hc as (-> & Hp & _ & n & Hn & Hc).
    pose proof Hp as (_ & Hnz & _)%memfile_ptr_Some.
    simpl length in *. destruct fuel as [|fuel]; [lia|].
    simpl. destruct (Z.eqb_spec (b_offset b) 0) as [?|_]; [contradiction|].
    rewrite Hp. simpl. rewrite Hn. simpl.
    assert (Hw : wrap32 (c + 1) = c + 1) by (apply Z.mod_small; lia).
    rewrite Hw, (IH n fuel (c + 1)); [f_equal|..]; auto; lia.
Qed.

Lemma chain_collect mf (L : list blk) :
  forall h, chain mf h L -> collect (length L) mf h = Some L.
Proof.
  induction L as [|b L IH]; intros h Hc; [reflexivity|].
  destruct Hc as (-> & Hp & Hs & n & Hn & Hc).
  simpl. rewrite Hp. simpl. rewrite Hs. simpl. rewrite Hn. simpl.
  rewrite (IH n Hc). simpl. rewrite blk_eta. reflexivity.
Qed.

(** The last link of a chain is 0. *)
Lemma chain_last mf (L : list blk) :
  forall h b, chain mf h L -> last L = Some b ->
  rd64 mf (b_offset b + f_next) = Some 0.
Proof.
  induction L as [|a L IH]; intros h b Hc Hl; [discriminate|].
  destruct Hc as (-> & Hp & Hs & n & Hn & Hc).
  destruct L as [|a' L].
  - simpl in Hl, Hc. injection Hl as <-. subst n. exact Hn.
  - apply (IH n b Hc). exact Hl.
Qed.

(** Offsets of a well-formed list are pairwise distinct, so the list
    is no longer than the mapping. *)
Lemma wf_offsets_nodup mf L :
  well_formed mf L -> NoDup (b_offset <$> L).
Proof.
  intros [_ _ _ (al & _ & _ & Hok) Hn Hd].
  apply NoDup_fmap_2_strong; [|exact Hn].
  intros x y Hx Hy Heq.
  destruct (decide (x = y)) as [|Hne]; [assumption|exfalso].
  rewrite Forall_forall in Hok.
  pose proof (blk_ok_pos _ _ (Hok x Hx)). pose proof (blk_ok_pos _ _ (Hok y Hy)).
  destruct (Hd x y Hx Hy Hne); lia.
Qed.

Lemma wf_length mf L :
  well_formed mf L -> (length L <= walk_fuel mf)%nat.
Proof.
  intros Hwf. pose proof (wf_offsets_nodup mf L Hwf) as Hn.
  destruct Hwf as [_ _ _ (al & _ & Hal & Hok) _ _].
  assert (Hsub : b_offset <$> L ⊆+ Z.of_nat <$> seq 0 (walk_fuel mf)).
  { apply NoDup_submseteq; [exact Hn|].
    intros o (b & -> & Hb)%list_elem_of_fmap.
    rewrite Forall_forall in Hok. destruct (Hok b Hb) as (H1 & H2 & H3).
    apply list_elem_of_fmap. exists (Z.to_nat (b_offset b)).
    unfold blk_end, sizeof_header, sizeof_free, walk_fuel in *.
    split; [lia|]. apply elem_of_seq. lia. }
  apply submseteq_length in Hsub.
  rewrite !length_fmap, length_seq in Hsub. exact Hsub.
Qed.

(** ** Rebuilding the list *)

Lemma rebuild_loop_nodes (suf : list blk) :
  forall pre junk mf i w,
  i = length pre -> w = length (pre ++ suf) ->
  rebuild_loop (length suf) i w (pre ++ suf ++ junk) mf = write_nodes suf mf.
Proof.
  induction suf as [|b suf IH]; intros pre junk mf i w -> ->; [reflexivity|].
  change ((b :: suf) ++ junk) with (b :: suf ++ junk).
  simpl length. simpl rebuild_loop. simpl write_nodes.
  assert (Hb : (pre ++ b :: suf ++ junk) !! length pre = Some b)
    by (apply list_lookup_middle; reflexivity).
  rewrite Hb. simpl.
  destruct (memfile_ptr mf (b_offset b)) as [block|]; [simpl|reflexivity].
  destruct (wr64 mf (block + f_size) (b_size b)) as [mf1|]; [simpl|reflexivity].
  assert (Hn : (if (S (length pre) <? length (pre ++ b :: suf))%nat
                then bn ← (pre ++ b :: suf ++ junk) !! S (length pre); Some (b_offset bn)
                else Some 0)
               = Some (match suf with c :: _ => b_offset c | [] => 0 end)).
  { destruct suf as [|c suf].
    - destruct (Nat.ltb_spec (S (length pre)) (length (pre ++ [b]))) as [Hlt|_];
        [|reflexivity].
      rewrite length_app in Hlt. simpl in Hlt. lia.
    - destruct (Nat.ltb_spec (S (length pre)) (length (pre ++ b :: c :: suf)))
        as [_|Hge].
      + replace (pre ++ b :: (c :: suf) ++ junk)
          with ((pre ++ [b]) ++ c :: suf ++ junk)
          by (rewrite <- app_assoc; reflexivity).
        rewrite list_lookup_middle by (rewrite length_app; simpl; lia).
        reflexivity.
      + rewrite length_app in Hge. simpl in Hge. lia. }
  rewrite Hn. simpl.
  destruct (wr64 mf1 (block + f_next) _) as [mf2|]; [simpl|reflexivity].
  replace (pre ++ b :: suf ++ junk) with ((pre ++ [b]) ++ suf ++ junk)
    by (rewrite <- app_assoc; reflexivity).
  apply IH.
  - rewrite length_app. simpl. lia.
  - rewrite <- app_assoc. reflexivity.
Qed.


Lemma separated_nodes al (L : list blk) :
  separated L -> Forall (blk_ok al) L -> StronglySorted node_before L.
Proof.
  induction L as [|a L IH]; intros Hs Hok; [constructor|].
  pose proof Hok as [Hoka Hok']%Forall_cons.
  apply StronglySorted_cons. split.
  - eapply Forall_impl; [apply (separated_later al a L Hs Hok')|].
    unfold node_before, blk_ok, blk_end in *. simpl. intros c Hc. lia.
  - apply IH; [eapply separated_tail, Hs | exact Hok'].
Qed.

Lemma blk_ok_node al len b :
  al <= len -> len < 2 ^ 64 -> blk_ok al b -> node_ok len b.
Proof.
  unfold blk_ok, node_ok, blk_end, sizeof_header, sizeof_free. lia.
Qed.

(** Writing the nodes of [M] one after the other links them into a
    chain and touches nothing else. *)
Lemma write_nodes_spec (M : list blk) :
  forall mf,
  mmap_size mf = Z.of_nat (length (mmap_base mf)) ->
  mmap_size mf < 2 ^ 64 ->
  Forall (node_ok (mmap_size mf)) M ->
  StronglySorted node_before M ->
  exists mf',
    write_nodes M mf = Some mf' /\
    chain mf' (head_offset M) M /\
    (forall q, off_nodes M q -> rd64 mf' q = rd64 mf q) /\
    mmap_size mf' = mmap_size mf /\
    length (mmap_base mf') = length (mmap_base mf) /\
    file_len mf' = file_len mf.
Proof.
  induction M as [|b M IH]; intros mf Hlen Hsz Hok Hap.
  - exists mf. simpl. repeat split; reflexivity.
  - apply Forall_cons in Hok as [(Hb1 & Hb2 & Hb3) Hok].
    apply StronglySorted_cons in Hap as [Hlater Hap].
    unfold sizeof_header, sizeof_free in *.
    assert (Hp : memfile_ptr mf (b_offset b) = Some (b_offset b))
      by (apply memfile_ptr_ok; lia).
    destruct (wr64_defined mf (b_offset b + f_size) (b_size b)) as [mf1 H1];
      [unfold f_size; lia..|].
    pose proof (wr64_length _ _ _ _ H1) as Hl1.
    pose proof (wr64_mmap_size _ _ _ _ H1) as Hm1.
    set (nxt := match M with c :: _ => b_offset c | [] => 0 end).
    destruct (wr64_defined mf1 (b_offset b + f_next) nxt) as [mf2 H2];
      [unfold f_next; lia..|].
    pose proof (wr64_length _ _ _ _ H2) as Hl2.
    pose proof (wr64_mmap_size _ _ _ _ H2) as Hm2.
    destruct (IH mf2) as (mf' & Hw & Hc & Hfr & Hm' & Hl' & Hf'); auto.
    { congruence. } { congruence. } { rewrite Hm2, Hm1. exact Hok. }
    assert (Hnxt : 0 <= nxt < 2 ^ 64).
    { unfold nxt. destruct M as [|c M]; [lia|].
      apply Forall_cons in Hok as [(Hc1 & Hc2 & _) _].
      unfold sizeof_header, sizeof_free in *. lia. }
    exists mf'. split; [|split; [|split; [|split; [|split]]]].
    + simpl. rewrite Hp. simpl. rewrite H1. simpl. fold nxt. rewrite H2. simpl.
      exact Hw.
    + simpl. split; [reflexivity|]. split; [|split].
      * apply memfile_ptr_ok; [lia|]. rewrite Hm', Hm2, Hm1. lia.
      * rewrite Hfr.
        2:{ eapply Forall_impl; [exact Hlater|]. unfold node_before, f_size, sizeof_free.
            simpl. intros; lia. }
        rewrite (rd64_wr64_other _ _ _ _ _ H2) by (unfold f_size, f_next; lia).
        rewrite (rd64_wr64_same _ _ _ _ H1). f_equal. apply wrap64_small. exact Hb3.
      * exists nxt. split.
        -- rewrite Hfr.
           2:{ eapply Forall_impl; [exact Hlater|]. unfold node_before, f_next, sizeof_free.
               simpl. intros; lia. }
           rewrite (rd64_wr64_same _ _ _ _ H2). f_equal. apply wrap64_small. exact Hnxt.
        -- exact Hc.
    + intros q Hq. apply Forall_cons in Hq as [Hqb Hq].
      rewrite (Hfr q Hq).
      rewrite (rd64_wr64_other _ _ _ _ _ H2) by (unfold f_next, sizeof_free in *; lia).
      rewrite (rd64_wr64_other _ _ _ _ _ H1) by (unfold f_size, sizeof_free in *; lia).
      reflexivity.
    + congruence.
    + congruence.
    + rewrite Hf', (wr64_file_len _ _ _ _ H2), (wr64_file_len _ _ _ _ H1). reflexivity.
Qed.

(** Writing a chain over itself changes nothing. *)
Lemma write_nodes_id (M : list blk) :
  forall mf h, chain mf h M -> write_nodes M mf = Some mf.
Proof.
  induction M as [|b M IH]; intros mf h Hc; [reflexivity|].
  destruct Hc as (-> & Hp & Hs & n & Hn & Hc).
  simpl. rewrite Hp. simpl. rewrite (wr64_id _ _ _ Hs). simpl.
  pose proof (chain_head _ _ _ Hc) as Hh. unfold head_offset in Hh.
  rewrite <- Hh, (wr64_id _ _ _ Hn). simpl. eapply IH, Hc.
Qed.

(** ** Coalescing a well-formed free list *)

Lemma merge_from_length cur rest :
  (length (merge_from cur rest) <= S (length rest))%nat.
Proof.
  revert cur. induction rest as [|x rest IH]; intros cur; simpl; [lia|].
  destruct (_ =? _).
  - specialize (IH (Blk (b_offset cur) (wrap64 (b_size cur + b_size x)))). lia.
  - specialize (IH x). simpl. lia.
Qed.

Lemma well_formed_separated mf M h al :
  mmap_size mf = Z.of_nat (length (mmap_base mf)) ->
  mmap_size mf < 2 ^ 64 ->
  rd64 mf f_free_list_head = Some h -> chain mf h M ->
  rd64 mf f_allocated = Some al -> al <= mmap_size mf ->
  Forall (blk_ok al) M -> separated M ->
  well_formed mf M.
Proof.
  intros Hmap Hsz Hh Hc Hal Hle Hok Hs. constructor; eauto.
  - eapply separated_nodup; eauto.
  - eapply separated_disjoint; eauto.
Qed.

(** What [memfile_coalesce] does to a well-formed free list [L] of fewer
    than 2^31 blocks (the range of the [int] index of the sort): it
    returns, and leaves a well-formed free list [M] with a gap between
    any two neighbours, made of blocks that start where blocks of [L]
    started; the mapping keeps its size and the high-water mark its
    value. *)
Lemma coalesce_spec mf L :
  well_formed mf L -> Z.of_nat (length L) < 2 ^ 31 ->
  exists mf' M,
    memfile_coalesce mf = Some mf' /\
    well_formed mf' M /\ separated M /\
    Forall (fun c => exists b, b ∈ L /\ b_offset c = b_offset b) M /\
    (L <> [] -> M <> []) /\
    (length M <= length L)%nat /\
    mmap_size mf' = mmap_size mf /\
    rd64 mf' f_allocated = rd64 mf f_allocated.
Proof.
  intros Hwf Hbound. pose proof (wf_length mf L Hwf) as Hfuel.
  pose proof Hwf as [Hmap Hsz (h & Hh & Hc) (al & Hal & Hle & Hok) Hn Hd].
  assert (Hself : Forall (fun c => exists b, b ∈ L /\ b_offset c = b_offset b) L).
  { apply Forall_forall. intros c Hc'. eauto. }
  unfold memfile_coalesce. rewrite Hh. simpl.
  destruct L as [|b0 [|b1 L]].
  - (* empty list *)
    simpl in Hc. subst h. simpl. exists mf, [].
    split; [reflexivity|]. split; [exact Hwf|]. split; [exact I|].
    split; [constructor|]. split; [tauto|]. split; [apply le_n|]. split; reflexivity.
  - (* one block *)
    pose proof Hc as (-> & (_ & Hnz & _)%memfile_ptr_Some & _).
    destruct (Z.eqb_spec (b_offset b0) 0) as [?|_]; [contradiction|].
    rewrite (chain_count mf [b0] (b_offset b0) (walk_fuel mf) 0 Hc Hfuel) by (simpl; lia).
    simpl. exists mf, [b0].
    split; [reflexivity|]. split; [exact Hwf|]. split; [exact I|].
    split; [exact Hself|]. split; [tauto|]. split; [apply le_n|]. split; reflexivity.
  - (* two blocks or more *)
    pose proof Hc as (-> & (_ & Hnz & _)%memfile_ptr_Some & _).
    destruct (Z.eqb_spec (b_offset b0) 0) as [?|_]; [contradiction|].
    set (L0 := b0 :: b1 :: L) in *.
    rewrite (chain_count mf L0 (b_offset b0) (walk_fuel mf) 0 Hc Hfuel) by lia.
    cbn [mbind option_bind].
    destruct (Z.ltb_spec (0 + Z.of_nat (length L0)) 2) as [Hlt|_];
      [unfold L0 in Hlt; simpl length in Hlt; lia|].
    rewrite Z.add_0_l, Nat2Z.id.
    rewrite (chain_collect mf L0 (b_offset b0) Hc). cbn [mbind option_bind].
    (* the sort *)
    destruct (sort_loop_spec (b1 :: L) [b0]) as (S0 & Hsort & Hperm & Hsorted & _).
    { repeat constructor. }
    { unfold L0 in Hbound. simpl length in *. lia. }
    change (sort_loop (length L0 - 1) 1 L0)
      with (sort_loop (length (b1 :: L)) (length [b0]) ([b0] ++ b1 :: L)).
    rewrite Hsort. cbn [mbind option_bind]. change ([b0] ++ b1 :: L) with L0 in Hperm.
    assert (HnS : NoDup S0) by (rewrite <- Hperm; exact Hn).
    assert (HokS : Forall (blk_ok al) S0) by (rewrite <- Hperm; exact Hok).
    assert (HdS : forall a b, a ∈ S0 -> b ∈ S0 -> a <> b -> disjoint_blk a b).
    { intros a b Ha Hb. rewrite <- Hperm in Ha, Hb. auto. }
    pose proof (sorted_ordered al S0 Hsorted HnS HdS HokS) as Hord.
    pose proof (Permutation_length Hperm) as HlenS.
    destruct S0 as [|s0 srest]; [discriminate HlenS|].
    (* the merge *)
    destruct (merge_loop_all s0 srest) as (arr' & Hmerge & Htake).
    rewrite HlenS. simpl length. rewrite Hmerge. cbn [mbind option_bind].
    assert (Hal64 : al < 2 ^ 64) by lia.
    destruct (merge_from_spec al srest Hal64 s0 Hord HokS) as (Hsep & HokM & Hsub).
    destruct (merge_from_head s0 srest) as (c & tl & HM & Hc0).
    set (M := merge_from s0 srest) in *.
    assert (Harr0 : arr' !! 0%nat = Some c).
    { assert (Ht0 : take (length M) arr' !! 0%nat = Some c) by (rewrite Htake, HM; reflexivity).
      rewrite lookup_take in Ht0. destruct (decide (0 < length M)%nat); [exact Ht0|discriminate]. }
    rewrite Harr0. cbn [mbind option_bind].
    (* the new head *)
    pose proof HokM as HokM'. rewrite HM in HokM'.
    apply Forall_cons in HokM' as [(Hc1 & Hc2 & Hc3) _].
    unfold blk_end, sizeof_header, sizeof_free in Hc1, Hc2, Hc3.
    destruct (wr64_defined mf f_free_list_head (b_offset c)) as [mf1 H1];
      [unfold f_free_list_head; lia..|].
    rewrite H1. cbn [mbind option_bind].
    pose proof (wr64_length _ _ _ _ H1) as Hl1.
    pose proof (wr64_mmap_size _ _ _ _ H1) as Hm1.
    (* the rebuilt list *)
    assert (Hreb : rebuild_loop (length M) 0 (length M) arr' mf1 = write_nodes M mf1).
    { rewrite <- (take_drop (length M) arr') at 1. rewrite Htake.
      apply (rebuild_loop_nodes M [] (drop (length M) arr') mf1); reflexivity. }
    rewrite Hreb.
    destruct (write_nodes_spec M mf1) as (mf' & Hw & Hchain & Hfr & Hm' & Hl' & _).
    { congruence. } { congruence. }
    { eapply Forall_impl; [exact HokM|]. intros x Hx.
      eapply blk_ok_node; [| |exact Hx]; lia. }
    { eapply separated_nodes; eauto. }
    assert (Hoff : forall q, 0 <= q -> q + 8 <= 32 -> off_nodes M q).
    { intros q Hq0 Hq. eapply Forall_impl; [exact HokM|].
      unfold blk_ok, sizeof_header. simpl. intros; lia. }
    assert (Hhead' : rd64 mf' f_free_list_head = Some (head_offset M)).
    { rewrite Hfr by (apply Hoff; unfold f_free_list_head; lia).
      rewrite (rd64_wr64_same _ _ _ _ H1), HM. simpl.
      f_equal. apply wrap64_small. lia. }
    assert (Hal' : rd64 mf' f_allocated = Some al).
    { rewrite Hfr by (apply Hoff; unfold f_allocated; lia).
      rewrite (rd64_wr64_other _ _ _ _ _ H1) by (unfold f_allocated, f_free_list_head; lia).
      exact Hal. }
    exists mf', M. split; [exact Hw|].
    split; [|split; [exact Hsep|split; [|split; [|split; [|split]]]]].
    + eapply well_formed_separated; eauto; congruence.
    + eapply Forall_impl; [exact Hsub|]. simpl. intros x (b & Hb & Hx).
      exists b. split; [|exact Hx]. rewrite Hperm. exact Hb.
    + intros _. rewrite HM. discriminate.
    + pose proof (merge_from_length s0 srest) as Hml. fold M in Hml.
      simpl length in HlenS. lia.
    + congruence.
    + congruence.
Qed.

(** A free list that already has its gaps is left as it is, byte for
    byte. *)
Lemma coalesce_fixed mf M :
  well_formed mf M -> separated M -> Z.of_nat (length M) < 2 ^ 31 ->
  memfile_coalesce mf = Some mf.
Proof.
  intros Hwf Hsep Hbound. pose proof (wf_length mf M Hwf) as Hfuel.
  pose proof Hwf as [Hmap Hsz (h & Hh & Hc) (al & Hal & Hle & Hok) Hn Hd].
  unfold memfile_coalesce. rewrite Hh. simpl.
  destruct M as [|b0 [|b1 M]].
  - simpl in Hc. subst h. reflexivity.
  - pose proof Hc as (-> & (_ & Hnz & _)%memfile_ptr_Some & _).
    destruct (Z.eqb_spec (b_offset b0) 0) as [?|_]; [contradiction|].
    rewrite (chain_count mf [b0] (b_offset b0) (walk_fuel mf) 0 Hc Hfuel) by (simpl; lia).
    reflexivity.
  - pose proof Hc as (-> & (_ & Hnz & _)%memfile_ptr_Some & _).
    destruct (Z.eqb_spec (b_offset b0) 0) as [?|_]; [contradiction|].
    set (L0 := b0 :: b1 :: M) in *.
    rewrite (chain_count mf L0 (b_offset b0) (walk_fuel mf) 0 Hc Hfuel) by lia.
    cbn [mbind option_bind].
    destruct (Z.ltb_spec (0 + Z.of_nat (length L0)) 2) as [Hlt|_];
      [unfold L0 in Hlt; simpl length in Hlt; lia|].
    rewrite Z.add_0_l, Nat2Z.id.
    rewrite (chain_collect mf L0 (b_offset b0) Hc). cbn [mbind option_bind].
    destruct (sort_loop_spec (b1 :: M) [b0]) as (S0 & Hsort & _ & _ & Hid).
    { repeat constructor. }
    { unfold L0 in Hbound. simpl length in *. lia. }
    change (sort_loop (length L0 - 1) 1 L0)
      with (sort_loop (length (b1 :: M)) (length [b0]) ([b0] ++ b1 :: M)).
    rewrite Hsort. cbn [mbind option_bind].
    rewrite (Hid (separated_sorted al L0 Hsep Hok)).
    change ([b0] ++ b1 :: M) with L0.
    destruct (merge_loop_all b0 (b1 :: M)) as (arr' & Hmerge & Htake).
    assert (Hal64 : al < 2 ^ 64) by lia.
    rewrite (merge_from_separated al (b1 :: M) Hal64 b0 Hsep Hok) in Hmerge, Htake.
    fold L0 in Hmerge, Htake.
    change (length L0) with (S (length (b1 :: M))) at 1.
    rewrite Hmerge. cbn [mbind option_bind].
    assert (Harr0 : arr' !! 0%nat = Some b0).
    { assert (Ht0 : take (length L0) arr' !! 0%nat = Some b0) by (rewrite Htake; reflexivity).
      rewrite lookup_take in Ht0.
      destruct (decide (0 < length L0)%nat); [exact Ht0|discriminate]. }
    rewrite Harr0. cbn [mbind option_bind].
    rewrite (wr64_id _ _ _ Hh). cbn [mbind option_bind].
    assert (Hreb : rebuild_loop (length L0) 0 (length L0) arr' mf = write_nodes L0 mf).
    { rewrite <- (take_drop (length L0) arr') at 1. rewrite Htake.
      apply (rebuild_loop_nodes L0 [] (drop (length L0) arr') mf); reflexivity. }
    rewrite Hreb. eapply write_nodes_id, Hc.
Qed.

(** ** The example run *)

Lemma three_freed_wf : well_formed (run three_freed) three_freed_list.
Proof.
  constructor.
  - vm_compute. reflexivity.
  - vm_compute. reflexivity.
  - exists 256. split; [vm_compute; reflexivity|].
    simpl. split; [reflexivity|]. split; [vm_compute; reflexivity|].
    split; [vm_compute; reflexivity|]. exists 32. split; [vm_compute; reflexivity|].
    split; [reflexivity|]. split; [vm_compute; reflexivity|].
    split; [vm_compute; reflexivity|]. exists 144. split; [vm_compute; reflexivity|].
    split; [reflexivity|]. split; [vm_compute; reflexivity|].
    split; [vm_compute; reflexivity|]. exists 0. split; [vm_compute; reflexivity|].
    reflexivity.
  - exists 368. split; [vm_compute; reflexivity|]. split; [vm_compute; discriminate|].
    repeat constructor; simpl; unfold blk_end, sizeof_header, sizeof_free; simpl; lia.
  - apply (bool_decide_unpack _). vm_compute. reflexivity.
  - intros a b Ha Hb Hne. unfold three_freed_list in Ha, Hb.
    rewrite !elem_of_cons, elem_of_nil in Ha, Hb.
    destruct Ha as [->|[->|[->|[]]]]; destruct Hb as [->|[->|[->|[]]]];
      try congruence; unfold disjoint_blk, blk_end; simpl; lia.
Qed.

(** ** Coalescing: the claims *)

(** C4.  After [memfile_coalesce] returns on a well-formed free list
    (of fewer than 2^31 blocks, the range of the sort's [int] index),
    the list [M] it leaves is linked from [free_list_head]; its offsets
    are strictly ascending and each block ends strictly before the next
    one starts ([separated]); the [next] of its last node is 0;
    [free_list_head] is the offset of its first block, which is the
    lowest of all; and every block of [M] starts where a block of the
    list before started. *)
Theorem coalesce_sorted_separated mf L :
  well_formed mf L -> Z.of_nat (length L) < 2 ^ 31 ->
  exists mf' M,
    memfile_coalesce mf = Some mf' /\
    free_list_is mf' M /\
    separated M /\
    (forall b, last M = Some b -> rd64 mf' (b_offset b + f_next) = Some 0) /\
    rd64 mf' f_free_list_head = Some (head_offset M) /\
    Forall (fun b => head_offset M <= b_offset b) M /\
    Forall (fun c => exists b, b ∈ L /\ b_offset c = b_offset b) M /\
    (L <> [] -> M <> []).
Proof.
  intros Hwf Hbound.
  destruct (coalesce_spec mf L Hwf Hbound)
    as (mf' & M & Hco & Hwf' & Hsep & Hsub & Hne & _).
  pose proof Hwf' as [_ _ (h & Hh & Hc) (al & _ & _ & Hok) _ _].
  exists mf', M. split; [exact Hco|]. split; [exists h; auto|].
  split; [exact Hsep|]. split; [|split; [|split; [|split]]]; auto.
  - intros b Hl. eapply chain_last; eauto.
  - rewrite Hh. f_equal. eapply chain_head, Hc.
  - destruct M as [|a M]; [constructor|]. simpl.
    constructor; [lia|].
    pose proof (separated_sorted al _ Hsep Hok) as [Hall _]%StronglySorted_cons.
    exact Hall.
Qed.

Lemma coalesce_sorted_separated_witness :
  well_formed (run three_freed) three_freed_list /\
  Z.of_nat (length three_freed_list) < 2 ^ 31 /\
  exists mf' M,
    memfile_coalesce (run three_freed) = Some mf' /\
    free_list_is mf' M /\
    separated M /\
    (forall b, last M = Some b -> rd64 mf' (b_offset b + f_next) = Some 0) /\
    rd64 mf' f_free_list_head = Some (head_offset M) /\
    Forall (fun b => head_offset M <= b_offset b) M /\
    Forall (fun c => exists b, b ∈ three_freed_list /\ b_offset c = b_offset b) M /\
    (three_freed_list <> [] -> M <> []).
Proof.
  split; [exact three_freed_wf|]. split; [vm_compute; reflexivity|].
  apply (coalesce_sorted_separated (run three_freed) three_freed_list).
  - exact three_freed_wf.
  - vm_compute. reflexivity.
Defined.

(** C8.  [memfile_coalesce] is idempotent on a well-formed free list
    (of fewer than 2^31 blocks): it returns, and running it again on
    the state it leaves returns that very state, so that the head, the
    node offsets, the sizes and the links (and every other byte) are
    the same after two runs as after one. *)
Theorem coalesce_idempotent mf L :
  well_formed mf L -> Z.of_nat (length L) < 2 ^ 31 ->
  exists mf1,
    memfile_coalesce mf = Some mf1 /\
    (mf1 ← memfile_coalesce mf; memfile_coalesce mf1) = Some mf1.
Proof.
  intros Hwf Hbound.
  destruct (coalesce_spec mf L Hwf Hbound)
    as (mf1 & M & Hco & Hwf' & Hsep & _ & _ & Hlen & _).
  exists mf1. split; [exact Hco|]. rewrite Hco. simpl.
  apply (coalesce_fixed mf1 M Hwf' Hsep). lia.
Qed.

Lemma coalesce_idempotent_witness :
  well_formed (run three_freed) three_freed_list /\
  Z.of_nat (length three_freed_list) < 2 ^ 31 /\
  exists mf1,
    memfile_coalesce (run three_freed) = Some mf1 /\
    (mf1 ← memfile_coalesce (run three_freed); memfile_coalesce mf1) = Some mf1.
Proof.
  split; [exact three_freed_wf|]. split; [vm_compute; reflexivity|].
  apply (coalesce_idempotent (run three_freed) three_freed_list).
  - exact three_freed_wf.
  - vm_compute. reflexivity.
Defined.

(** ** Freeing *)

Lemma wr64_lookup_other mf q v mf' (i : nat) :
  wr64 mf q v = Some mf' -> Z.of_nat i < q \/ q + 8 <= Z.of_nat i ->
  mmap_base mf' !! i = mmap_base mf !! i.
Proof.
  intros (m & H & ->)%wr64_inv Hd. simpl.
  eapply MemFacts.store64_lookup_other; eauto.
Qed.

Lemma load32_wr64_other mf q v mf' a :
  wr64 mf q v = Some mf' -> a + 4 <= q \/ q + 8 <= a ->
  Mem.load32 (mmap_base mf') a = Mem.load32 (mmap_base mf) a.
Proof.
  intros (m & H & ->)%wr64_inv Hd. simpl. unfold Mem.load32, Mem.store64 in *.
  rewrite (MemFacts.load_store_other _ _ _ _ a 4 H); [reflexivity|].
  rewrite length_le_split. lia.
Qed.

(** What [memfile_free] does at a valid offset: the size word of the
    block stays, the old head goes into the 8 bytes after it, and the
    head of the list becomes the block. *)
Lemma free_spec mf p s h :
  mmap_size mf = Z.of_nat (length (mmap_base mf)) ->
  valid_offset mf p ->
  rd64 mf (p - sizeof_alloc) = Some s ->
  rd64 mf f_free_list_head = Some h ->
  exists mf1 mf',
    wr64 mf (p - sizeof_alloc + f_next) h = Some mf1 /\
    wr64 mf1 f_free_list_head (p - sizeof_alloc) = Some mf' /\
    memfile_free mf p = Some mf'.
Proof.
  unfold valid_offset, sizeof_header, sizeof_alloc, sizeof_free.
  intros Hmap (Hv1 & Hv2 & Hv3) Hs Hh.
  pose proof (rd64_range _ _ _ Hh) as Hhr.
  destruct (wr64_defined mf (p - 8 + f_next) h) as [mf1 H1];
    [unfold f_next; lia..|].
  destruct (wr64_defined mf1 f_free_list_head (p - 8)) as [mf' H2];
    [unfold f_free_list_head; rewrite ?(wr64_length _ _ _ _ H1); lia..|].
  exists mf1, mf'. split; [exact H1|]. split; [exact H2|].
  unfold memfile_free, sizeof_alloc.
  destruct (Z.eqb_spec p 0) as [?|_]; [lia|].
  rewrite (wrap64_small (p - 8)) by lia.
  rewrite (memfile_ptr_ok mf (p - 8)) by lia. simpl.
  rewrite Hs. simpl. unfold f_size. rewrite Z.add_0_r.
  rewrite (wr64_id _ _ _ Hs). simpl. rewrite Hh. simpl.
  rewrite H1. simpl. exact H2.
Qed.

(** The state after [memfile_free] at a valid offset. *)
Lemma free_post mf p s h :
  mmap_size mf = Z.of_nat (length (mmap_base mf)) ->
  valid_offset mf p ->
  rd64 mf (p - sizeof_alloc) = Some s ->
  rd64 mf f_free_list_head = Some h ->
  exists mf',
    memfile_free mf p = Some mf' /\
    rd64 mf' (p - sizeof_alloc + f_size) = Some s /\
    rd64 mf' (p - sizeof_alloc + f_next) = Some h /\
    rd64 mf' f_free_list_head = Some (p - sizeof_alloc) /\
    Mem.load32 (mmap_base mf') f_magic = Mem.load32 (mmap_base mf) f_magic /\
    Mem.load32 (mmap_base mf') f_version = Mem.load32 (mmap_base mf) f_version /\
    rd64 mf' f_file_size = rd64 mf f_file_size /\
    rd64 mf' f_allocated = rd64 mf f_allocated /\
    mmap_size mf' = mmap_size mf /\
    file_len mf' = file_len mf /\
    length (mmap_base mf') = length (mmap_base mf) /\
    forall i : nat,
      ~ (p - sizeof_alloc <= Z.of_nat i < p - sizeof_alloc + sizeof_free) ->
      ~ (f_free_list_head <= Z.of_nat i < f_free_list_head + 8) ->
      mmap_base mf' !! i = mmap_base mf !! i.
Proof.
  intros Hmap Hv Hs Hh.
  destruct (free_spec mf p s h Hmap Hv Hs Hh) as (mf1 & mf' & H1 & H2 & Hfree).
  pose proof (rd64_range _ _ _ Hh) as Hhr.
  destruct Hv as (Hv1 & Hv2 & Hv3).
  unfold sizeof_header, sizeof_alloc, sizeof_free, f_size, f_next, f_free_list_head,
    f_magic, f_version, f_file_size, f_allocated in *.
  exists mf'. split; [exact Hfree|].
  split; [|split; [|split; [|split; [|split; [|split; [|split; [|split; [|split; [|split]]]]]]]]].
  - rewrite (rd64_wr64_other _ _ _ _ _ H2) by lia.
    rewrite (rd64_wr64_other _ _ _ _ _ H1) by lia.
    rewrite Z.add_0_r. exact Hs.
  - rewrite (rd64_wr64_other _ _ _ _ _ H2) by lia.
    rewrite (rd64_wr64_same _ _ _ _ H1). f_equal. apply wrap64_small. exact Hhr.
  - rewrite (rd64_wr64_same _ _ _ _ H2). f_equal. apply wrap64_small. lia.
  - rewrite (load32_wr64_other _ _ _ _ _ H2) by lia.
    apply (load32_wr64_other _ _ _ _ _ H1). lia.
  - rewrite (load32_wr64_other _ _ _ _ _ H2) by lia.
    apply (load32_wr64_other _ _ _ _ _ H1). lia.
  - rewrite (rd64_wr64_other _ _ _ _ _ H2) by lia.
    apply (rd64_wr64_other _ _ _ _ _ H1). lia.
  - rewrite (rd64_wr64_other _ _ _ _ _ H2) by lia.
    apply (rd64_wr64_other _ _ _ _ _ H1). lia.
  - rewrite (wr64_mmap_size _ _ _ _ H2). apply (wr64_mmap_size _ _ _ _ H1).
  - rewrite (wr64_file_len _ _ _ _ H2). apply (wr64_file_len _ _ _ _ H1).
  - rewrite (wr64_length _ _ _ _ H2). apply (wr64_length _ _ _ _ H1).
  - intros i Hn Hhd.
    rewrite (wr64_lookup_other _ _ _ _ i H2) by lia.
    apply (wr64_lookup_other _ _ _ _ i H1). lia.
Qed.

(** X19.  Where the 16 bytes of the free node at [p - 8] lie past the
    file header and inside the mapping, [memfile_free] returns and
    writes nothing but that node and [free_list_head]: the node has the
    size the allocation header stored and the old head as its [next],
    [free_list_head] is [p - 8]; [magic], [version], [file_size],
    [allocated], the size of the mapping and of the file, and every
    mapped byte outside the 16 bytes of the node and the 8 bytes of
    [free_list_head] are as before.  [memfile_free] at 0 returns the
    state unchanged. *)
Theorem free_frame mf p s h :
  mmap_size mf = Z.of_nat (length (mmap_base mf)) ->
  valid_offset mf p ->
  rd64 mf (p - sizeof_alloc) = Some s ->
  rd64 mf f_free_list_head = Some h ->
  (exists mf',
    memfile_free mf p = Some mf' /\
    rd64 mf' (p - sizeof_alloc + f_size) = Some s /\
    rd64 mf' (p - sizeof_alloc + f_next) = Some h /\
    rd64 mf' f_free_list_head = Some (p - sizeof_alloc) /\
    Mem.load32 (mmap_base mf') f_magic = Mem.load32 (mmap_base mf) f_magic /\
    Mem.load32 (mmap_base mf') f_version = Mem.load32 (mmap_base mf) f_version /\
    rd64 mf' f_file_size = rd64 mf f_file_size /\
    rd64 mf' f_allocated = rd64 mf f_allocated /\
    mmap_size mf' = mmap_size mf /\
    file_len mf' = file_len mf /\
    length (mmap_base mf') = length (mmap_base mf) /\
    forall i : nat,
      ~ (p - sizeof_alloc <= Z.of_nat i < p - sizeof_alloc + sizeof_free) ->
      ~ (f_free_list_head <= Z.of_nat i < f_free_list_head + 8) ->
      mmap_base mf' !! i = mmap_base mf !! i) /\
  memfile_free mf 0 = Some mf.
Proof.
  intros Hmap Hv Hs Hh. split; [|reflexivity].
  exact (free_post mf p s h Hmap Hv Hs Hh).
Qed.

Lemma free_frame_witness :
  mmap_size (run (snd <$> one_alloc))
    = Z.of_nat (length (mmap_base (run (snd <$> one_alloc)))) /\
  valid_offset (run (snd <$> one_alloc)) 40 /\
  rd64 (run (snd <$> one_alloc)) (40 - sizeof_alloc) = Some 112 /\
  rd64 (run (snd <$> one_alloc)) f_free_list_head = Some 0 /\
  exists mf', memfile_free (run (snd <$> one_alloc)) 40 = Some mf'.
Proof.
  assert (Hmap : mmap_size (run (snd <$> one_alloc))
                 = Z.of_nat (length (mmap_base (run (snd <$> one_alloc)))))
    by (vm_compute; reflexivity).
  assert (Hv : valid_offset (run (snd <$> one_alloc)) 40)
    by (repeat split; vm_compute; congruence).
  assert (Hs : rd64 (run (snd <$> one_alloc)) (40 - sizeof_alloc) = Some 112)
    by (vm_compute; reflexivity).
  assert (Hh : rd64 (run (snd <$> one_alloc)) f_free_list_head = Some 0)
    by (vm_compute; reflexivity).
  repeat (split; [assumption|]).
  destruct (free_frame _ 40 112 0 Hmap Hv Hs Hh) as [(mf' & Hfree & _) _].
  exists mf'. exact Hfree.
Defined.

(** ** Sizes of blocks *)

Lemma align8_spec t :
  align8 t = 8 * (wrap64 (t + 7) / 8).
Proof.
  unfold align8. pose proof (wrap64_range (t + 7)) as Hr.
  set (y := wrap64 (t + 7)) in *.
  change (2 ^ 64 - 8) with (Z.land (Z.ones 64) (Z.lnot (Z.ones 3))).
  rewrite Z.land_assoc, Z.land_ones by lia.
  rewrite (Z.mod_small y) by exact Hr.
  rewrite <- Z.ldiff_land, Z.ldiff_ones_r by lia.
  rewrite Z.shiftr_div_pow2, Z.shiftl_mul_pow2 by lia.
  change (2 ^ 3) with 8. lia.
Qed.

(** Every total size is a multiple of 8 below 2^64. *)
Lemma alloc_total_aligned size :
  alloc_total size mod 8 = 0 /\ 0 <= alloc_total size < 2 ^ 64.
Proof.
  unfold alloc_total. rewrite align8_spec.
  set (y := wrap64 (wrap64 (size + sizeof_alloc) + 7)).
  pose proof (wrap64_range (wrap64 (size + sizeof_alloc) + 7)) as Hr. fold y in Hr.
  split.
  - rewrite Z.mul_comm. apply Z_mod_mult.
  - pose proof (Z.mul_div_le y 8). pose proof (Z.div_pos y 8). lia.
Qed.

(** Without wrap-around the total size is the request plus the header,
    rounded up to the next multiple of 8. *)
Lemma alloc_total_nowrap size :
  0 <= size -> size + sizeof_alloc + 7 < 2 ^ 64 ->
  alloc_total size = 8 * ((size + sizeof_alloc + 7) / 8).
Proof.
  intros H0 H1. unfold alloc_total, sizeof_alloc in *. rewrite align8_spec.
  rewrite (wrap64_small (size + 8)) by lia.
  rewrite (wrap64_small (size + 8 + 7)) by lia. reflexivity.
Qed.

(** A request of one byte or more gets a block of 16 bytes or more. *)
Lemma alloc_total_min size :
  1 <= size -> size + sizeof_alloc + 7 < 2 ^ 64 -> 16 <= alloc_total size.
Proof.
  intros H0 H1. rewrite alloc_total_nowrap by lia. unfold sizeof_alloc in *.
  assert (2 <= (size + 8 + 7) / 8) by (apply Z.div_le_lower_bound; lia). lia.
Qed.

(** The request [s - 8] for a block size [s] gives [s] back. *)
Lemma alloc_total_reuse s :
  0 <= s < 2 ^ 64 -> s mod 8 = 0 -> alloc_total (wrap64 (s - sizeof_alloc)) = s.
Proof.
  intros Hr Hm. unfold alloc_total, wrap64, sizeof_alloc.
  rewrite Zplus_mod_idemp_l. replace (s - 8 + 8) with s by lia.
  fold (wrap64 s). rewrite (wrap64_small s) by exact Hr.
  rewrite align8_spec.
  assert (Hs : s = 8 * (s / 8)) by (apply Z_div_exact_full_2; lia).
  assert (Hle : s + 7 < 2 ^ 64).
  { assert (s / 8 < 2 ^ 61) by (apply Z.div_lt_upper_bound; lia).
    change (2 ^ 64) with (8 * 2 ^ 61). lia. }
  rewrite (wrap64_small (s + 7)) by lia.
  assert ((s + 7) / 8 = s / 8); [|lia].
  rewrite Hs at 1. rewrite Z.mul_comm, Z.div_add_l by lia.
  change (7 / 8) with 0. lia.
Qed.

(** ** Reuse of a freed block *)


(** C1.  [memfile_alloc] does not enforce a total of 16 bytes: a
    request of 0 bytes gets the total size 8, and that size is stored
    in the allocation header.  In a fresh arena the zero-byte block is
    at 32 with the size word 8, the block of the next request is at 40
    with the size word 16; freeing the first one writes the 16 bytes of
    its free node over the size word of the second, which reads 0
    afterwards. *)
Theorem alloc_zero_stores_size_8 :
  alloc_total 0 = 8 /\
  (r ← zero_then_eight;
   let '(a, b, mf) := r in
   Some (a, b, rd64 mf 32, rd64 mf 40, mf' ← memfile_free mf a; rd64 mf' 40))
  = Some (40, 48, Some 8, Some 16, Some 0).
Proof. split; vm_compute; reflexivity. Qed.

(** The zero-byte block that ends a mapping of 4096 bytes: the offset
    returned is 4096, the header at 4088 stores 8, and [memfile_free]
    has no defined result there: the [next] of the free node would be
    written at 4096, past the mapping. *)
Lemma free_undefined_at_mapping_end :
  (r ← zero_at_end;
   let '(p, mf) := r in
   Some (p, mmap_size mf, rd64 mf (p - sizeof_alloc), memfile_free mf p))
  = Some (4096, 4096, Some 8, None).
Proof. vm_compute. reflexivity. Qed.

(** ** Growth *)

(** C2 as stated fails: with 32 bytes allocated in a mapping of 4096
    bytes and 4104 bytes needed, the file grows to 8192 bytes, not to
    max (4096 * 2, 32 + 4104 + 4096) = 8232. *)
Lemma ensure_space_not_max :
  rd64 (run fresh_4096) f_allocated = Some 32 /\
  rd64 (run fresh_4096) f_file_size = Some 4096 /\
  mmap_size (run fresh_4096) = 4096 /\
  (r ← memfile_ensure_space all_ok (run fresh_4096) 4104;
   Some (r.1, mmap_size r.2, file_len r.2, rd64 r.2 f_file_size))
  = Some (0, 8192, 8192, Some 8192) /\
  8192 <> Z.max (4096 * 2) (32 + 4104 + 4096).
Proof. repeat split; vm_compute; congruence. Qed.

Lemma remap_spec os mf new_size :
  sys_ftruncate os new_size = true -> mremap_ok os = true ->
  16 <= new_size < 2 ^ 64 ->
  exists mf',
    memfile_remap os mf new_size = Some (0, mf') /\
    mmap_size mf' = new_size /\ file_len mf' = new_size /\
    Z.of_nat (length (mmap_base mf')) = new_size /\
    rd64 mf' f_file_size = Some new_size.
Proof.
  intros Hft Hmr Hsz. unfold memfile_remap. rewrite Hft, Hmr. simpl.
  set (mf2 := {| mmap_base := _ |}).
  destruct (wr64_defined mf2 f_file_size new_size) as [mf3 H3].
  { unfold f_file_size. lia. }
  { unfold mf2, f_file_size. simpl. rewrite length_resize. lia. }
  rewrite H3. simpl. exists mf3. split; [reflexivity|].
  split; [apply (wr64_mmap_size _ _ _ _ H3)|].
  split; [apply (wr64_file_len _ _ _ _ H3)|].
  split.
  - rewrite (wr64_length _ _ _ _ H3). unfold mf2. simpl. rewrite length_resize. lia.
  - rewrite (rd64_wr64_same _ _ _ _ H3). f_equal. apply wrap64_small. lia.
Qed.

(** C2, amended.  When [allocated + needed <= file_size] nothing
    changes.  Otherwise the new size is [mmap_size * 2], unless that is
    below [allocated + needed], in which case it is
    [allocated + needed + 4096] (all in 64-bit arithmetic); when
    [ftruncate] and [mremap] succeed the file is truncated to the new
    size, the mapping has the new size, [mmap_size] is the new size and
    [file_size] in the header reads the new size. *)
Theorem ensure_space_grows os mf needed allocated file_size :
  rd64 mf f_allocated = Some allocated ->
  rd64 mf f_file_size = Some file_size ->
  (wrap64 (allocated + needed) <= file_size ->
   memfile_ensure_space os mf needed = Some (0, mf)) /\
  (file_size < wrap64 (allocated + needed) ->
   forall new_size,
   new_size = (if wrap64 (mmap_size mf * 2) <? wrap64 (allocated + needed)
               then wrap64 (allocated + needed + 4096)
               else wrap64 (mmap_size mf * 2)) ->
   sys_ftruncate os new_size = true -> mremap_ok os = true ->
   16 <= new_size ->
   exists mf',
     memfile_ensure_space os mf needed = Some (0, mf') /\
     file_len mf' = new_size /\
     Z.of_nat (length (mmap_base mf')) = new_size /\
     mmap_size mf' = new_size /\
     rd64 mf' f_file_size = Some new_size).
Proof.
  intros Hal Hfs. unfold memfile_ensure_space. rewrite Hal, Hfs. simpl. split.
  - intros Hle. destruct (Z.leb_spec (wrap64 (allocated + needed)) file_size); [reflexivity|lia].
  - intros Hgt new_size -> Hft Hmr Hsz.
    destruct (Z.leb_spec (wrap64 (allocated + needed)) file_size); [lia|].
    set (new_size := if _ <? _ then _ else _) in *.
    assert (Hr : new_size < 2 ^ 64).
    { unfold new_size. destruct (_ <? _); apply wrap64_range. }
    destruct (remap_spec os mf new_size Hft Hmr) as (mf' & Hre & Hm & Hf & Hl & Hh); [lia|].
    exists mf'. auto.
Qed.

Lemma ensure_space_grows_witness :
  rd64 (run fresh_4096) f_allocated = Some 32 /\
  rd64 (run fresh_4096) f_file_size = Some 4096 /\
  exists mf',
    memfile_ensure_space all_ok (run fresh_4096) 4104 = Some (0, mf') /\
    file_len mf' = 8192 /\
    Z.of_nat (length (mmap_base mf')) = 8192 /\
    mmap_size mf' = 8192 /\
    rd64 mf' f_file_size = Some 8192.
Proof.
  assert (Hal : rd64 (run fresh_4096) f_allocated = Some 32) by (vm_compute; reflexivity).
  assert (Hfs : rd64 (run fresh_4096) f_file_size = Some 4096) by (vm_compute; reflexivity).
  split; [exact Hal|]. split; [exact Hfs|].
  destruct (ensure_space_grows all_ok (run fresh_4096) 4104 32 4096 Hal Hfs) as [_ Hgrow].
  apply (Hgrow ltac:(vm_compute; reflexivity) 8192);
    vm_compute; congruence.
Defined.

(** ** Pointer conversion, read and write *)

Lemma memfile_ptr_None mf offset :
  memfile_ptr mf offset = None <-> offset = 0 \/ mmap_size mf <= offset.
Proof.
  unfold memfile_ptr.
  destruct (Z.eqb_spec offset 0); destruct (Z.leb_spec (mmap_size mf) offset);
    simpl; split; intros; try discriminate; try reflexivity; lia.
Qed.

(** C10.  [memfile_ptr] returns [NULL] exactly when the offset is 0 or
    at least [mmap_size], and the base plus the offset otherwise; so
    [memfile_read] and [memfile_write] at an offset of [mmap_size] or
    more return -1 whatever the length, 0 included. *)
Theorem ptr_null_and_bounds mf offset :
  (memfile_ptr mf offset = None <-> offset = 0 \/ mmap_size mf <= offset) /\
  (~ (offset = 0 \/ mmap_size mf <= offset) -> memfile_ptr mf offset = Some offset) /\
  (mmap_size mf <= offset ->
   forall len buf,
     memfile_read mf offset len = Some (-1, []) /\
     memfile_write mf offset buf len = Some (-1, mf)).
Proof.
  split; [apply memfile_ptr_None|]. split.
  - intros Hn. apply memfile_ptr_ok; lia.
  - intros Hge len buf.
    assert (Hp : memfile_ptr mf offset = None) by (apply memfile_ptr_None; auto).
    unfold memfile_read, memfile_write. rewrite Hp.
    destruct (_ <? _); auto.
Qed.

Lemma ptr_null_and_bounds_witness :
  mmap_size (run fresh_4096) <= 4096 /\
  memfile_ptr (run fresh_4096) 4096 = None /\
  memfile_ptr (run fresh_4096) 40 = Some 40 /\
  memfile_read (run fresh_4096) 4096 0 = Some (-1, []) /\
  memfile_write (run fresh_4096) 4096 [] 0 = Some (-1, run fresh_4096).
Proof.
  assert (Hge : mmap_size (run fresh_4096) <= 4096) by (vm_compute; congruence).
  destruct (ptr_null_and_bounds (run fresh_4096) 4096) as (Hnull & _ & Hrw).
  destruct (ptr_null_and_bounds (run fresh_4096) 40) as (_ & Hptr & _).
  split; [exact Hge|]. split; [apply Hnull; right; exact Hge|].
  split; [apply Hptr; vm_compute; intros [H|H]; [discriminate H|apply H; reflexivity]|].
  exact (Hrw Hge 0 []).
Defined.

Lemma load_bytes_None m a n :
  Z.of_nat (length m) < a + Z.of_nat n -> Mem.load_bytes m a n = None.
Proof.
  intros H. destruct (Mem.load_bytes m a n) as [bs|] eqn:E; [|reflexivity].
  apply MemFacts.load_bytes_Some in E. lia.
Qed.

(** C3 as stated fails twice on a mapping of 4096 bytes.  At offset
    4096 with length 0 the range ends inside the mapping and the offset
    is not 0, yet both calls return -1.  At offset 8 with length
    2^64 - 8 the sum wraps to 0, the check passes, and [memfile_read]
    goes on to copy 2^64 - 8 bytes instead of returning -1. *)
Lemma read_write_bounds_counterexample :
  ~ (memfile_read (run fresh_4096) 4096 0 = Some (-1, []) <->
     mmap_size (run fresh_4096) < 4096 + 0 \/ 4096 = 0) /\
  ~ (memfile_write (run fresh_4096) 4096 [] 0 = Some (-1, run fresh_4096) <->
     mmap_size (run fresh_4096) < 4096 + 0 \/ 4096 = 0) /\
  ~ (memfile_read (run fresh_4096) 8 (2 ^ 64 - 8) = Some (-1, []) <->
     mmap_size (run fresh_4096) < 8 + (2 ^ 64 - 8) \/ 8 = 0).
Proof.
  assert (Hm : mmap_size (run fresh_4096) = 4096) by (vm_compute; reflexivity).
  assert (Hl : length (mmap_base (run fresh_4096)) = 4096%nat) by (vm_compute; reflexivity).
  split; [|split].
  - intros [H _]. rewrite Hm in H.
    destruct H as [H|H]; [|lia|discriminate H]. vm_compute. reflexivity.
  - intros [H _]. rewrite Hm in H.
    destruct H as [H|H]; [|lia|discriminate H]. vm_compute. reflexivity.
  - intros [_ H]. rewrite Hm in H.
    assert (Hr : memfile_read (run fresh_4096) 8 (2 ^ 64 - 8) = None).
    { unfold memfile_read, memfile_ptr. rewrite Hm.
      change (wrap64 (8 + (2 ^ 64 - 8))) with 0. simpl.
      rewrite load_bytes_None; [reflexivity|]. rewrite Hl. lia. }
    rewrite Hr in H. discriminate H. left. lia.
Qed.

(** C3, amended.  When [offset + len] does not wrap, [memfile_read] and
    [memfile_write] return -1 exactly when [offset + len > mmap_size],
    [offset = 0] or [offset >= mmap_size]; in every other case they
    return 0, the read with the [len] bytes at [offset] and the write
    with those bytes replaced, whether or not the range lies in a live
    allocation. *)
Theorem read_write_bounds mf offset len buf :
  mmap_size mf = Z.of_nat (length (mmap_base mf)) ->
  0 <= offset -> 0 <= len -> offset + len < 2 ^ 64 ->
  Z.of_nat (length buf) = len ->
  (mmap_size mf < offset + len \/ offset = 0 \/ mmap_size mf <= offset ->
   memfile_read mf offset len = Some (-1, []) /\
   memfile_write mf offset buf len = Some (-1, mf)) /\
  (~ (mmap_size mf < offset + len \/ offset = 0 \/ mmap_size mf <= offset) ->
   memfile_read mf offset len
     = Some (0, take (Z.to_nat len) (drop (Z.to_nat offset) (mmap_base mf))) /\
   exists mf',
     memfile_write mf offset buf len = Some (0, mf') /\
     memfile_read mf' offset len = Some (0, buf)).
Proof.
  intros Hmap Ho Hl Hnw Hbuf.
  assert (Hw : wrap64 (offset + len) = offset + len) by (apply wrap64_small; lia).
  unfold memfile_read, memfile_write. rewrite Hw. split.
  - intros Hoob. destruct (Z.ltb_spec (mmap_size mf) (offset + len)); [auto|].
    assert (Hp : memfile_ptr mf offset = None) by (apply memfile_ptr_None; lia).
    rewrite Hp. auto.
  - intros Hin. destruct (Z.ltb_spec (mmap_size mf) (offset + len)); [lia|].
    rewrite (memfile_ptr_ok mf offset) by lia.
    assert (Hld : Mem.load_bytes (mmap_base mf) offset (Z.to_nat len)
                  = Some (take (Z.to_nat len) (drop (Z.to_nat offset) (mmap_base mf)))).
    { apply MemFacts.load_bytes_Some. split; [lia|reflexivity]. }
    rewrite Hld. simpl. split; [reflexivity|].
    destruct (Z.ltb_spec (Z.of_nat (length buf)) len); [lia|].
    assert (Htk : take (Z.to_nat len) buf = buf) by (apply take_ge; lia).
    rewrite Htk.
    destruct (MemFacts.store_bytes_defined (mmap_base mf) offset buf) as [m Hst]; [lia..|].
    rewrite Hst. simpl. exists (set_base mf m). split; [reflexivity|].
    unfold set_base. simpl.
    destruct (Z.ltb_spec (mmap_size mf) (offset + len)); [lia|].
    assert (Hp' : memfile_ptr {| mmap_base := m; mmap_size := mmap_size mf;
                                 file_len := file_len mf |} offset = Some offset)
      by (apply memfile_ptr_ok; simpl; lia).
    rewrite Hp'. apply MemFacts.load_store_same in Hst.
    replace (Z.to_nat len) with (length buf) by lia. rewrite Hst. reflexivity.
Qed.

Lemma read_write_bounds_witness :
  (memfile_read (run fresh_4096) 4000 100 = Some (-1, []) /\
   memfile_write (run fresh_4096) 4000 (replicate 100 Byte.x2a) 100
     = Some (-1, run fresh_4096)) /\
  exists mf',
    memfile_write (run fresh_4096) 4000 (replicate 96 Byte.x2a) 96 = Some (0, mf') /\
    memfile_read mf' 4000 96 = Some (0, replicate 96 Byte.x2a).
Proof.
  assert (Hmap : mmap_size (run fresh_4096)
                 = Z.of_nat (length (mmap_base (run fresh_4096))))
    by (vm_compute; reflexivity).
  split.
  - apply (read_write_bounds (run fresh_4096) 4000 100 (replicate 100 Byte.x2a) Hmap);
      [lia|lia|lia|vm_compute; reflexivity|left; vm_compute; reflexivity].
  - apply (read_write_bounds (run fresh_4096) 4000 96 (replicate 96 Byte.x2a) Hmap);
      [lia|lia|lia|vm_compute; reflexivity|].
    vm_compute. intros [H|[H|H]]; try discriminate H. apply H. reflexivity.
Defined.

(** ** Open *)

(** The size a fresh file is given. *)
Lemma open_fresh_size initial_size :
  sizeof_header + 64 <=
    (if initial_size <? sizeof_header + 64 then 4096 else initial_size).
Proof.
  unfold sizeof_header. destruct (Z.ltb_spec initial_size (32 + 64)); lia.
Qed.

Lemma init_header_spec (c : list byte) size :
  sizeof_header <= Z.of_nat (length c) -> 0 <= size < 2 ^ 64 ->
  exists m,
    init_header c size = Some m /\ length m = length c /\
    Mem.load64 m f_file_size = Some size /\
    Mem.load64 m f_allocated = Some sizeof_header /\
    Mem.load64 m f_free_list_head = Some 0.
Proof.
  unfold init_header, f_magic, f_version, f_file_size, f_allocated,
    f_free_list_head, sizeof_header. intros Hlen Hsz.
  destruct (MemFacts.store_bytes_defined c 0 (le_split 4 MEMFILE_MAGIC)) as [m1 H1];
    [lia|rewrite length_le_split; lia|].
  pose proof (MemFacts.store_bytes_length _ _ _ _ H1) as L1.
  destruct (MemFacts.store_bytes_defined m1 4 (le_split 4 MEMFILE_VERSION)) as [m2 H2];
    [lia|rewrite length_le_split; lia|].
  pose proof (MemFacts.store_bytes_length _ _ _ _ H2) as L2.
  destruct (MemFacts.store64_defined m2 8 size) as [m3 H3]; [lia..|].
  pose proof (MemFacts.store64_length _ _ _ _ H3) as L3.
  destruct (MemFacts.store64_defined m3 16 32) as [m4 H4]; [lia..|].
  pose proof (MemFacts.store64_length _ _ _ _ H4) as L4.
  destruct (MemFacts.store64_defined m4 24 0) as [m5 H5]; [lia..|].
  pose proof (MemFacts.store64_length _ _ _ _ H5) as L5.
  exists m5. unfold Mem.store32. rewrite H1. simpl. rewrite H2. simpl.
  rewrite H3. simpl. rewrite H4. simpl. split; [exact H5|].
  split; [congruence|]. split; [|split].
  - rewrite (MemFacts.load64_store64_other _ _ _ _ 8 H5) by lia.
    rewrite (MemFacts.load64_store64_other _ _ _ _ 8 H4) by lia.
    rewrite (MemFacts.load64_store64_same _ _ _ _ H3). f_equal.
    apply wrap64_small. exact Hsz.
  - rewrite (MemFacts.load64_store64_other _ _ _ _ 16 H5) by lia.
    rewrite (MemFacts.load64_store64_same _ _ _ _ H4). reflexivity.
  - rewrite (MemFacts.load64_store64_same _ _ _ _ H5). reflexivity.
Qed.

(** A failing [ftruncate] on a file that [open] has just created leaves
    the empty file behind. *)
Lemma open_ftruncate_fails os (fs : files) path initial_size :
  fs !! path = None -> open_ok os = true ->
  sys_ftruncate os (if initial_size <? sizeof_header + 64 then 4096 else initial_size)
    = false ->
  memfile_open os fs path initial_size = (None, <[path := []]> fs).
Proof.
  intros Hno Hop Hft. unfold memfile_open. rewrite Hno, Hop. simpl.
  rewrite Hft. reflexivity.
Qed.

(** A failing [mmap] on a fresh file removes the file. *)
Lemma open_mmap_fails os (fs : files) path initial_size :
  fs !! path = None -> open_ok os = true ->
  sys_ftruncate os (if initial_size <? sizeof_header + 64 then 4096 else initial_size)
    = true ->
  mmap_ok os = false ->
  exists fs', memfile_open os fs path initial_size = (None, fs') /\ fs' !! path = None.
Proof.
  intros Hno Hop Hft Hmm. unfold memfile_open. rewrite Hno, Hop. simpl.
  rewrite Hft, Hmm. simpl. eexists. split; [reflexivity|]. apply lookup_delete_eq.
Qed.

(** C6.  Opening a path that does not exist with a size of 2^63 bytes:
    [open] creates the file, [ftruncate] refuses the size, and
    [memfile_open] returns [NULL] with the empty file still there; so
    it is whenever [ftruncate] fails ([Sys true false true true]),
    while a failing [mmap] ([Sys true true false true]) removes the
    file. *)
Theorem open_failure_leaves_file :
  memfile_open all_ok ∅ "arena" (2 ^ 63) = (None, <["arena" := []]> ∅) /\
  (<["arena" := []]> (∅ : files)) !! "arena" = Some [] /\
  memfile_open (Sys true false true true) ∅ "arena" 4096
    = (None, <["arena" := []]> ∅) /\
  (memfile_open (Sys true true false true) ∅ "arena" 4096).2 !! "arena" = None.
Proof.
  split; [|split; [|split]].
  - apply open_ftruncate_fails; reflexivity.
  - apply lookup_insert_eq.
  - apply open_ftruncate_fails; reflexivity.
  - destruct (open_mmap_fails (Sys true true false true) ∅ "arena" 4096)
      as (fs' & -> & Hfs'); auto.
Qed.

(** C7 as stated fails: a fresh file opened with an initial size of 100
    bytes is truncated to 100 bytes, not to max (100, 4096), and its
    [file_size] is below 4096. *)
Lemma open_fresh_not_max :
  (let '(r, fs') := memfile_open all_ok ∅ "arena" 100 in
   (mf ← r; Some (mmap_size mf, file_len mf, rd64 mf f_file_size),
    length <$> fs' !! "arena"))
  = (Some (100, 100, Some 100), Some 100%nat) /\
  100 <> Z.max 100 4096 /\ 100 < 4096.
Proof. repeat split; vm_compute; congruence. Qed.

(** C7, amended.  When [memfile_open] creates a fresh file (absent or
    empty) and its system calls succeed, it truncates the file to
    [initial_size], or to 4096 when [initial_size] is below
    [sizeof (header) + 64] = 96; the mapping and [file_size] have that
    size, which is never smaller than 96. *)
Theorem open_fresh_file_size os (fs : files) path initial_size :
  fs !! path = None \/ fs !! path = Some [] ->
  open_ok os = true -> mmap_ok os = true ->
  0 <= initial_size ->
  sys_ftruncate os (if initial_size <? sizeof_header + 64 then 4096 else initial_size)
    = true ->
  exists mf fs',
    memfile_open os fs path initial_size = (Some mf, fs') /\
    file_len mf = (if initial_size <? sizeof_header + 64 then 4096 else initial_size) /\
    mmap_size mf = file_len mf /\
    Z.of_nat (length (mmap_base mf)) = file_len mf /\
    rd64 mf f_file_size = Some (file_len mf) /\
    rd64 mf f_allocated = Some sizeof_header /\
    rd64 mf f_free_list_head = Some 0 /\
    fs' !! path = Some (mmap_base mf) /\
    sizeof_header + 64 <= file_len mf.
Proof.
  intros Hst Hop Hmm H0 Hft.
  pose proof (open_fresh_size initial_size) as Hmin.
  set (size := if initial_size <? sizeof_header + 64 then 4096 else initial_size) in *.
  assert (Hsz : size < 2 ^ 63).
  { unfold sys_ftruncate in Hft. apply andb_true_iff in Hft as [_ H%Z.ltb_lt]. exact H. }
  assert (Hex : match fs !! path with
                | Some c => (0 <? length c)%nat
                | None => false
                end = false) by (destruct Hst as [-> | ->]; reflexivity).
  assert (Hdef : default [] (fs !! path) = []) by (destruct Hst as [-> | ->]; reflexivity).
  unfold memfile_open. rewrite Hex, Hop. simpl. fold size.
  rewrite Hft, Hmm, Hdef. simpl.
  destruct (init_header_spec (resize (Z.to_nat size) Byte.x00 []) size)
    as (m & Hinit & Hlen & Hfs & Hal & Hhd).
  { rewrite length_resize. unfold sizeof_header in *. lia. }
  { unfold sizeof_header in *. lia. }
  rewrite Hinit. rewrite length_resize in Hlen.
  eexists _, _. split; [reflexivity|]. simpl.
  repeat split; auto.
  - rewrite Hlen. unfold sizeof_header in Hmin. lia.
  - apply lookup_insert_eq.
Qed.

Lemma open_fresh_file_size_witness :
  exists mf fs',
    memfile_open all_ok ∅ "arena" 64 = (Some mf, fs') /\
    file_len mf = 4096 /\ rd64 mf f_file_size = Some 4096.
Proof.
  destruct (open_fresh_file_size all_ok ∅ "arena" 64)
    as (mf & fs' & Hopen & Hlen & _ & _ & Hfs & _);
    [left; reflexivity|reflexivity|reflexivity|lia|reflexivity|].
  exists mf, fs'. split; [exact Hopen|]. simpl in Hlen.
  split; [exact Hlen|]. rewrite Hfs, Hlen. reflexivity.
Defined.

(** * Further properties of the allocator *)

(** ** Block sizes *)

Lemma alloc_total_bounds size :
  0 <= size -> size + sizeof_alloc + 7 < 2 ^ 64 ->
  size + sizeof_alloc <= alloc_total size < size + sizeof_alloc + 8.
Proof.
  intros H0 H1.
  rewrite alloc_total_nowrap by assumption. unfold sizeof_alloc in *.
  pose proof (Z.div_mod (size + 8 + 7) 8 ltac:(lia)) as Hdm.
  pose proof (Z.mod_pos_bound (size + 8 + 7) 8 ltac:(lia)) as Hb.
  lia.
Qed.

(** X1.  Without wrap-around the total size of a request is the least
    multiple of 8 that holds the request and the allocation header: a
    multiple of 8, at least [size + 8] and less than [size + 16]. *)
Theorem alloc_total_round_up size :
  0 <= size -> size + sizeof_alloc + 7 < 2 ^ 64 ->
  alloc_total size mod 8 = 0 /\
  size + sizeof_alloc <= alloc_total size < size + sizeof_alloc + 8.
Proof.
  intros H0 H1. split; [apply alloc_total_aligned|].
  apply alloc_total_bounds; assumption.
Qed.

Lemma alloc_total_round_up_witness :
  alloc_total 100 mod 8 = 0 /\
  100 + sizeof_alloc <= alloc_total 100 < 100 + sizeof_alloc + 8.
Proof. apply alloc_total_round_up; vm_compute; congruence. Defined.

(** ** Sync and close *)

(** X2.  [memfile_close] sets [closed] before it calls [memfile_sync],
    so it never makes an [msync] call: on an open handle it unmaps the
    mapping, closes the descriptor and frees the path, in that order,
    and marks the handle closed without touching the mapped bytes. *)
Theorem close_makes_no_msync h :
  h_closed h = false ->
  memfile_close (Some h)
  = (Some {| h_file := h_file h; h_mapped := h_mapped h; h_closed := true |},
     [Munmap (mmap_size (h_file h)); CloseFd; FreePath]).
Proof. intros Hc. unfold memfile_close, memfile_sync. rewrite Hc. reflexivity. Qed.

Lemma close_makes_no_msync_witness :
  (memfile_close (Some fresh_handle)).2 = [Munmap 4096; CloseFd; FreePath].
Proof. rewrite (close_makes_no_msync fresh_handle); reflexivity. Defined.

(** X3.  Closing is idempotent and shuts [memfile_sync] off: after
    [memfile_close], on any handle ([NULL], open or closed), a second
    [memfile_close] leaves the handle as it is and makes no system
    call, and [memfile_sync] makes none either. *)
Theorem close_idempotent (mf : option handle) :
  memfile_close (memfile_close mf).1 = ((memfile_close mf).1, []) /\
  memfile_sync (memfile_close mf).1 = [].
Proof.
  destruct mf as [h|]; [|split; reflexivity].
  assert (Hcl : memfile_close (Some h)
                = (if h_closed h then (Some h, [])
                   else (Some {| h_file := h_file h; h_mapped := h_mapped h;
                                 h_closed := true |},
                         [Munmap (mmap_size (h_file h)); CloseFd; FreePath])))
    by (unfold memfile_close, memfile_sync; destruct (h_closed h); reflexivity).
  rewrite Hcl. destruct (h_closed h) eqn:Hc; simpl.
  - rewrite Hc. split; reflexivity.
  - split; reflexivity.
Qed.

(** ** Writes leave the rest of the mapping alone *)

(** X4.  A [memfile_write] that returns changes nothing but the bytes
    of its range: on -1 the state is the one before; on 0 the sizes of
    the mapping and of the file are as before, every byte outside
    [offset, offset + len) is unchanged, and a [memfile_read] of any
    range that does not meet the written one returns what it returned
    before. *)
Theorem write_frame mf offset buf len rc mf' :
  0 <= len ->
  memfile_write mf offset buf len = Some (rc, mf') ->
  (rc = -1 -> mf' = mf) /\
  mmap_size mf' = mmap_size mf /\ file_len mf' = file_len mf /\
  length (mmap_base mf') = length (mmap_base mf) /\
  (forall i : nat,
     ~ (offset <= Z.of_nat i < offset + len) ->
     mmap_base mf' !! i = mmap_base mf !! i) /\
  (forall o n,
     0 <= n -> o + n <= offset \/ offset + len <= o ->
     memfile_read mf' o n = memfile_read mf o n).
Proof.
  unfold memfile_write. intros Hlen0 H.
  destruct (mmap_size mf <? wrap64 (offset + len)).
  { injection H as <- <-. repeat split; auto. }
  destruct (memfile_ptr mf offset) as [dst|] eqn:Hp.
  2:{ injection H as <- <-. repeat split; auto. }
  apply memfile_ptr_Some in Hp as (-> & Hnz & Hlt).
  destruct (Z.ltb_spec (Z.of_nat (length buf)) len) as [|Hlen]; [discriminate|].
  destruct (Mem.store_bytes (mmap_base mf) offset (take (Z.to_nat len) buf))
    as [m|] eqn:Hst; [|discriminate].
  injection H as <- <-. simpl.
  pose proof (MemFacts.store_bytes_length _ _ _ _ Hst) as Hl.
  pose proof Hst as [[Ho _] _]%MemFacts.store_bytes_Some.
  assert (Htl : Z.of_nat (length (take (Z.to_nat len) buf)) = Z.max 0 len).
  { rewrite length_take. lia. }
  split; [discriminate|]. split; [reflexivity|]. split; [reflexivity|].
  split; [exact Hl|]. split.
  - intros i Hi. rewrite (MemFacts.store_bytes_lookup _ _ _ _ i Hst).
    destruct (decide _) as [Hin|_]; [lia|reflexivity].
  - intros o n Hn Hd. unfold memfile_read, memfile_ptr. simpl.
    destruct (_ <? _); [reflexivity|]. destruct (_ || _); [reflexivity|].
    rewrite (MemFacts.load_store_other _ _ _ _ o (Z.to_nat n) Hst); [reflexivity|].
    lia.
Qed.

Lemma write_frame_witness :
  exists mf',
    memfile_write (run fresh_4096) 40 (replicate 8 Byte.x2a) 8 = Some (0, mf') /\
    memfile_read mf' 48 8 = memfile_read (run fresh_4096) 48 8.
Proof.
  destruct (memfile_write (run fresh_4096) 40 (replicate 8 Byte.x2a) 8)
    as [[rc mf']|] eqn:Hw; [|vm_compute in Hw; discriminate Hw].
  assert (Hrc : rc = 0).
  { assert (E : (fst <$> memfile_write (run fresh_4096) 40 (replicate 8 Byte.x2a) 8)
                = Some 0) by (vm_compute; reflexivity).
    rewrite Hw in E. simpl in E. congruence. }
  subst rc. exists mf'. split; [reflexivity|].
  assert (H8 : 0 <= 8) by lia.
  destruct (write_frame _ _ _ _ _ _ H8 Hw) as (_ & _ & _ & _ & _ & Hrd).
  apply Hrd; lia.
Defined.

(** ** Misuse: freeing twice *)

Lemma count_free_self_loop mf o :
  memfile_ptr mf o = Some o -> rd64 mf (o + f_next) = Some o ->
  forall fuel c, count_free fuel mf o c = None.
Proof.
  intros Hp Hn. pose proof Hp as (_ & Hnz & _)%memfile_ptr_Some.
  induction fuel as [|fuel IH]; intros c; simpl;
    destruct (Z.eqb_spec o 0) as [?|_]; try contradiction; [reflexivity|].
  rewrite Hp. simpl. rewrite Hn. simpl. apply IH.
Qed.

Lemma alloc_search_self_loop mf o s total :
  memfile_ptr mf o = Some o -> rd64 mf (o + f_size) = Some s ->
  rd64 mf (o + f_next) = Some o -> s < total ->
  forall fuel prev, alloc_search fuel mf total prev o = None.
Proof.
  intros Hp Hs Hn Hlt. pose proof Hp as (_ & Hnz & _)%memfile_ptr_Some.
  induction fuel as [|fuel IH]; intros prev; simpl;
    destruct (Z.eqb_spec o 0) as [?|_]; try contradiction; [reflexivity|].
  rewrite Hp. simpl. rewrite Hs. simpl.
  destruct (Z.leb_spec total s); [lia|]. rewrite Hn. simpl. apply IH.
Qed.

(** X5.  Duplicate frees are not detected: freeing a valid offset
    twice makes the block the head of the free list and its own
    successor.  From then on [memfile_coalesce] walks the list without
    end, and so does every [memfile_alloc] whose total size is larger
    than the block. *)
Theorem double_free_cycle os mf p s h :
  mmap_size mf = Z.of_nat (length (mmap_base mf)) ->
  valid_offset mf p ->
  rd64 mf (p - sizeof_alloc) = Some s ->
  rd64 mf f_free_list_head = Some h ->
  exists mf1 mf2,
    memfile_free mf p = Some mf1 /\
    memfile_free mf1 p = Some mf2 /\
    rd64 mf2 f_free_list_head = Some (p - sizeof_alloc) /\
    rd64 mf2 (p - sizeof_alloc + f_next) = Some (p - sizeof_alloc) /\
    memfile_coalesce mf2 = None /\
    forall size, s < alloc_total size -> memfile_alloc os mf2 size = None.
Proof.
  intros Hmap Hv Hs Hh.
  destruct (free_post mf p s h Hmap Hv Hs Hh)
    as (mf1 & Hf1 & Hs1 & _ & Hh1 & _ & _ & _ & _ & Hm1 & _ & Hl1 & _).
  assert (Hv1 : valid_offset mf1 p) by (unfold valid_offset in *; rewrite Hm1; exact Hv).
  assert (Hmap1 : mmap_size mf1 = Z.of_nat (length (mmap_base mf1))) by congruence.
  unfold f_size in Hs1. rewrite Z.add_0_r in Hs1.
  destruct (free_post mf1 p s (p - sizeof_alloc) Hmap1 Hv1 Hs1 Hh1)
    as (mf2 & Hf2 & Hs2 & Hn2 & Hh2 & _ & _ & _ & _ & Hm2 & _ & Hl2 & _).
  destruct Hv as (Hv1' & Hv2' & Hv3').
  unfold sizeof_header, sizeof_alloc, sizeof_free in *.
  assert (Hp2 : memfile_ptr mf2 (p - 8) = Some (p - 8))
    by (apply memfile_ptr_ok; lia).
  exists mf1, mf2. split; [exact Hf1|]. split; [exact Hf2|].
  split; [exact Hh2|]. split; [exact Hn2|]. split.
  - unfold memfile_coalesce. rewrite Hh2. simpl.
    destruct (Z.eqb_spec (p - 8) 0) as [?|_]; [lia|].
    rewrite (count_free_self_loop mf2 (p - 8) Hp2 Hn2). reflexivity.
  - intros size Hlt. unfold memfile_alloc. rewrite Hh2. simpl.
    rewrite (alloc_search_self_loop mf2 (p - 8) s (alloc_total size) Hp2 Hs2 Hn2 Hlt).
    reflexivity.
Qed.

Lemma double_free_cycle_witness :
  exists mf1 mf2,
    memfile_free (run (snd <$> one_alloc)) 40 = Some mf1 /\
    memfile_free mf1 40 = Some mf2 /\
    memfile_coalesce mf2 = None.
Proof.
  destruct (double_free_cycle all_ok (run (snd <$> one_alloc)) 40 112 0)
    as (mf1 & mf2 & H1 & H2 & _ & _ & H3 & _).
  - vm_compute. reflexivity.
  - repeat split; vm_compute; congruence.
  - vm_compute. reflexivity.
  - vm_compute. reflexivity.
  - exists mf1, mf2. auto.
Defined.

(** ** Opening an existing file *)

(** X6.  [memfile_open] on a file that exists with a size above zero
    never changes the file system, whatever the system calls do and
    whatever initial size is passed; when it returns a handle, the file
    starts with the magic number and the mapping is the file's bytes at
    the file's length; a file that does not start with the magic
    number gets [NULL]. *)
Theorem open_existing os (fs : files) path initial_size c :
  fs !! path = Some c -> c <> [] ->
  (memfile_open os fs path initial_size).2 = fs /\
  (forall mf, (memfile_open os fs path initial_size).1 = Some mf ->
     Mem.load32 c f_magic = Some MEMFILE_MAGIC /\
     mmap_base mf = c /\ mmap_size mf = Z.of_nat (length c) /\
     file_len mf = Z.of_nat (length c)) /\
  (Mem.load32 c f_magic <> Some MEMFILE_MAGIC ->
   (memfile_open os fs path initial_size).1 = None).
Proof.
  intros Hst Hne. unfold memfile_open. rewrite Hst.
  assert (Hex : (0 <? length c)%nat = true).
  { destruct c; [contradiction|]. reflexivity. }
  rewrite Hex. simpl.
  destruct (open_ok os); simpl;
    [|split; [reflexivity|]; split; [intros mf [=]|reflexivity]].
  destruct (mmap_ok os); simpl;
    [|split; [reflexivity|]; split; [intros mf [=]|reflexivity]].
  destruct (bool_decide_reflect (Mem.load32 c f_magic = Some MEMFILE_MAGIC)) as [Hm|Hm];
    simpl.
  - split; [reflexivity|]. split; [|contradiction].
    intros mf [= <-]. auto.
  - split; [reflexivity|]. split; [intros mf [=]|reflexivity].
Qed.

Lemma open_existing_witness :
  (memfile_open all_ok {["junk" := [Byte.x2a]]} "junk" 4096)
  = (None, {["junk" := [Byte.x2a]]}).
Proof.
  destruct (open_existing all_ok {["junk" := [Byte.x2a]]} "junk" 4096 [Byte.x2a])
    as (Hfs & _ & Hnull).
  - apply lookup_insert_eq.
  - discriminate.
  - destruct (memfile_open all_ok {["junk" := [Byte.x2a]]} "junk" 4096) as [r fs'].
    simpl in *. rewrite Hfs, Hnull; [reflexivity|]. vm_compute. discriminate.
Defined.

Lemma load32_store32_same m a v m' :
  Mem.store32 m a v = Some m' -> Mem.load32 m' a = Some (wrap32 v).
Proof.
  unfold Mem.store32, Mem.load32. intros H. apply MemFacts.load_store_same in H.
  rewrite length_le_split in H. rewrite H. simpl.
  rewrite le_combine_split. reflexivity.
Qed.

Lemma load32_store_other m a bs m' a' :
  Mem.store_bytes m a bs = Some m' ->
  a' + 4 <= a \/ a + Z.of_nat (length bs) <= a' ->
  Mem.load32 m' a' = Mem.load32 m a'.
Proof.
  intros H Hd. unfold Mem.load32.
  rewrite (MemFacts.load_store_other _ _ _ _ a' 4 H); [reflexivity|lia].
Qed.

(** The header of a fresh file starts with the magic number and the
    version. *)
Lemma init_header_magic (c : list byte) size m :
  init_header c size = Some m ->
  Mem.load32 m f_magic = Some MEMFILE_MAGIC /\
  Mem.load32 m f_version = Some MEMFILE_VERSION.
Proof.
  unfold init_header, f_magic, f_version, f_file_size, f_allocated, f_free_list_head.
  destruct (Mem.store32 c 0 MEMFILE_MAGIC) as [m1|] eqn:H1; [simpl|discriminate].
  destruct (Mem.store32 m1 4 MEMFILE_VERSION) as [m2|] eqn:H2; [simpl|discriminate].
  destruct (Mem.store64 m2 8 size) as [m3|] eqn:H3; [simpl|discriminate].
  destruct (Mem.store64 m3 16 sizeof_header) as [m4|] eqn:H4; [simpl|discriminate].
  intros H5.
  assert (L8 : forall v, length (le_split 8 v) = 8%nat) by (intros; apply length_le_split).
  split.
  - rewrite (load32_store_other _ _ _ _ 0 H5) by (rewrite L8; lia).
    rewrite (load32_store_other _ _ _ _ 0 H4) by (rewrite L8; lia).
    rewrite (load32_store_other _ _ _ _ 0 H3) by (rewrite L8; lia).
    rewrite (load32_store_other _ _ _ _ 0 H2) by (rewrite length_le_split; lia).
    rewrite (load32_store32_same _ _ _ _ H1). reflexivity.
  - rewrite (load32_store_other _ _ _ _ 4 H5) by (rewrite L8; lia).
    rewrite (load32_store_other _ _ _ _ 4 H4) by (rewrite L8; lia).
    rewrite (load32_store_other _ _ _ _ 4 H3) by (rewrite L8; lia).
    rewrite (load32_store32_same _ _ _ _ H2). reflexivity.
Qed.

(** X7.  A file that [memfile_open] has created is accepted when it is
    opened again: the second open, with any initial size, returns the
    handle of the first one (the same bytes, [mmap_size] and file
    length) and leaves the file system as the first open left it; the
    header it finds has the magic number, version 1, the file's size,
    32 bytes allocated and an empty free list. *)
Theorem open_create_then_reopen os os' (fs : files) path initial_size initial_size' :
  fs !! path = None \/ fs !! path = Some [] ->
  open_ok os = true -> mmap_ok os = true ->
  0 <= initial_size ->
  sys_ftruncate os (if initial_size <? sizeof_header + 64 then 4096 else initial_size)
    = true ->
  open_ok os' = true -> mmap_ok os' = true ->
  exists mf fs',
    memfile_open os fs path initial_size = (Some mf, fs') /\
    memfile_open os' fs' path initial_size' = (Some mf, fs') /\
    Mem.load32 (mmap_base mf) f_magic = Some MEMFILE_MAGIC /\
    Mem.load32 (mmap_base mf) f_version = Some MEMFILE_VERSION /\
    rd64 mf f_file_size = Some (mmap_size mf) /\
    rd64 mf f_allocated = Some sizeof_header /\
    rd64 mf f_free_list_head = Some 0.
Proof.
  intros Hst Hop Hmm H0 Hft Hop' Hmm'.
  pose proof (open_fresh_size initial_size) as Hmin.
  set (size := if initial_size <? sizeof_header + 64 then 4096 else initial_size) in *.
  assert (Hsz : size < 2 ^ 63).
  { unfold sys_ftruncate in Hft. apply andb_true_iff in Hft as [_ H%Z.ltb_lt]. exact H. }
  assert (Hex : match fs !! path with
                | Some c => (0 <? length c)%nat
                | None => false
                end = false) by (destruct Hst as [-> | ->]; reflexivity).
  assert (Hdef : default [] (fs !! path) = []) by (destruct Hst as [-> | ->]; reflexivity).
  destruct (init_header_spec (resize (Z.to_nat size) Byte.x00 []) size)
    as (m & Hinit & Hlen & Hfs & Hal & Hhd).
  { rewrite length_resize. unfold sizeof_header in *. lia. }
  { unfold sizeof_header in *. lia. }
  rewrite length_resize in Hlen.
  destruct (init_header_magic _ _ _ Hinit) as [Hmagic Hver].
  assert (Hlenm : Z.of_nat (length m) = size)
    by (rewrite Hlen; unfold sizeof_header in Hmin; lia).
  eexists _, _. split.
  { unfold memfile_open. rewrite Hex, Hop. simpl. fold size.
    rewrite Hft, Hmm, Hdef. simpl. rewrite Hinit. reflexivity. }
  split; [|repeat split; assumption].
  unfold memfile_open. rewrite lookup_insert_eq.
  assert (Hpos : (0 <? length m)%nat = true).
  { apply Nat.ltb_lt. unfold sizeof_header in Hmin. lia. }
  rewrite Hpos, Hop', Hmm'. simpl.
  rewrite (bool_decide_eq_true_2 _ Hmagic). simpl. rewrite Hlenm. reflexivity.
Qed.

Lemma open_create_then_reopen_witness :
  exists mf fs',
    memfile_open all_ok ∅ "arena" 64 = (Some mf, fs') /\
    memfile_open all_ok fs' "arena" 0 = (Some mf, fs').
Proof.
  destruct (open_create_then_reopen all_ok all_ok ∅ "arena" 64 0)
    as (mf & fs' & H1 & H2 & _);
    [left; reflexivity|reflexivity|reflexivity|lia|reflexivity|reflexivity|reflexivity|].
  exists mf, fs'. auto.
Defined.

(** ** Free lists under writes elsewhere *)

Lemma chain_to_0 mf L : forall h, chain mf h L <-> chain_to mf h L 0.
Proof.
  induction L as [|b L IH]; intros h; simpl; [tauto|].
  split; intros (H1 & H2 & H3 & n & Hn & Hc); repeat split; auto;
    exists n; split; auto; apply IH; exact Hc.
Qed.

(** A segment of the list is the same segment in every state that
    keeps the size of the mapping and the two words of each node. *)
Lemma chain_to_ext mf mf' (L : list blk) t :
  mmap_size mf' = mmap_size mf ->
  Forall (fun b => rd64 mf' (b_offset b + f_size) = rd64 mf (b_offset b + f_size) /\
                   rd64 mf' (b_offset b + f_next) = rd64 mf (b_offset b + f_next)) L ->
  forall h, chain_to mf h L t -> chain_to mf' h L t.
Proof.
  intros Hm. induction L as [|b L IH]; intros Hall h Hc; [exact Hc|].
  apply Forall_cons in Hall as [[Hs Hn] Hall].
  destruct Hc as (-> & Hp & Hsz & n & Hnx & Hc).
  simpl. split; [reflexivity|]. split.
  - unfold memfile_ptr in *. rewrite Hm. exact Hp.
  - split; [congruence|]. exists n. split; [congruence|]. apply IH; assumption.
Qed.

Lemma chain_ext mf mf' (L : list blk) :
  mmap_size mf' = mmap_size mf ->
  Forall (fun b => rd64 mf' (b_offset b + f_size) = rd64 mf (b_offset b + f_size) /\
                   rd64 mf' (b_offset b + f_next) = rd64 mf (b_offset b + f_next)) L ->
  forall h, chain mf h L -> chain mf' h L.
Proof.
  intros Hm Hall h Hc. apply chain_to_0. apply chain_to_0 in Hc.
  eapply chain_to_ext; eauto.
Qed.

(** A write of 8 bytes that meets no node keeps the two words of each
    node. *)
Lemma wr64_off_nodes mf w v mf' (L : list blk) :
  wr64 mf w v = Some mf' -> off_nodes L w ->
  Forall (fun b => rd64 mf' (b_offset b + f_size) = rd64 mf (b_offset b + f_size) /\
                   rd64 mf' (b_offset b + f_next) = rd64 mf (b_offset b + f_next)) L.
Proof.
  intros Hw Hoff. eapply Forall_impl; [exact Hoff|]. simpl.
  intros b Hb. unfold f_size, f_next, sizeof_free in *.
  split; apply (rd64_wr64_other _ _ _ _ _ Hw); lia.
Qed.

Lemma chain_wr64 mf w v mf' (L : list blk) h :
  wr64 mf w v = Some mf' -> off_nodes L w -> chain mf h L -> chain mf' h L.
Proof.
  intros Hw Hoff. apply chain_ext.
  - apply (wr64_mmap_size _ _ _ _ Hw).
  - eapply wr64_off_nodes; eauto.
Qed.

(** ** The first-fit loop passes the blocks that are too small *)

Lemma last_offset_cons prev b (L : list blk) :
  last_offset prev (b :: L) = last_offset (b_offset b) L.
Proof.
  unfold last_offset. destruct L as [|c L]; [reflexivity|].
  rewrite last_cons. destruct (last (c :: L)) eqn:E; [reflexivity|].
  apply last_None in E. discriminate.
Qed.

Lemma alloc_search_skip mf total (pre : list blk) t :
  Forall (fun b => b_size b < total) pre ->
  forall h prev n,
  chain_to mf h pre t ->
  alloc_search (length pre + n) mf total prev h
  = alloc_search n mf total (last_offset prev pre) t.
Proof.
  intros Hsmall. induction pre as [|b pre IH]; intros h prev n Hc.
  - simpl in Hc. subst h. reflexivity.
  - apply Forall_cons in Hsmall as [Hb Hsmall].
    destruct Hc as (-> & Hp & Hsz & nx & Hnx & Hc).
    pose proof Hp as (_ & Hnz & _)%memfile_ptr_Some.
    rewrite last_offset_cons. simpl length. simpl alloc_search.
    destruct (Z.eqb_spec (b_offset b) 0) as [?|_]; [contradiction|].
    rewrite Hp. cbn [mbind option_bind]. rewrite Hsz. cbn [mbind option_bind].
    destruct (Z.leb_spec total (b_size b)); [lia|].
    rewrite Hnx. cbn [mbind option_bind]. apply IH; assumption.
Qed.

Lemma alloc_search_end fuel mf total prev :
  alloc_search fuel mf total prev 0 = Some None.
Proof. destruct fuel; reflexivity. Qed.

(** With no block large enough the loop ends without a fit. *)
Lemma alloc_search_no_fit mf total (L : list blk) h :
  well_formed mf L -> chain mf h L ->
  Forall (fun b => b_size b < total) L ->
  alloc_search (walk_fuel mf) mf total 0 h = Some None.
Proof.
  intros Hwf Hc Hsmall. pose proof (wf_length mf L Hwf) as Hfuel.
  replace (walk_fuel mf) with (length L + (walk_fuel mf - length L))%nat by lia.
  apply chain_to_0 in Hc.
  rewrite (alloc_search_skip mf total L 0 Hsmall h 0 _ Hc).
  apply alloc_search_end.
Qed.

(** ** Allocation from the end of the arena *)

(** The state of a well-formed free list carries over to a state with
    the same list words, the same head and at least as much allocated. *)
Lemma well_formed_ext mf mf' (L : list blk) al al' :
  well_formed mf L ->
  mmap_size mf' = Z.of_nat (length (mmap_base mf')) -> mmap_size mf' < 2 ^ 64 ->
  (forall o, memfile_ptr mf o = Some o -> memfile_ptr mf' o = Some o) ->
  Forall (fun b => rd64 mf' (b_offset b + f_size) = rd64 mf (b_offset b + f_size) /\
                   rd64 mf' (b_offset b + f_next) = rd64 mf (b_offset b + f_next)) L ->
  rd64 mf' f_free_list_head = rd64 mf f_free_list_head ->
  rd64 mf f_allocated = Some al -> rd64 mf' f_allocated = Some al' ->
  al <= al' <= mmap_size mf' ->
  well_formed mf' L.
Proof.
  intros [_ _ (h & Hh & Hc) (al0 & Hal0 & _ & Hok) Hn Hd] Hmap Hsz Hptr Hall Hhd Hal Hal' Hle.
  assert (al0 = al) as -> by congruence.
  constructor; auto.
  - exists h. split; [congruence|]. clear Hh Hn Hd Hok.
    revert h Hc. induction L as [|b L IH]; intros h Hc; [exact Hc|].
    apply Forall_cons in Hall as [[Hs Hnx] Hall].
    destruct Hc as (-> & Hp & Hs0 & n & Hn0 & Hc).
    simpl. split; [reflexivity|]. split; [apply Hptr, Hp|].
    split; [congruence|]. exists n. split; [congruence|]. apply IH; assumption.
  - exists al'. split; [exact Hal'|]. split; [lia|].
    eapply Forall_impl; [exact Hok|]. unfold blk_ok. intros b. lia.
Qed.

(** The last steps of [memfile_alloc]: the header of the new block is
    written at [allocated], and [allocated] moves up by its size. *)
Lemma bump_write mf total al :
  mmap_size mf = Z.of_nat (length (mmap_base mf)) -> mmap_size mf < 2 ^ 64 ->
  rd64 mf f_allocated = Some al -> sizeof_header <= al ->
  al + 8 <= mmap_size mf -> 0 <= total -> al + total < 2 ^ 64 ->
  exists mf2 mf3,
    wr64 mf al total = Some mf2 /\
    wr64 mf2 f_allocated (al + total) = Some mf3 /\
    (offset ← rd64 mf f_allocated;
     alloc ← memfile_ptr mf offset;
     mf2 ← wr64 mf alloc total;
     allocated ← rd64 mf2 f_allocated;
     mf3 ← wr64 mf2 f_allocated (wrap64 (allocated + total));
     Some (wrap64 (offset + sizeof_alloc), mf3)) = Some (al + 8, mf3).
Proof.
  unfold sizeof_header, sizeof_alloc, f_allocated.
  intros Hmap Hsz Hal H32 Hfit H0 Hnw.
  destruct (wr64_defined mf al total) as [mf2 H2]; [lia..|].
  destruct (wr64_defined mf2 16 (al + total)) as [mf3 H3];
    [rewrite ?(wr64_length _ _ _ _ H2); lia..|].
  exists mf2, mf3. split; [exact H2|]. split; [exact H3|].
  rewrite Hal. cbn [mbind option_bind].
  rewrite (memfile_ptr_ok mf al) by lia. cbn [mbind option_bind].
  rewrite H2. cbn [mbind option_bind].
  rewrite (rd64_wr64_other _ _ _ _ 16 H2), Hal by lia. cbn [mbind option_bind].
  rewrite (wrap64_small (al + total)) by lia. rewrite H3. cbn [mbind option_bind].
  rewrite (wrap64_small (al + 8)) by lia. reflexivity.
Qed.

Lemma blocks_off_nodes al (L : list blk) w :
  Forall (blk_ok al) L -> w + 8 <= sizeof_header \/ al <= w -> off_nodes L w.
Proof.
  intros Hok Hw. eapply Forall_impl; [exact Hok|]. simpl.
  unfold blk_ok, blk_end, sizeof_free, sizeof_header in *. intros b. lia.
Qed.

Lemma alloc_bump_spec os mf L size al fsz :
  well_formed mf L ->
  Forall (fun b => b_size b < alloc_total size) L ->
  rd64 mf f_allocated = Some al -> sizeof_header <= al ->
  rd64 mf f_file_size = Some fsz -> fsz <= mmap_size mf ->
  0 <= size -> size + sizeof_alloc + 7 < 2 ^ 64 ->
  al + alloc_total size <= fsz ->
  exists mf',
    memfile_alloc os mf size = Some (al + sizeof_alloc, mf') /\
    rd64 mf' al = Some (alloc_total size) /\
    rd64 mf' f_allocated = Some (al + alloc_total size) /\
    rd64 mf' f_file_size = Some fsz /\
    well_formed mf' L /\
    mmap_size mf' = mmap_size mf /\ file_len mf' = file_len mf /\
    forall i : nat, outside al i -> outside f_allocated i ->
      mmap_base mf' !! i = mmap_base mf !! i.
Proof.
  intros Hwf Hsmall Hal H32 Hfs Hfsle H0 Hnw Hfit.
  pose proof Hwf as [Hmap Hsz (h & Hh & Hc) (al0 & Hal0 & Hle & Hok) _ _].
  assert (al0 = al) as -> by congruence.
  pose proof (alloc_total_bounds size H0 Hnw) as Htot.
  set (total := alloc_total size) in *.
  unfold sizeof_header, sizeof_alloc in *.
  destruct (bump_write mf total al Hmap Hsz Hal) as (mf2 & mf3 & H2 & H3 & Htail);
    [unfold sizeof_header; lia|lia|lia|lia|].
  exists mf3.
  assert (Hm2 := wr64_mmap_size _ _ _ _ H2). assert (Hm3 := wr64_mmap_size _ _ _ _ H3).
  assert (Hl2 := wr64_length _ _ _ _ H2). assert (Hl3 := wr64_length _ _ _ _ H3).
  unfold f_allocated, f_file_size, f_free_list_head in *.
  split; [|split; [|split; [|split; [|split; [|split; [|split]]]]]].
  - unfold memfile_alloc. fold total. unfold f_free_list_head. rewrite Hh.
    cbn [mbind option_bind].
    rewrite (alloc_search_no_fit mf total L h Hwf Hc Hsmall). cbn [mbind option_bind].
    unfold memfile_ensure_space, f_allocated, f_file_size. rewrite Hal, Hfs.
    cbn [mbind option_bind].
    rewrite (wrap64_small (al + total)) by lia.
    destruct (Z.leb_spec (al + total) fsz); [|lia].
    cbn [mbind option_bind]. simpl (0 <? 0). cbv iota. exact Htail.
  - rewrite (rd64_wr64_other _ _ _ _ al H3) by lia.
    rewrite (rd64_wr64_same _ _ _ _ H2). f_equal. apply wrap64_small. lia.
  - rewrite (rd64_wr64_same _ _ _ _ H3). f_equal. apply wrap64_small. lia.
  - rewrite (rd64_wr64_other _ _ _ _ 8 H3) by lia.
    rewrite (rd64_wr64_other _ _ _ _ 8 H2) by lia. exact Hfs.
  - apply (well_formed_ext mf mf3 L al (al + total) Hwf).
    + congruence.
    + rewrite Hm3, Hm2. exact Hsz.
    + intros o Ho. unfold memfile_ptr in *. rewrite Hm3, Hm2. exact Ho.
    + pose proof (wr64_off_nodes _ _ _ _ L H2 (blocks_off_nodes al L al Hok ltac:(lia))) as F2.
      pose proof (wr64_off_nodes _ _ _ _ L H3
                    (blocks_off_nodes al L 16 Hok ltac:(unfold sizeof_header; lia))) as F3.
      rewrite Forall_forall in F2, F3. apply Forall_forall. intros b Hb.
      destruct (F2 b Hb) as [A2 B2]. destruct (F3 b Hb) as [A3 B3].
      split; congruence.
    + unfold f_free_list_head. rewrite (rd64_wr64_other _ _ _ _ 24 H3) by lia.
      apply (rd64_wr64_other _ _ _ _ 24 H2). lia.
    + exact Hal.
    + unfold f_allocated. rewrite (rd64_wr64_same _ _ _ _ H3). f_equal.
      apply wrap64_small. lia.
    + lia.
  - congruence.
  - rewrite (wr64_file_len _ _ _ _ H3). apply (wr64_file_len _ _ _ _ H2).
  - intros i Hi1 Hi2. unfold outside in *.
    rewrite (wr64_lookup_other _ _ _ _ i H3) by lia.
    apply (wr64_lookup_other _ _ _ _ i H2). lia.
Qed.

(** X8.  Bump allocation.  In a well-formed state where no free block
    is large enough and [allocated + total <= file_size], a request
    that does not wrap returns [allocated + 8], makes no system call
    (the result is the same for every [os]), stores the total size in
    the 8 bytes at [allocated] and moves [allocated] up by it, so that
    [allocated <= file_size] still holds; the free list, [file_size],
    the size of the mapping and every byte outside those two words are
    unchanged. *)
Theorem alloc_bump os mf L size al fsz :
  well_formed mf L ->
  Forall (fun b => b_size b < alloc_total size) L ->
  rd64 mf f_allocated = Some al -> sizeof_header <= al ->
  rd64 mf f_file_size = Some fsz -> fsz <= mmap_size mf ->
  0 <= size -> size + sizeof_alloc + 7 < 2 ^ 64 ->
  al + alloc_total size <= fsz ->
  exists mf',
    memfile_alloc os mf size = Some (al + sizeof_alloc, mf') /\
    rd64 mf' al = Some (alloc_total size) /\
    rd64 mf' f_allocated = Some (al + alloc_total size) /\
    rd64 mf' f_file_size = Some fsz /\
    well_formed mf' L /\
    mmap_size mf' = mmap_size mf /\ file_len mf' = file_len mf /\
    forall i : nat, outside al i -> outside f_allocated i ->
      mmap_base mf' !! i = mmap_base mf !! i.
Proof. apply alloc_bump_spec. Qed.

Lemma fresh_4096_wf : well_formed (run fresh_4096) [].
Proof.
  constructor.
  - vm_compute. reflexivity.
  - vm_compute. reflexivity.
  - exists 0. split; [vm_compute; reflexivity|reflexivity].
  - exists 32. split; [vm_compute; reflexivity|]. split; [vm_compute; discriminate|].
    constructor.
  - constructor.
  - intros a b Ha. inversion Ha.
Qed.

Lemma alloc_bump_witness :
  exists mf',
    memfile_alloc all_ok (run fresh_4096) 100 = Some (32 + sizeof_alloc, mf') /\
    rd64 mf' f_allocated = Some (32 + alloc_total 100).
Proof.
  destruct (alloc_bump all_ok (run fresh_4096) [] 100 32 4096 fresh_4096_wf)
    as (mf' & Ha & _ & Hal & _).
  - constructor.
  - vm_compute. reflexivity.
  - vm_compute. discriminate.
  - vm_compute. reflexivity.
  - vm_compute. discriminate.
  - lia.
  - vm_compute. reflexivity.
  - vm_compute. discriminate.
  - exists mf'. auto.
Defined.

(** ** Allocation that grows the file *)

Lemma alloc_grow_fails_spec os mf L size al fsz :
  well_formed mf L ->
  Forall (fun b => b_size b < alloc_total size) L ->
  rd64 mf f_allocated = Some al -> rd64 mf f_file_size = Some fsz ->
  fsz < wrap64 (al + alloc_total size) ->
  sys_ftruncate os
    (if wrap64 (mmap_size mf * 2) <? wrap64 (al + alloc_total size)
     then wrap64 (al + alloc_total size + 4096)
     else wrap64 (mmap_size mf * 2)) && mremap_ok os = false ->
  exists mf',
    memfile_alloc os mf size = Some (0, mf') /\
    mmap_base mf' = mmap_base mf /\ mmap_size mf' = mmap_size mf.
Proof.
  intros Hwf Hsmall Hal Hfs Hgt Hfail.
  pose proof Hwf as [_ _ (h & Hh & Hc) _ _ _].
  unfold memfile_alloc. rewrite Hh. cbn [mbind option_bind].
  rewrite (alloc_search_no_fit mf _ L h Hwf Hc Hsmall). cbn [mbind option_bind].
  unfold memfile_ensure_space. rewrite Hal, Hfs. cbn [mbind option_bind].
  destruct (Z.leb_spec (wrap64 (al + alloc_total size)) fsz); [lia|].
  unfold memfile_remap.
  destruct (sys_ftruncate os _) eqn:Hft; simpl.
  - simpl in Hfail. rewrite Hfail. simpl. eexists. split; [reflexivity|]. auto.
  - eexists. split; [reflexivity|]. auto.
Qed.

(** X9.  When the arena has to grow and [ftruncate] or [mremap] fails,
    [memfile_alloc] returns 0 and leaves the mapping as it is: the same
    bytes and the same [mmap_size]. *)
Theorem alloc_grow_fails os mf L size al fsz :
  well_formed mf L ->
  Forall (fun b => b_size b < alloc_total size) L ->
  rd64 mf f_allocated = Some al -> rd64 mf f_file_size = Some fsz ->
  fsz < wrap64 (al + alloc_total size) ->
  sys_ftruncate os
    (if wrap64 (mmap_size mf * 2) <? wrap64 (al + alloc_total size)
     then wrap64 (al + alloc_total size + 4096)
     else wrap64 (mmap_size mf * 2)) && mremap_ok os = false ->
  exists mf',
    memfile_alloc os mf size = Some (0, mf') /\
    mmap_base mf' = mmap_base mf /\ mmap_size mf' = mmap_size mf.
Proof. apply alloc_grow_fails_spec. Qed.

Lemma alloc_grow_fails_witness :
  exists mf',
    memfile_alloc (Sys true false true true) (run fresh_4096) 5000 = Some (0, mf') /\
    mmap_base mf' = mmap_base (run fresh_4096).
Proof.
  destruct (alloc_grow_fails (Sys true false true true) (run fresh_4096) [] 5000 32 4096
              fresh_4096_wf) as (mf' & Ha & Hb & _).
  - constructor.
  - vm_compute. reflexivity.
  - vm_compute. reflexivity.
  - vm_compute. reflexivity.
  - reflexivity.
  - exists mf'. auto.
Defined.

Lemma load_bytes_resize (m : list byte) n x a k :
  0 <= a -> a + Z.of_nat k <= Z.of_nat (length m) -> (length m <= n)%nat ->
  Mem.load_bytes (resize n x m) a k = Mem.load_bytes m a k.
Proof.
  intros H0 H1 H2. unfold Mem.load_bytes, Mem.in_range. rewrite length_resize.
  destruct (Z.leb_spec 0 a); [simpl|lia].
  destruct (Z.leb_spec (a + Z.of_nat k) (Z.of_nat n)); [|lia].
  destruct (Z.leb_spec (a + Z.of_nat k) (Z.of_nat (length m))); [|lia].
  f_equal. apply list_eq. intros i. rewrite !lookup_take.
  destruct (decide (i < k)%nat); [|reflexivity].
  rewrite !lookup_drop. apply lookup_resize; lia.
Qed.

(** Growing the mapping keeps the bytes it had, but for [file_size]. *)
Lemma remap_content os mf new_size :
  sys_ftruncate os new_size = true -> mremap_ok os = true ->
  mmap_size mf = Z.of_nat (length (mmap_base mf)) ->
  16 <= mmap_size mf <= new_size -> new_size < 2 ^ 64 ->
  exists mf',
    memfile_remap os mf new_size = Some (0, mf') /\
    mmap_size mf' = new_size /\ file_len mf' = new_size /\
    Z.of_nat (length (mmap_base mf')) = new_size /\
    rd64 mf' f_file_size = Some new_size /\
    (forall q, 0 <= q -> q + 8 <= mmap_size mf ->
               q + 8 <= f_file_size \/ f_file_size + 8 <= q ->
               rd64 mf' q = rd64 mf q) /\
    (forall i : nat, Z.of_nat i < mmap_size mf -> outside f_file_size i ->
               mmap_base mf' !! i = mmap_base mf !! i).
Proof.
  intros Hft Hmr Hmap Hsz Hlt. unfold memfile_remap. rewrite Hft, Hmr. simpl.
  set (mf2 := {| mmap_base := _ |}).
  destruct (wr64_defined mf2 f_file_size new_size) as [mf3 H3].
  { unfold f_file_size. lia. }
  { unfold mf2, f_file_size. simpl. rewrite length_resize. lia. }
  rewrite H3. simpl. exists mf3. split; [reflexivity|].
  split; [apply (wr64_mmap_size _ _ _ _ H3)|].
  split; [apply (wr64_file_len _ _ _ _ H3)|].
  split; [rewrite (wr64_length _ _ _ _ H3); unfold mf2; simpl; rewrite length_resize; lia|].
  split; [rewrite (rd64_wr64_same _ _ _ _ H3); f_equal; apply wrap64_small; lia|].
  split.
  - intros q Hq0 Hq Hd. rewrite (rd64_wr64_other _ _ _ _ q H3) by lia.
    unfold rd64, Mem.load64, mf2. simpl.
    rewrite load_bytes_resize; [reflexivity|lia|simpl; lia|lia].
  - intros i Hi Ho. unfold outside in Ho.
    rewrite (wr64_lookup_other _ _ _ _ i H3) by lia.
    unfold mf2. simpl. apply lookup_resize; lia.
Qed.

Lemma alloc_grow_spec os mf L size al fsz new_size :
  well_formed mf L ->
  Forall (fun b => b_size b < alloc_total size) L ->
  rd64 mf f_allocated = Some al -> sizeof_header <= al ->
  rd64 mf f_file_size = Some fsz ->
  0 <= size -> size + sizeof_alloc + 7 < 2 ^ 64 ->
  fsz < al + alloc_total size ->
  mmap_size mf * 2 < 2 ^ 64 -> al + alloc_total size + 4096 < 2 ^ 64 ->
  new_size = (if mmap_size mf * 2 <? al + alloc_total size
              then al + alloc_total size + 4096 else mmap_size mf * 2) ->
  sys_ftruncate os new_size = true -> mremap_ok os = true ->
  exists mf',
    memfile_alloc os mf size = Some (al + sizeof_alloc, mf') /\
    mmap_size mf' = new_size /\ file_len mf' = new_size /\
    mmap_size mf <= new_size /\ al + alloc_total size <= new_size /\
    rd64 mf' f_file_size = Some new_size /\
    rd64 mf' al = Some (alloc_total size) /\
    rd64 mf' f_allocated = Some (al + alloc_total size) /\
    well_formed mf' L /\
    forall i : nat, Z.of_nat i < mmap_size mf ->
      outside f_file_size i -> outside f_allocated i -> outside al i ->
      mmap_base mf' !! i = mmap_base mf !! i.
Proof.
  intros Hwf Hsmall Hal H32 Hfs H0 Hnw Hgt Hnw2 Hnw3 Hnew Hft Hmr.
  pose proof Hwf as [Hmap Hsz (h & Hh & Hc) (al0 & Hal0 & Hle & Hok) _ _].
  assert (al0 = al) as -> by congruence.
  pose proof (alloc_total_bounds size H0 Hnw) as Htot.
  set (total := alloc_total size) in *.
  unfold sizeof_header, sizeof_alloc in *.
  assert (Hge : mmap_size mf <= new_size /\ al + total <= new_size /\ new_size < 2 ^ 64).
  { subst new_size. destruct (Z.ltb_spec (mmap_size mf * 2) (al + total)); lia. }
  destruct Hge as (Hge1 & Hge2 & Hge3).
  destruct (remap_content os mf new_size Hft Hmr Hmap) as
    (mf1 & Hre & Hm1 & Hf1 & Hl1 & Hfs1 & Hrd1 & Hby1); [lia|lia|].
  assert (Hal1 : rd64 mf1 f_allocated = Some al).
  { rewrite Hrd1; [exact Hal|unfold f_allocated, f_file_size; lia..]. }
  destruct (bump_write mf1 total al) as (mf2 & mf3 & H2 & H3 & Htail);
    [congruence|lia|exact Hal1|unfold sizeof_header; lia|lia|lia|lia|].
  assert (Hm2 := wr64_mmap_size _ _ _ _ H2). assert (Hm3 := wr64_mmap_size _ _ _ _ H3).
  assert (Hl2 := wr64_length _ _ _ _ H2). assert (Hl3 := wr64_length _ _ _ _ H3).
  exists mf3.
  unfold f_allocated, f_file_size, f_free_list_head in *.
  split; [|split; [|split; [|split; [|split; [|split; [|split; [|split; [|split]]]]]]]].
  - unfold memfile_alloc. fold total. unfold f_free_list_head. rewrite Hh.
    cbn [mbind option_bind].
    rewrite (alloc_search_no_fit mf total L h Hwf Hc Hsmall). cbn [mbind option_bind].
    unfold memfile_ensure_space, f_allocated, f_file_size. rewrite Hal, Hfs.
    cbn [mbind option_bind].
    rewrite (wrap64_small (al + total)) by lia.
    rewrite (wrap64_small (mmap_size mf * 2)) by lia.
    rewrite (wrap64_small (al + total + 4096)) by lia.
    destruct (Z.leb_spec (al + total) fsz); [lia|].
    rewrite <- Hnew, Hre. cbn [mbind option_bind]. simpl (0 <? 0). cbv iota.
    exact Htail.
  - congruence.
  - rewrite (wr64_file_len _ _ _ _ H3), (wr64_file_len _ _ _ _ H2). exact Hf1.
  - exact Hge1.
  - exact Hge2.
  - rewrite (rd64_wr64_other _ _ _ _ 8 H3) by lia.
    rewrite (rd64_wr64_other _ _ _ _ 8 H2) by lia. exact Hfs1.
  - rewrite (rd64_wr64_other _ _ _ _ al H3) by lia.
    rewrite (rd64_wr64_same _ _ _ _ H2). f_equal. apply wrap64_small. lia.
  - rewrite (rd64_wr64_same _ _ _ _ H3). f_equal. apply wrap64_small. lia.
  - apply (well_formed_ext mf mf3 L al (al + total) Hwf).
    + congruence.
    + rewrite Hm3, Hm2, Hm1. exact Hge3.
    + intros o (_ & Ho1 & Ho2)%memfile_ptr_Some. apply memfile_ptr_ok; [exact Ho1|].
      rewrite Hm3, Hm2, Hm1. lia.
    + pose proof (wr64_off_nodes _ _ _ _ L H2 (blocks_off_nodes al L al Hok ltac:(lia))) as F2.
      pose proof (wr64_off_nodes _ _ _ _ L H3
                    (blocks_off_nodes al L 16 Hok ltac:(unfold sizeof_header; lia))) as F3.
      rewrite Forall_forall in F2, F3, Hok. apply Forall_forall. intros b Hb.
      destruct (F2 b Hb) as [A2 B2]. destruct (F3 b Hb) as [A3 B3].
      destruct (Hok b Hb) as (Hb1 & Hb2 & Hb3).
      unfold blk_end, sizeof_header, sizeof_free, f_size, f_next in *.
      rewrite A3, A2, B3, B2. split; apply Hrd1; lia.
    + unfold f_free_list_head. rewrite (rd64_wr64_other _ _ _ _ 24 H3) by lia.
      rewrite (rd64_wr64_other _ _ _ _ 24 H2) by lia. apply Hrd1; lia.
    + exact Hal.
    + unfold f_allocated. rewrite (rd64_wr64_same _ _ _ _ H3). f_equal.
      apply wrap64_small. lia.
    + rewrite Hm3, Hm2, Hm1. lia.
  - intros i Hi Ho1 Ho2 Ho3. unfold outside in *.
    rewrite (wr64_lookup_other _ _ _ _ i H3) by lia.
    rewrite (wr64_lookup_other _ _ _ _ i H2) by lia.
    apply Hby1; [lia|unfold outside; lia].
Qed.

(** X10.  Allocation with growth.  In a well-formed state where no free
    block is large enough and [allocated + total] is above [file_size],
    with successful [ftruncate] and [mremap] and no wrap-around, the
    mapping and the file grow to the new size, which is at least the
    old one and holds the new block; [memfile_alloc] returns
    [allocated + 8], and the free list and every byte of the old
    mapping outside [file_size], [allocated] and the new block's size
    word are unchanged, so that offsets handed out before stay valid
    and their contents readable. *)
Theorem alloc_grow os mf L size al fsz new_size :
  well_formed mf L ->
  Forall (fun b => b_size b < alloc_total size) L ->
  rd64 mf f_allocated = Some al -> sizeof_header <= al ->
  rd64 mf f_file_size = Some fsz ->
  0 <= size -> size + sizeof_alloc + 7 < 2 ^ 64 ->
  fsz < al + alloc_total size ->
  mmap_size mf * 2 < 2 ^ 64 -> al + alloc_total size + 4096 < 2 ^ 64 ->
  new_size = (if mmap_size mf * 2 <? al + alloc_total size
              then al + alloc_total size + 4096 else mmap_size mf * 2) ->
  sys_ftruncate os new_size = true -> mremap_ok os = true ->
  exists mf',
    memfile_alloc os mf size = Some (al + sizeof_alloc, mf') /\
    mmap_size mf' = new_size /\ file_len mf' = new_size /\
    mmap_size mf <= new_size /\ al + alloc_total size <= new_size /\
    rd64 mf' f_file_size = Some new_size /\
    rd64 mf' al = Some (alloc_total size) /\
    rd64 mf' f_allocated = Some (al + alloc_total size) /\
    well_formed mf' L /\
    forall i : nat, Z.of_nat i < mmap_size mf ->
      outside f_file_size i -> outside f_allocated i -> outside al i ->
      mmap_base mf' !! i = mmap_base mf !! i.
Proof. apply alloc_grow_spec. Qed.

Lemma alloc_grow_witness :
  exists mf',
    memfile_alloc all_ok (run fresh_4096) 5000 = Some (32 + sizeof_alloc, mf') /\
    mmap_size mf' = 8192 /\ rd64 mf' f_file_size = Some 8192.
Proof.
  destruct (alloc_grow all_ok (run fresh_4096) [] 5000 32 4096 8192 fresh_4096_wf)
    as (mf' & Ha & Hm & _ & _ & _ & Hfs & _).
  - constructor.
  - vm_compute. reflexivity.
  - vm_compute. discriminate.
  - vm_compute. reflexivity.
  - lia.
  - vm_compute. reflexivity.
  - vm_compute. reflexivity.
  - vm_compute. reflexivity.
  - vm_compute. reflexivity.
  - vm_compute. reflexivity.
  - reflexivity.
  - reflexivity.
  - exists mf'. auto.
Defined.

(** ** Freeing keeps the free list well-formed *)

Lemma disjoint_nodes_apart al (a c : blk) :
  blk_ok al a -> blk_ok al c -> disjoint_blk a c ->
  b_offset a + sizeof_free <= b_offset c \/ b_offset c + sizeof_free <= b_offset a.
Proof. unfold blk_ok, disjoint_blk, blk_end, sizeof_free. lia. Qed.

Lemma free_cons_wf mf L p s al :
  well_formed mf L ->
  rd64 mf f_allocated = Some al ->
  rd64 mf (p - sizeof_alloc) = Some s ->
  blk_ok al (Blk (p - sizeof_alloc) s) ->
  Forall (disjoint_blk (Blk (p - sizeof_alloc) s)) L ->
  exists mf',
    memfile_free mf p = Some mf' /\
    well_formed mf' (Blk (p - sizeof_alloc) s :: L) /\
    rd64 mf' f_allocated = Some al /\
    rd64 mf' f_file_size = rd64 mf f_file_size.
Proof.
  intros Hwf Hal Hs Hokb Hdisj.
  pose proof Hwf as [Hmap Hsz (h & Hh & Hc) (al0 & Hal0 & Hle & Hok) Hn Hd].
  assert (al0 = al) as -> by congruence.
  set (b := Blk (p - sizeof_alloc) s) in *.
  pose proof Hokb as (Hb1 & Hb2 & Hb3).
  unfold blk_end in Hb3. simpl in Hb1, Hb2, Hb3.
  assert (Hv : valid_offset mf p).
  { unfold valid_offset, sizeof_header, sizeof_alloc, sizeof_free in *. lia. }
  destruct (free_spec mf p s h Hmap Hv Hs Hh) as (mf1 & mf' & H1 & H2 & Hfree).
  destruct (free_post mf p s h Hmap Hv Hs Hh)
    as (mf'' & Hfree' & Hsz' & Hnx' & Hhd' & _ & _ & Hfs' & Hal' & Hm' & _ & Hl' & _).
  assert (mf'' = mf') as -> by congruence.
  assert (Hoff1 : off_nodes L (p - sizeof_alloc + f_next)).
  { rewrite Forall_forall in Hok, Hdisj. apply Forall_forall. intros c Hcin.
    pose proof (disjoint_nodes_apart al b c Hokb (Hok c Hcin) (Hdisj c Hcin)) as Hap.
    simpl in Hap. unfold sizeof_alloc, sizeof_free, f_next in *. lia. }
  assert (Hoff2 : off_nodes L f_free_list_head).
  { apply (blocks_off_nodes al L f_free_list_head Hok).
    unfold f_free_list_head, sizeof_header. lia. }
  exists mf'. split; [exact Hfree|]. split; [|split; [congruence|exact Hfs']].
  constructor.
  - congruence.
  - congruence.
  - exists (p - sizeof_alloc). split; [exact Hhd'|].
    simpl. split; [reflexivity|]. split.
    { apply memfile_ptr_ok; unfold sizeof_header, sizeof_alloc, sizeof_free in *; lia. }
    split; [exact Hsz'|]. exists h. split; [exact Hnx'|].
    eapply chain_wr64; [exact H2|exact Hoff2|].
    eapply chain_wr64; [exact H1|exact Hoff1|exact Hc].
  - exists al. split; [congruence|]. split; [congruence|].
    constructor; assumption.
  - apply NoDup_cons. split; [|exact Hn].
    intros Hin. rewrite Forall_forall in Hdisj. specialize (Hdisj b Hin).
    unfold disjoint_blk, blk_end, sizeof_free in *. simpl in Hdisj. lia.
  - rewrite Forall_forall in Hdisj.
    intros x y [->|Hx]%elem_of_cons [->|Hy]%elem_of_cons Hne.
    + congruence.
    + apply Hdisj, Hy.
    + destruct (Hdisj x Hx); [right|left]; assumption.
    + apply Hd; assumption.
Qed.

(** X11.  Freeing a live block keeps the free list well-formed.  In a
    state with the well-formed free list [L], for a block at [p - 8]
    whose header holds its size [s], that lies in
    [sizeof_header, allocated), has 16 bytes or more and meets no free
    block, [memfile_free] returns a state whose free list is that block
    followed by [L], well-formed again, with [allocated] and
    [file_size] as before. *)
Theorem free_keeps_well_formed mf L p s al :
  well_formed mf L ->
  rd64 mf f_allocated = Some al ->
  rd64 mf (p - sizeof_alloc) = Some s ->
  blk_ok al (Blk (p - sizeof_alloc) s) ->
  Forall (disjoint_blk (Blk (p - sizeof_alloc) s)) L ->
  exists mf',
    memfile_free mf p = Some mf' /\
    well_formed mf' (Blk (p - sizeof_alloc) s :: L) /\
    rd64 mf' f_allocated = Some al /\
    rd64 mf' f_file_size = rd64 mf f_file_size.
Proof. apply free_cons_wf. Qed.

Lemma one_alloc_wf : well_formed (run (snd <$> one_alloc)) [].
Proof.
  constructor.
  - vm_compute. reflexivity.
  - vm_compute. reflexivity.
  - exists 0. split; [vm_compute; reflexivity|reflexivity].
  - exists 144. split; [vm_compute; reflexivity|]. split; [vm_compute; discriminate|].
    constructor.
  - constructor.
  - intros a b Ha. inversion Ha.
Qed.

Lemma free_keeps_well_formed_witness :
  exists mf',
    memfile_free (run (snd <$> one_alloc)) 40 = Some mf' /\
    well_formed mf' [Blk 32 112].
Proof.
  destruct (free_keeps_well_formed (run (snd <$> one_alloc)) [] 40 112 144 one_alloc_wf)
    as (mf' & Hf & Hwf & _).
  - vm_compute. reflexivity.
  - vm_compute. reflexivity.
  - repeat split; vm_compute; discriminate.
  - constructor.
  - exists mf'. auto.
Defined.

(** ** Coalescing conserves the free space *)

Lemma free_bytes_perm (L L' : list blk) :
  L ≡ₚ L' -> free_bytes L = free_bytes L'.
Proof.
  unfold free_bytes. induction 1; simpl; lia.
Qed.

Lemma free_bytes_merge_from al rest :
  al < 2 ^ 64 ->
  forall cur,
  ordered (cur :: rest) -> Forall (blk_ok al) (cur :: rest) ->
  free_bytes (merge_from cur rest) = free_bytes (cur :: rest).
Proof.
  intros Hal. induction rest as [|x rest IH]; intros cur Ho Hok; [reflexivity|].
  pose proof Hok as [Hokc [Hokx Hokr]%Forall_cons]%Forall_cons.
  destruct Ho as [Hcx Ho].
  assert (Hnw : wrap64 (b_offset cur + b_size cur) = blk_end cur).
  { apply wrap64_small. unfold blk_ok, blk_end, sizeof_header, sizeof_free in *. lia. }
  simpl merge_from. rewrite Hnw.
  destruct (Z.eqb_spec (blk_end cur) (b_offset x)) as [Heq|Hne].
  - set (cur' := Blk (b_offset cur) (wrap64 (b_size cur + b_size x))).
    assert (Hsz : wrap64 (b_size cur + b_size x) = b_size cur + b_size x).
    { apply wrap64_small. unfold blk_ok, blk_end, sizeof_header, sizeof_free in *. lia. }
    assert (Hend : blk_end cur' = blk_end x).
    { unfold cur', blk_end in *. simpl. rewrite Hsz. lia. }
    rewrite (IH cur').
    + unfold free_bytes, cur'. simpl. rewrite Hsz. lia.
    + destruct rest as [|y rest]; [exact I|]. simpl in Ho |- *.
      rewrite Hend. exact Ho.
    + constructor; [|exact Hokr].
      unfold blk_ok in *. rewrite Hend. unfold cur'. simpl. rewrite Hsz.
      unfold sizeof_free, sizeof_header in *. lia.
  - assert (Hokxr : Forall (blk_ok al) (x :: rest)) by (constructor; assumption).
    change (free_bytes (cur :: merge_from x rest))
      with (b_size cur + free_bytes (merge_from x rest)).
    rewrite (IH x Ho Hokxr). reflexivity.
Qed.

(** The rebuilding loop writes inside the nodes only. *)
Lemma write_nodes_bytes (M : list blk) :
  forall mf mf', write_nodes M mf = Some mf' ->
  forall i : nat,
  Forall (fun b => Z.of_nat i < b_offset b \/
                   b_offset b + sizeof_free <= Z.of_nat i) M ->
  mmap_base mf' !! i = mmap_base mf !! i.
Proof.
  induction M as [|b M IH]; intros mf mf' Hw i Hi.
  - injection Hw as <-. reflexivity.
  - apply Forall_cons in Hi as [Hb Hi]. simpl in Hw.
    destruct (memfile_ptr mf (b_offset b)) as [block|] eqn:Hp; [|discriminate].
    apply memfile_ptr_Some in Hp as (-> & _ & _). simpl in Hw.
    destruct (wr64 mf (b_offset b + f_size) (b_size b)) as [mf1|] eqn:H1; [|discriminate].
    simpl in Hw.
    destruct (wr64 mf1 (b_offset b + f_next) _) as [mf2|] eqn:H2; [|discriminate].
    simpl in Hw. rewrite (IH mf2 mf' Hw i Hi).
    unfold f_size, f_next, sizeof_free in *.
    rewrite (wr64_lookup_other _ _ _ _ i H2) by lia.
    apply (wr64_lookup_other _ _ _ _ i H1). lia.
Qed.

(** X12.  Coalescing conserves the free space and touches nothing
    else.  On a well-formed free list of fewer than 2^31 blocks
    [memfile_coalesce] returns with a free list that holds exactly as
    many bytes as before; [allocated], [file_size] and the sizes of the
    mapping and of the file are unchanged, and so is every byte outside
    [free_list_head] and outside the 16-byte nodes of the blocks that
    were free, so that no live allocation is written to. *)
Theorem coalesce_conserves mf L :
  well_formed mf L -> Z.of_nat (length L) < 2 ^ 31 ->
  exists mf' M,
    memfile_coalesce mf = Some mf' /\
    free_list_is mf' M /\
    free_bytes M = free_bytes L /\
    rd64 mf' f_allocated = rd64 mf f_allocated /\
    rd64 mf' f_file_size = rd64 mf f_file_size /\
    mmap_size mf' = mmap_size mf /\ file_len mf' = file_len mf /\
    forall i : nat,
      outside f_free_list_head i ->
      Forall (fun b => Z.of_nat i < b_offset b \/
                       b_offset b + sizeof_free <= Z.of_nat i) L ->
      mmap_base mf' !! i = mmap_base mf !! i.
Proof.
  intros Hwf Hbound. pose proof (wf_length mf L Hwf) as Hfuel.
  pose proof Hwf as [Hmap Hsz (h & Hh & Hc) (al & Hal & Hle & Hok) Hn Hd].
  assert (Hfl : free_list_is mf L) by (exists h; auto).
  unfold memfile_coalesce. rewrite Hh. simpl.
  destruct L as [|b0 [|b1 L]].
  - (* empty list *)
    simpl in Hc. subst h. simpl. exists mf, [].
    split; [reflexivity|]. split; [exact Hfl|]. repeat split; reflexivity.
  - (* one block *)
    pose proof Hc as (-> & (_ & Hnz & _)%memfile_ptr_Some & _).
    destruct (Z.eqb_spec (b_offset b0) 0) as [?|_]; [contradiction|].
    rewrite (chain_count mf [b0] (b_offset b0) (walk_fuel mf) 0 Hc Hfuel) by (simpl; lia).
    simpl. exists mf, [b0].
    split; [reflexivity|]. split; [exact Hfl|]. repeat split; reflexivity.
  - (* two blocks or more *)
    pose proof Hc as (-> & (_ & Hnz & _)%memfile_ptr_Some & _).
    destruct (Z.eqb_spec (b_offset b0) 0) as [?|_]; [contradiction|].
    set (L0 := b0 :: b1 :: L) in *.
    rewrite (chain_count mf L0 (b_offset b0) (walk_fuel mf) 0 Hc Hfuel) by lia.
    cbn [mbind option_bind].
    destruct (Z.ltb_spec (0 + Z.of_nat (length L0)) 2) as [Hlt|_];
      [unfold L0 in Hlt; simpl length in Hlt; lia|].
    rewrite Z.add_0_l, Nat2Z.id.
    rewrite (chain_collect mf L0 (b_offset b0) Hc). cbn [mbind option_bind].
    (* the sort *)
    destruct (sort_loop_spec (b1 :: L) [b0]) as (S0 & Hsort & Hperm & Hsorted & _).
    { repeat constructor. }
    { unfold L0 in Hbound. simpl length in *. lia. }
    change (sort_loop (length L0 - 1) 1 L0)
      with (sort_loop (length (b1 :: L)) (length [b0]) ([b0] ++ b1 :: L)).
    rewrite Hsort. cbn [mbind option_bind]. change ([b0] ++ b1 :: L) with L0 in Hperm.
    assert (HnS : NoDup S0) by (rewrite <- Hperm; exact Hn).
    assert (HokS : Forall (blk_ok al) S0) by (rewrite <- Hperm; exact Hok).
    assert (HdS : forall a b, a ∈ S0 -> b ∈ S0 -> a <> b -> disjoint_blk a b).
    { intros a b Ha Hb. rewrite <- Hperm in Ha, Hb. auto. }
    pose proof (sorted_ordered al S0 Hsorted HnS HdS HokS) as Hord.
    pose proof (Permutation_length Hperm) as HlenS.
    destruct S0 as [|s0 srest]; [discriminate HlenS|].
    (* the merge *)
    destruct (merge_loop_all s0 srest) as (arr' & Hmerge & Htake).
    rewrite HlenS. simpl length. rewrite Hmerge. cbn [mbind option_bind].
    assert (Hal64 : al < 2 ^ 64) by lia.
    destruct (merge_from_spec al srest Hal64 s0 Hord HokS) as (Hsep & HokM & Hsub).
    destruct (merge_from_head s0 srest) as (c & tl & HM & Hc0).
    set (M := merge_from s0 srest) in *.
    assert (Harr0 : arr' !! 0%nat = Some c).
    { assert (Ht0 : take (length M) arr' !! 0%nat = Some c) by (rewrite Htake, HM; reflexivity).
      rewrite lookup_take in Ht0. destruct (decide (0 < length M)%nat); [exact Ht0|discriminate]. }
    rewrite Harr0. cbn [mbind option_bind].
    (* the new head *)
    pose proof HokM as HokM'. rewrite HM in HokM'.
    apply Forall_cons in HokM' as [(Hc1 & Hc2 & Hc3) _].
    unfold blk_end, sizeof_header, sizeof_free in Hc1, Hc2, Hc3.
    destruct (wr64_defined mf f_free_list_head (b_offset c)) as [mf1 H1];
      [unfold f_free_list_head; lia..|].
    rewrite H1. cbn [mbind option_bind].
    pose proof (wr64_length _ _ _ _ H1) as Hl1.
    pose proof (wr64_mmap_size _ _ _ _ H1) as Hm1.
    (* the rebuilt list *)
    assert (Hreb : rebuild_loop (length M) 0 (length M) arr' mf1 = write_nodes M mf1).
    { rewrite <- (take_drop (length M) arr') at 1. rewrite Htake.
      apply (rebuild_loop_nodes M [] (drop (length M) arr') mf1); reflexivity. }
    rewrite Hreb.
    destruct (write_nodes_spec M mf1) as (mf' & Hw & Hchain & Hfr & Hm' & Hl' & Hf').
    { congruence. } { congruence. }
    { eapply Forall_impl; [exact HokM|]. intros x Hx.
      eapply blk_ok_node; [| |exact Hx]; lia. }
    { eapply separated_nodes; eauto. }
    assert (Hoff : forall q, 0 <= q -> q + 8 <= 32 -> off_nodes M q).
    { intros q Hq0 Hq. eapply Forall_impl; [exact HokM|].
      unfold blk_ok, sizeof_header. simpl. intros; lia. }
    assert (Hhead' : rd64 mf' f_free_list_head = Some (head_offset M)).
    { rewrite Hfr by (apply Hoff; unfold f_free_list_head; lia).
      rewrite (rd64_wr64_same _ _ _ _ H1), HM. simpl.
      f_equal. apply wrap64_small. lia. }
    assert (Hal' : rd64 mf' f_allocated = Some al).
    { rewrite Hfr by (apply Hoff; unfold f_allocated; lia).
      rewrite (rd64_wr64_other _ _ _ _ _ H1) by (unfold f_allocated, f_free_list_head; lia).
      exact Hal. }
    exists mf', M. split; [exact Hw|].
    split; [exists (head_offset M); auto|].
    split; [|split; [congruence|split; [|split; [congruence|split]]]].
    + unfold M. rewrite (free_bytes_merge_from al srest Hal64 s0 Hord HokS).
      symmetry. apply free_bytes_perm, Hperm.
    + rewrite Hfr by (apply Hoff; unfold f_file_size; lia).
      apply (rd64_wr64_other _ _ _ _ _ H1). unfold f_file_size, f_free_list_head. lia.
    + rewrite Hf'. apply (wr64_file_len _ _ _ _ H1).
    + intros i Hi1 Hi2.
      rewrite (write_nodes_bytes M mf1 mf' Hw i).
      * apply (wr64_lookup_other _ _ _ _ i H1). exact Hi1.
      * rewrite Forall_forall in Hi2. eapply Forall_impl; [exact Hsub|]. simpl.
        intros x (b & Hb & Hx). rewrite Hx. apply Hi2. rewrite Hperm. exact Hb.
Qed.

Lemma coalesce_conserves_witness :
  exists mf' M,
    memfile_coalesce (run three_freed) = Some mf' /\
    free_list_is mf' M /\
    free_bytes M = free_bytes three_freed_list.
Proof.
  destruct (coalesce_conserves (run three_freed) three_freed_list three_freed_wf)
    as (mf' & M & H1 & H2 & H3 & _).
  - vm_compute. reflexivity.
  - exists mf', M. auto.
Defined.

(** ** Allocation from the free list *)

Lemma chain_to_app mf (l1 l2 : list blk) t :
  forall h,
  chain_to mf h (l1 ++ l2) t <->
  exists m, chain_to mf h l1 m /\ chain_to mf m l2 t.
Proof.
  induction l1 as [|b l1 IH]; intros h; simpl.
  - split; [intros H; exists h; auto|intros (m & -> & H); exact H].
  - split.
    + intros (H1 & H2 & H3 & n & Hn & Hc). apply IH in Hc as (m & Hc1 & Hc2).
      exists m. split; [|exact Hc2]. repeat split; auto. exists n. auto.
    + intros (m & (H1 & H2 & H3 & n & Hn & Hc1) & Hc2).
      repeat split; auto. exists n. split; [exact Hn|]. apply IH. eauto.
Qed.

Lemma last_offset_snoc prev (l : list blk) c :
  last_offset prev (l ++ [c]) = b_offset c.
Proof. unfold last_offset. rewrite last_snoc. reflexivity. Qed.

(** A write of 8 bytes inside a block meets no node of a block that is
    disjoint from it. *)
Lemma off_nodes_inside al (b : blk) (L : list blk) w :
  Forall (blk_ok al) L -> Forall (disjoint_blk b) L ->
  b_offset b <= w -> w + 8 <= blk_end b ->
  off_nodes L w.
Proof.
  intros Hok Hd H1 H2. rewrite Forall_forall in Hok, Hd.
  apply Forall_forall. intros x Hx.
  specialize (Hok x Hx). specialize (Hd x Hx).
  unfold blk_ok, disjoint_blk, blk_end, sizeof_free in *. lia.
Qed.

(** The link that leads to the block the loop stops at: [free_list_head]
    when no block was passed, the [next] of the last block passed
    otherwise.  Writing [v] there makes the passed blocks a segment
    that ends at [v], and changes no other word. *)
Lemma relink mf h (pre : list blk) t v :
  mmap_size mf = Z.of_nat (length (mmap_base mf)) ->
  rd64 mf f_free_list_head = Some h -> chain_to mf h pre t ->
  Forall (fun x => sizeof_header <= b_offset x /\
                   b_offset x + sizeof_free <= mmap_size mf) pre ->
  (forall x c, x ∈ pre -> c ∈ pre -> x <> c ->
     b_offset x + sizeof_free <= b_offset c \/ b_offset c + sizeof_free <= b_offset x) ->
  NoDup pre ->
  0 <= v < 2 ^ 64 ->
  exists mf1 h',
    (if last_offset 0 pre =? 0 then wr64 mf f_free_list_head v
     else prev ← memfile_ptr mf (last_offset 0 pre); wr64 mf (prev + f_next) v)
    = Some mf1 /\
    rd64 mf1 f_free_list_head = Some h' /\ chain_to mf1 h' pre v /\
    mmap_size mf1 = mmap_size mf /\
    length (mmap_base mf1) = length (mmap_base mf) /\
    file_len mf1 = file_len mf /\
    forall q,
      q + 8 <= f_free_list_head \/ sizeof_header <= q ->
      Forall (fun c => q + 8 <= b_offset c + f_next \/ b_offset c + sizeof_free <= q) pre ->
      rd64 mf1 q = rd64 mf q.
Proof.
  intros Hmap Hh Hc Hin Hap Hnd Hv.
  unfold sizeof_header, sizeof_free, f_free_list_head, f_next in *.
  destruct pre as [|c0 pre0] using rev_ind.
  - (* no block passed: the head is written *)
    simpl in Hc. subst t. simpl (last_offset 0 [] =? 0).
    cbv iota.
    assert (Hlen : 32 <= Z.of_nat (length (mmap_base mf))).
    { apply MemFacts.load64_Some in Hh. lia. }
    destruct (wr64_defined mf 24 v) as [mf1 H1]; [lia..|].
    exists mf1, v. split; [exact H1|].
    split; [rewrite (rd64_wr64_same _ _ _ _ H1); f_equal; apply wrap64_small; exact Hv|].
    split; [reflexivity|].
    split; [apply (wr64_mmap_size _ _ _ _ H1)|].
    split; [apply (wr64_length _ _ _ _ H1)|].
    split; [apply (wr64_file_len _ _ _ _ H1)|].
    intros q Hq _. apply (rd64_wr64_other _ _ _ _ _ H1). lia.
  - (* the last block passed gets the new [next] *)
    clear IHpre0. rename c0 into c.
    apply chain_to_app in Hc as (m & Hc0 & (-> & Hp & Hs & n & Hn & ->)).
    pose proof Hp as (_ & Hnz & Hlt)%memfile_ptr_Some.
    apply Forall_app in Hin as [Hin0 [[Hc1 Hc2] _]%Forall_cons].
    rewrite last_offset_snoc.
    destruct (Z.eqb_spec (b_offset c) 0) as [?|_]; [contradiction|].
    rewrite Hp. cbn [mbind option_bind].
    destruct (wr64_defined mf (b_offset c + 8) v) as [mf1 H1]; [lia..|].
    exists mf1, h. split; [exact H1|].
    assert (Hm1 := wr64_mmap_size _ _ _ _ H1).
    split; [rewrite (rd64_wr64_other _ _ _ _ 24 H1) by lia; exact Hh|].
    split; [|split; [exact Hm1|split; [apply (wr64_length _ _ _ _ H1)|
             split; [apply (wr64_file_len _ _ _ _ H1)|]]]].
    + apply chain_to_app. exists (b_offset c). split.
      * apply (chain_to_ext mf mf1 pre0 (b_offset c) Hm1); [|exact Hc0].
        apply Forall_forall. intros x Hx.
        assert (Hne : x <> c).
        { intros ->. apply NoDup_app in Hnd as (_ & Hnd & _).
          apply (Hnd c Hx). apply elem_of_cons. auto. }
        assert (Hxc := Hap x c ltac:(apply elem_of_app; auto)
                         ltac:(apply elem_of_app; right; apply elem_of_cons; auto) Hne).
        unfold f_size, f_next.
        split; apply (rd64_wr64_other _ _ _ _ _ H1); lia.
      * simpl. split; [reflexivity|]. split.
        { unfold memfile_ptr in *. rewrite Hm1. exact Hp. }
        split.
        { unfold f_size in *. rewrite (rd64_wr64_other _ _ _ _ _ H1) by lia. exact Hs. }
        exists v. split; [|reflexivity].
        unfold f_next. rewrite (rd64_wr64_same _ _ _ _ H1). f_equal.
        apply wrap64_small. exact Hv.
    + intros q Hq Hqs. apply Forall_app in Hqs as [_ [Hqc _]%Forall_cons].
      apply (rd64_wr64_other _ _ _ _ _ H1). lia.
Qed.

(** What a well-formed list tells about one of its blocks and the
    others. *)
Lemma wf_split_facts mf (pre : list blk) b post al :
  well_formed mf (pre ++ b :: post) -> rd64 mf f_allocated = Some al ->
  al <= mmap_size mf /\
  blk_ok al b /\ Forall (blk_ok al) (pre ++ post) /\
  Forall (disjoint_blk b) (pre ++ post) /\
  NoDup (pre ++ post) /\
  (forall x y, x ∈ pre ++ post -> y ∈ pre ++ post -> x <> y -> disjoint_blk x y).
Proof.
  intros [_ _ _ (al0 & Hal0 & Hle & Hok) Hn Hd] Hal.
  assert (al0 = al) as -> by congruence.
  assert (Hperm : pre ++ b :: post ≡ₚ b :: (pre ++ post))
    by (symmetry; apply Permutation_middle).
  rewrite Hperm in Hok, Hn.
  apply Forall_cons in Hok as [Hokb Hok]. apply NoDup_cons in Hn as [Hnb Hn].
  assert (Hsub : forall x, x ∈ pre ++ post -> x ∈ pre ++ b :: post).
  { intros x Hx. rewrite Hperm. apply elem_of_cons. auto. }
  split; [exact Hle|]. split; [exact Hokb|]. split; [exact Hok|].
  split; [|split; [exact Hn|]].
  - apply Forall_forall. intros x Hx. apply Hd.
    + rewrite Hperm. apply elem_of_cons. auto.
    + apply Hsub, Hx.
    + intros ->. contradiction.
  - intros x y Hx Hy. apply Hd; apply Hsub; assumption.
Qed.

(** The first-fit loop reaches the first block that is large enough. *)
Lemma first_fit_reach mf (pre : list blk) b post total :
  well_formed mf (pre ++ b :: post) ->
  Forall (fun x => b_size x < total) pre ->
  exists h nx k,
    rd64 mf f_free_list_head = Some h /\
    chain_to mf h pre (b_offset b) /\
    memfile_ptr mf (b_offset b) = Some (b_offset b) /\
    rd64 mf (b_offset b + f_size) = Some (b_size b) /\
    rd64 mf (b_offset b + f_next) = Some nx /\
    chain_to mf nx post 0 /\
    alloc_search (walk_fuel mf) mf total 0 h
    = alloc_search (S k) mf total (last_offset 0 pre) (b_offset b).
Proof.
  intros Hwf Hsmall. pose proof (wf_length _ _ Hwf) as Hfuel.
  pose proof Hwf as [_ _ (h & Hh & Hc) _ _ _].
  apply chain_to_0, chain_to_app in Hc as (m & Hc1 & (-> & Hp & Hs & nx & Hnx & Hc2)).
  rewrite length_app in Hfuel. simpl length in Hfuel.
  exists h, nx, (walk_fuel mf - length pre - 1)%nat.
  repeat (split; [assumption|]).
  replace (walk_fuel mf) with (length pre + S (walk_fuel mf - length pre - 1))%nat at 1
    by lia.
  apply alloc_search_skip; assumption.
Qed.

Lemma nodes_of_blocks al len (L : list blk) :
  al <= len -> Forall (blk_ok al) L ->
  Forall (fun x => sizeof_header <= b_offset x /\ b_offset x + sizeof_free <= len) L.
Proof.
  intros Hle Hok. eapply Forall_impl; [exact Hok|].
  unfold blk_ok, blk_end, sizeof_free. intros x. lia.
Qed.

Lemma first_fit_whole_spec os mf (pre : list blk) b post size al :
  well_formed mf (pre ++ b :: post) ->
  rd64 mf f_allocated = Some al ->
  Forall (fun x => b_size x < alloc_total size) pre ->
  alloc_total size <= b_size b ->
  b_size b - alloc_total size < sizeof_free + 8 ->
  exists mf',
    memfile_alloc os mf size = Some (b_offset b + sizeof_alloc, mf') /\
    rd64 mf' (b_offset b) = Some (b_size b) /\
    well_formed mf' (pre ++ post) /\
    rd64 mf' f_allocated = Some al /\
    rd64 mf' f_file_size = rd64 mf f_file_size /\
    mmap_size mf' = mmap_size mf.
Proof.
  intros Hwf Hal Hsmall Hfit Hrem.
  destruct (wf_split_facts mf pre b post al Hwf Hal)
    as (Hle & Hokb & Hok & Hdb & Hnd & Hdd).
  destruct (first_fit_reach mf pre b post (alloc_total size) Hwf Hsmall)
    as (h & nx & k & Hh & Hc1 & Hp & Hs & Hnx & Hc2 & Hsearch).
  pose proof Hwf as [Hmap Hsz _ _ _ _].
  pose proof (rd64_range _ _ _ Hnx) as Hnxr.
  pose proof Hok as [Hokpre Hokpost]%Forall_app.
  pose proof Hdb as [Hdbpre Hdbpost]%Forall_app.
  assert (Hap : forall x c, x ∈ pre ++ post -> c ∈ pre ++ post -> x <> c ->
            b_offset x + sizeof_free <= b_offset c \/ b_offset c + sizeof_free <= b_offset x).
  { intros x c Hx Hc Hne. rewrite Forall_forall in Hok.
    eapply disjoint_nodes_apart; eauto. }
  destruct (relink mf h pre (b_offset b) nx Hmap Hh Hc1)
    as (mf1 & h' & Hlink & Hh' & Hc1' & Hm1 & Hl1 & _ & Hfr); auto.
  { apply (nodes_of_blocks al); assumption. }
  { intros x c Hx Hc. apply Hap; apply elem_of_app; auto. }
  { apply NoDup_app in Hnd as (Hnd & _). exact Hnd. }
  (* words away from the header and from the blocks passed *)
  assert (Hpre_b : forall q, b_offset b <= q -> q + 8 <= blk_end b ->
            Forall (fun c => q + 8 <= b_offset c + f_next \/
                             b_offset c + sizeof_free <= q) pre).
  { intros q Hq1 Hq2.
    pose proof (off_nodes_inside al b pre q Hokpre Hdbpre Hq1 Hq2) as Ho.
    eapply Forall_impl; [exact Ho|]. unfold f_next. simpl. intros; lia. }
  pose proof Hokb as (Hb1 & Hb2 & Hb3).
  unfold blk_end, sizeof_header, sizeof_free, sizeof_alloc, f_size, f_next in *.
  assert (Hsb : rd64 mf1 (b_offset b) = Some (b_size b)).
  { rewrite Hfr; [rewrite <- Hs; f_equal; lia|unfold f_free_list_head; lia|].
    apply Hpre_b; lia. }
  exists mf1.
  split; [|split; [exact Hsb|split; [|split; [|split; [|exact Hm1]]]]].
  - unfold memfile_alloc. rewrite Hh. cbn [mbind option_bind].
    rewrite Hsearch. simpl alloc_search.
    pose proof Hp as (_ & Hnz & Hlt)%memfile_ptr_Some.
    destruct (Z.eqb_spec (b_offset b) 0) as [?|_]; [contradiction|].
    rewrite Hp. cbn [mbind option_bind].
    unfold f_size, f_next, sizeof_free, sizeof_alloc. rewrite Hs. cbn [mbind option_bind].
    destruct (Z.leb_spec (alloc_total size) (b_size b)); [|lia].
    destruct (Z.leb_spec (16 + 8) (b_size b - alloc_total size)); [lia|].
    rewrite Hnx. cbn [mbind option_bind].
    unfold f_next in Hlink. rewrite Hlink. cbn [mbind option_bind].
    rewrite (memfile_ptr_ok mf1 (b_offset b)) by (rewrite ?Hm1; lia).
    cbn [mbind option_bind]. rewrite (wr64_id _ _ _ Hsb). cbn [mbind option_bind].
    rewrite (wrap64_small (b_offset b + 8)) by lia. reflexivity.
  - (* the list without the block *)
    assert (Hwords : Forall (fun x =>
              rd64 mf1 (b_offset x + 0) = rd64 mf (b_offset x + 0) /\
              rd64 mf1 (b_offset x + 8) = rd64 mf (b_offset x + 8)) post).
    { apply Forall_forall. intros x Hx.
      assert (Hxin : x ∈ pre ++ post) by (apply elem_of_app; auto).
      rewrite Forall_forall in Hokpost. pose proof (Hokpost x Hx) as (Hx1 & Hx2 & Hx3).
      assert (Hxp : forall q, b_offset x <= q -> q + 8 <= b_offset x + 16 ->
                Forall (fun c => q + 8 <= b_offset c + 8 \/ b_offset c + 16 <= q) pre).
      { intros q Hq1 Hq2. apply Forall_forall. intros c Hc.
        assert (Hne : x <> c).
        { intros ->. apply NoDup_app in Hnd as (_ & Hnd' & _). exact (Hnd' c Hc Hx). }
        pose proof (Hap x c Hxin ltac:(apply elem_of_app; auto) Hne). lia. }
      unfold blk_end, sizeof_header, sizeof_free in *.
      split; apply Hfr; try (unfold f_free_list_head; lia); apply Hxp; lia. }
    constructor.
    + congruence.
    + congruence.
    + exists h'. split; [exact Hh'|]. apply chain_to_0, chain_to_app.
      exists nx. split; [exact Hc1'|].
      apply (chain_to_ext mf mf1 post 0 Hm1); [|exact Hc2]. exact Hwords.
    + exists al. split; [|split; [congruence|exact Hok]].
      rewrite Hfr; [exact Hal|unfold f_allocated, f_free_list_head; lia|].
      eapply Forall_impl; [exact (nodes_of_blocks al _ pre Hle Hokpre)|].
      unfold f_allocated, sizeof_header, sizeof_free. simpl. intros; lia.
    + exact Hnd.
    + exact Hdd.
  - rewrite Hfr; [exact Hal|unfold f_allocated, f_free_list_head; lia|].
    eapply Forall_impl; [exact (nodes_of_blocks al _ pre Hle Hokpre)|].
    unfold f_allocated, sizeof_header, sizeof_free. simpl. intros; lia.
  - apply Hfr; [unfold f_file_size, f_free_list_head; lia|].
    eapply Forall_impl; [exact (nodes_of_blocks al _ pre Hle Hokpre)|].
    unfold f_file_size, sizeof_header, sizeof_free. simpl. intros; lia.
Qed.

(** X13.  First fit, whole block.  In a well-formed state, when the
    blocks before [b] in the free list are too small for the request
    and [b] is large enough but would leave fewer than 24 bytes,
    [memfile_alloc] returns [b]'s offset plus 8 without any system
    call, keeps the whole size of [b] in its header, and unlinks [b]:
    the free list is the list before without [b], well-formed again;
    [allocated], [file_size] and the size of the mapping are
    unchanged. *)
Theorem alloc_first_fit_whole os mf (pre : list blk) b post size al :
  well_formed mf (pre ++ b :: post) ->
  rd64 mf f_allocated = Some al ->
  Forall (fun x => b_size x < alloc_total size) pre ->
  alloc_total size <= b_size b ->
  b_size b - alloc_total size < sizeof_free + 8 ->
  exists mf',
    memfile_alloc os mf size = Some (b_offset b + sizeof_alloc, mf') /\
    rd64 mf' (b_offset b) = Some (b_size b) /\
    well_formed mf' (pre ++ post) /\
    rd64 mf' f_allocated = Some al /\
    rd64 mf' f_file_size = rd64 mf f_file_size /\
    mmap_size mf' = mmap_size mf.
Proof. apply first_fit_whole_spec. Qed.

Lemma small_then_large_wf :
  well_formed (run small_then_large) ([Blk 32 16] ++ Blk 48 112 :: []).
Proof.
  constructor.
  - vm_compute. reflexivity.
  - vm_compute. reflexivity.
  - exists 32. split; [vm_compute; reflexivity|].
    simpl. split; [reflexivity|]. split; [vm_compute; reflexivity|].
    split; [vm_compute; reflexivity|]. exists 48. split; [vm_compute; reflexivity|].
    split; [reflexivity|]. split; [vm_compute; reflexivity|].
    split; [vm_compute; reflexivity|]. exists 0. split; [vm_compute; reflexivity|].
    reflexivity.
  - exists 176. split; [vm_compute; reflexivity|]. split; [vm_compute; discriminate|].
    repeat constructor; simpl; unfold blk_end, sizeof_header, sizeof_free; simpl; lia.
  - apply (bool_decide_unpack _). vm_compute. reflexivity.
  - intros a b Ha Hb Hne. simpl in Ha, Hb.
    rewrite !elem_of_cons, elem_of_nil in Ha, Hb.
    destruct Ha as [->|[->|[]]]; destruct Hb as [->|[->|[]]];
      try congruence; unfold disjoint_blk, blk_end; simpl; lia.
Qed.

Lemma alloc_first_fit_whole_witness :
  exists mf',
    memfile_alloc all_ok (run small_then_large) 100 = Some (48 + sizeof_alloc, mf') /\
    well_formed mf' ([Blk 32 16] ++ []).
Proof.
  destruct (alloc_first_fit_whole all_ok (run small_then_large) [Blk 32 16] (Blk 48 112) []
              100 176 small_then_large_wf) as (mf' & Ha & _ & Hwf & _).
  - vm_compute. reflexivity.
  - repeat constructor.
  - vm_compute. discriminate.
  - vm_compute. reflexivity.
  - exists mf'. auto.
Defined.

Lemma first_fit_split_spec os mf (pre : list blk) b post size al :
  well_formed mf (pre ++ b :: post) ->
  rd64 mf f_allocated = Some al ->
  Forall (fun x => b_size x < alloc_total size) pre ->
  sizeof_free <= alloc_total size ->
  sizeof_free + 8 <= b_size b - alloc_total size ->
  exists mf',
    memfile_alloc os mf size = Some (b_offset b + sizeof_alloc, mf') /\
    rd64 mf' (b_offset b) = Some (alloc_total size) /\
    well_formed mf'
      (pre ++ Blk (b_offset b + alloc_total size) (b_size b - alloc_total size) :: post) /\
    rd64 mf' f_allocated = Some al /\
    rd64 mf' f_file_size = rd64 mf f_file_size /\
    mmap_size mf' = mmap_size mf.
Proof.
  intros Hwf Hal Hsmall Htot Hrem.
  destruct (wf_split_facts mf pre b post al Hwf Hal)
    as (Hle & Hokb & Hok & Hdb & Hnd & Hdd).
  destruct (first_fit_reach mf pre b post (alloc_total size) Hwf Hsmall)
    as (h & nx & k & Hh & Hc1 & Hp & Hs & Hnx & Hc2 & Hsearch).
  pose proof Hwf as [Hmap Hsz _ _ _ _].
  pose proof (rd64_range _ _ _ Hnx) as Hnxr.
  pose proof Hok as [Hokpre Hokpost]%Forall_app.
  pose proof Hdb as [Hdbpre Hdbpost]%Forall_app.
  set (total := alloc_total size) in *.
  set (new := b_offset b + total).
  set (rem := b_size b - total).
  assert (Hap : forall x c, x ∈ pre ++ post -> c ∈ pre ++ post -> x <> c ->
            b_offset x + sizeof_free <= b_offset c \/ b_offset c + sizeof_free <= b_offset x).
  { intros x c Hx Hc Hne. rewrite Forall_forall in Hok.
    eapply disjoint_nodes_apart; eauto. }
  pose proof Hokb as (Hb1 & Hb2 & Hb3).
  pose proof Hp as (_ & Hnz & Hlt)%memfile_ptr_Some.
  unfold blk_end, sizeof_header, sizeof_free, sizeof_alloc, f_size, f_next in *.
  (* the four writes *)
  destruct (wr64_defined mf (new + 0) rem) as [mfa Ha]; [unfold new; lia..|].
  assert (Hma := wr64_mmap_size _ _ _ _ Ha). assert (Hla := wr64_length _ _ _ _ Ha).
  destruct (wr64_defined mfa (new + 8) nx) as [mfb Hb]; [unfold new; lia..|].
  assert (Hmb := wr64_mmap_size _ _ _ _ Hb). assert (Hlb := wr64_length _ _ _ _ Hb).
  assert (Hin_b : forall w, b_offset b <= w -> w + 8 <= b_offset b + b_size b ->
            off_nodes (pre ++ post) w).
  { intros w Hw1 Hw2. apply (off_nodes_inside al b); auto. }
  assert (Fa := wr64_off_nodes _ _ _ _ (pre ++ post) Ha
                  (Hin_b (new + 0) ltac:(unfold new; lia) ltac:(unfold new; lia))).
  assert (Fb := wr64_off_nodes _ _ _ _ (pre ++ post) Hb
                  (Hin_b (new + 8) ltac:(unfold new; lia) ltac:(unfold new; lia))).
  assert (Fab : Forall (fun x =>
            rd64 mfb (b_offset x + f_size) = rd64 mf (b_offset x + f_size) /\
            rd64 mfb (b_offset x + f_next) = rd64 mf (b_offset x + f_next)) (pre ++ post)).
  { rewrite Forall_forall in Fa, Fb. apply Forall_forall. intros x Hx.
    destruct (Fa x Hx), (Fb x Hx). split; congruence. }
  pose proof Fab as [Fabpre Fabpost]%Forall_app.
  assert (Hhb : rd64 mfb f_free_list_head = Some h).
  { unfold f_free_list_head in *.
    rewrite (rd64_wr64_other _ _ _ _ 24 Hb) by (unfold new; lia).
    rewrite (rd64_wr64_other _ _ _ _ 24 Ha) by (unfold new; lia). exact Hh. }
  destruct (relink mfb h pre (b_offset b) new) as
    (mfc & h' & Hlink & Hh' & Hc1' & Hmc & Hlc & _ & Hfr); auto.
  { congruence. }
  { apply (chain_to_ext mf mfb pre (b_offset b)); [congruence|exact Fabpre|exact Hc1]. }
  { rewrite Hmb, Hma. apply (nodes_of_blocks al); assumption. }
  { intros x c Hx Hc. apply Hap; apply elem_of_app; auto. }
  { apply NoDup_app in Hnd as (Hnd & _). exact Hnd. }
  { unfold new. lia. }
  destruct (wr64_defined mfc (b_offset b) total) as [mfd Hd];
    [rewrite ?Hlc, ?Hlb, ?Hla; lia..|].
  assert (Hmd := wr64_mmap_size _ _ _ _ Hd). assert (Hld := wr64_length _ _ _ _ Hd).
  assert (Fd := wr64_off_nodes _ _ _ _ (pre ++ post) Hd
                  (Hin_b (b_offset b) ltac:(lia) ltac:(lia))).
  pose proof Fd as [Fdpre Fdpost]%Forall_app.
  (* words away from the header and from the blocks passed *)
  assert (Hpre_b : forall q, b_offset b <= q -> q + 8 <= b_offset b + b_size b ->
            Forall (fun c => q + 8 <= b_offset c + 8 \/ b_offset c + 16 <= q) pre).
  { intros q Hq1 Hq2. pose proof (Hin_b q Hq1 Hq2) as [Ho _]%Forall_app.
    eapply Forall_impl; [exact Ho|]. unfold sizeof_free. simpl. intros; lia. }
  assert (Hhdr : forall q, 0 <= q -> q + 8 <= 24 ->
            Forall (fun c => q + 8 <= b_offset c + 8 \/ b_offset c + 16 <= q) pre).
  { intros q Hq0 Hq. eapply Forall_impl; [exact (nodes_of_blocks al _ pre Hle Hokpre)|].
    unfold sizeof_header, sizeof_free. simpl. intros; lia. }
  exists mfd.
  split; [|split; [|split; [|split; [|split]]]].
  - unfold memfile_alloc. fold total. rewrite Hh. cbn [mbind option_bind].
    rewrite Hsearch. simpl alloc_search.
    destruct (Z.eqb_spec (b_offset b) 0) as [?|_]; [contradiction|].
    rewrite Hp. cbn [mbind option_bind].
    unfold f_size, f_next, sizeof_free, sizeof_alloc. rewrite Hs. cbn [mbind option_bind].
    destruct (Z.leb_spec total (b_size b)); [|lia].
    destruct (Z.leb_spec (16 + 8) (b_size b - total)); [|lia].
    rewrite (wrap64_small (b_offset b + total)) by lia. fold new. fold rem.
    rewrite (memfile_ptr_ok mf new) by (unfold new; lia). cbn [mbind option_bind].
    rewrite Ha. cbn [mbind option_bind].
    rewrite (rd64_wr64_other _ _ _ _ _ Ha) by (unfold new; lia).
    rewrite Hnx. cbn [mbind option_bind]. rewrite Hb. cbn [mbind option_bind].
    unfold f_next in Hlink. rewrite Hlink. cbn [mbind option_bind].
    rewrite (memfile_ptr_ok mfc (b_offset b)) by (rewrite ?Hmc, ?Hmb, ?Hma; lia).
    cbn [mbind option_bind]. rewrite Hd. cbn [mbind option_bind].
    rewrite (wrap64_small (b_offset b + 8)) by lia. reflexivity.
  - rewrite (rd64_wr64_same _ _ _ _ Hd). f_equal. apply wrap64_small.
    pose proof (alloc_total_aligned size) as [_ Hr]. fold total in Hr. lia.
  - (* the list with the remainder in the block's place *)
    set (b' := Blk new rem).
    assert (Hokb' : blk_ok al b').
    { unfold blk_ok, blk_end, sizeof_header, sizeof_free, b', new, rem. simpl. lia. }
    assert (Hdb' : Forall (disjoint_blk b') (pre ++ post)).
    { eapply Forall_impl; [exact Hdb|]. intros x.
      unfold disjoint_blk, blk_end, b', new, rem. simpl. lia. }
    assert (Hperm : pre ++ b' :: post ≡ₚ b' :: (pre ++ post))
      by (symmetry; apply Permutation_middle).
    assert (Hnotin : b' ∉ pre ++ post).
    { intros Hin. rewrite Forall_forall in Hdb'. specialize (Hdb' b' Hin).
      unfold disjoint_blk, blk_end, b', new, rem in Hdb'. simpl in Hdb'. lia. }
    constructor.
    + congruence.
    + congruence.
    + exists h'. split.
      { rewrite (rd64_wr64_other _ _ _ _ _ Hd) by (unfold f_free_list_head; lia).
        exact Hh'. }
      apply chain_to_0, chain_to_app. exists new. split.
      { apply (chain_to_ext mfc mfd pre new); [congruence|exact Fdpre|exact Hc1']. }
      simpl. split; [reflexivity|]. split.
      { apply memfile_ptr_ok; [unfold new; lia|]. rewrite Hmd, Hmc, Hmb, Hma.
        unfold new. lia. }
      split.
      { rewrite (rd64_wr64_other _ _ _ _ _ Hd) by (unfold f_size, new; lia).
        rewrite Hfr; [|unfold f_free_list_head, sizeof_header, f_size, new; lia
                      |apply Hpre_b; unfold f_size, new; lia].
        rewrite (rd64_wr64_other _ _ _ _ _ Hb) by (unfold f_size; lia).
        unfold f_size. rewrite (rd64_wr64_same _ _ _ _ Ha). f_equal.
        apply wrap64_small. unfold rem. pose proof (rd64_range _ _ _ Hs). lia. }
      exists nx. split.
      { rewrite (rd64_wr64_other _ _ _ _ _ Hd) by (unfold f_next, new; lia).
        rewrite Hfr; [|unfold f_free_list_head, sizeof_header, f_next, new; lia
                      |apply Hpre_b; unfold f_next, new; lia].
        unfold f_next. rewrite (rd64_wr64_same _ _ _ _ Hb). f_equal.
        apply wrap64_small. exact Hnxr. }
      apply (chain_to_ext mf mfd post 0); [congruence| |exact Hc2].
      rewrite Forall_forall in Fdpost, Fabpost, Hokpost. apply Forall_forall.
      intros x Hx. destruct (Fdpost x Hx) as [D1 D2]. destruct (Fabpost x Hx) as [E1 E2].
      pose proof (Hokpost x Hx) as (Hx1 & Hx2 & Hx3).
      assert (Hxin : x ∈ pre ++ post) by (apply elem_of_app; auto).
      assert (Hxp : forall q, b_offset x <= q -> q + 8 <= b_offset x + 16 ->
                Forall (fun c => q + 8 <= b_offset c + 8 \/ b_offset c + 16 <= q) pre).
      { intros q Hq1 Hq2. apply Forall_forall. intros c Hc.
        assert (Hne : x <> c).
        { intros ->. apply NoDup_app in Hnd as (_ & Hnd' & _). exact (Hnd' c Hc Hx). }
        pose proof (Hap x c Hxin ltac:(apply elem_of_app; auto) Hne). lia. }
      unfold blk_end, sizeof_header, sizeof_free, f_size, f_next in *.
      rewrite D1, D2, <- E1, <- E2.
      split; apply Hfr; try (unfold f_free_list_head; lia); apply Hxp; lia.
    + exists al. split; [|split; [congruence|]].
      * rewrite (rd64_wr64_other _ _ _ _ _ Hd) by (unfold f_allocated; lia).
        rewrite Hfr; [|unfold f_allocated, f_free_list_head; lia
                      |apply Hhdr; unfold f_allocated; lia].
        rewrite (rd64_wr64_other _ _ _ _ _ Hb) by (unfold f_allocated, new; lia).
        rewrite (rd64_wr64_other _ _ _ _ _ Ha) by (unfold f_allocated, new; lia).
        exact Hal.
      * rewrite Hperm. constructor; assumption.
    + rewrite Hperm. apply NoDup_cons. auto.
    + rewrite Forall_forall in Hdb'.
      intros x y Hx Hy Hne. rewrite Hperm in Hx, Hy.
      apply elem_of_cons in Hx as [->|Hx]; apply elem_of_cons in Hy as [->|Hy].
      * congruence.
      * apply Hdb', Hy.
      * destruct (Hdb' x Hx); [right|left]; assumption.
      * apply Hdd; assumption.
  - rewrite (rd64_wr64_other _ _ _ _ _ Hd) by (unfold f_allocated; lia).
    rewrite Hfr; [|unfold f_allocated, f_free_list_head; lia
                  |apply Hhdr; unfold f_allocated; lia].
    rewrite (rd64_wr64_other _ _ _ _ _ Hb) by (unfold f_allocated, new; lia).
    rewrite (rd64_wr64_other _ _ _ _ _ Ha) by (unfold f_allocated, new; lia).
    exact Hal.
  - rewrite (rd64_wr64_other _ _ _ _ _ Hd) by (unfold f_file_size; lia).
    rewrite Hfr; [|unfold f_file_size, f_free_list_head; lia
                  |apply Hhdr; unfold f_file_size; lia].
    rewrite (rd64_wr64_other _ _ _ _ _ Hb) by (unfold f_file_size, new; lia).
    apply (rd64_wr64_other _ _ _ _ _ Ha). unfold f_file_size, new. lia.
  - congruence.
Qed.

(** X14.  First fit, split.  In a well-formed state, when the blocks
    before [b] in the free list are too small for a request of total
    size [total] of 16 bytes or more and [b] has [total + 24] bytes or
    more, [memfile_alloc] returns [b]'s offset plus 8 without any
    system call, stores [total] in the header and puts the remainder of
    [b], the block at [b_offset b + total] of [b_size b - total] bytes,
    in [b]'s place in the free list, which is well-formed again;
    [allocated], [file_size] and the size of the mapping are
    unchanged. *)
Theorem alloc_first_fit_split os mf (pre : list blk) b post size al :
  well_formed mf (pre ++ b :: post) ->
  rd64 mf f_allocated = Some al ->
  Forall (fun x => b_size x < alloc_total size) pre ->
  sizeof_free <= alloc_total size ->
  sizeof_free + 8 <= b_size b - alloc_total size ->
  exists mf',
    memfile_alloc os mf size = Some (b_offset b + sizeof_alloc, mf') /\
    rd64 mf' (b_offset b) = Some (alloc_total size) /\
    well_formed mf'
      (pre ++ Blk (b_offset b + alloc_total size) (b_size b - alloc_total size) :: post) /\
    rd64 mf' f_allocated = Some al /\
    rd64 mf' f_file_size = rd64 mf f_file_size /\
    mmap_size mf' = mmap_size mf.
Proof. apply first_fit_split_spec. Qed.

Lemma alloc_first_fit_split_witness :
  exists mf',
    memfile_alloc all_ok (run small_then_large) 16 = Some (48 + sizeof_alloc, mf') /\
    well_formed mf' ([Blk 32 16] ++ Blk (48 + alloc_total 16) (112 - alloc_total 16) :: []).
Proof.
  destruct (alloc_first_fit_split all_ok (run small_then_large) [Blk 32 16] (Blk 48 112) []
              16 176 small_then_large_wf) as (mf' & Ha & _ & Hwf & _).
  - vm_compute. reflexivity.
  - repeat constructor.
  - vm_compute. discriminate.
  - vm_compute. discriminate.
  - exists mf'. auto.
Defined.

(** ** Free and reuse *)

Lemma free_alloc_round_trip_spec os mf L p s al :
  well_formed mf L ->
  rd64 mf f_allocated = Some al ->
  rd64 mf (p - sizeof_alloc) = Some s ->
  blk_ok al (Blk (p - sizeof_alloc) s) ->
  Forall (disjoint_blk (Blk (p - sizeof_alloc) s)) L ->
  s mod 8 = 0 ->
  exists mf1 mf2,
    memfile_free mf p = Some mf1 /\
    memfile_alloc os mf1 (s - sizeof_alloc) = Some (p, mf2) /\
    rd64 mf2 (p - sizeof_alloc) = Some s /\
    well_formed mf2 L /\
    rd64 mf2 f_allocated = Some al.
Proof.
  intros Hwf Hal Hs Hok Hd Hs8.
  destruct (free_cons_wf mf L p s al Hwf Hal Hs Hok Hd) as (mf1 & Hfree & Hwf1 & Hal1 & _).
  pose proof (rd64_range _ _ _ Hs) as Hsr.
  pose proof Hok as (_ & Hs16 & _). simpl in Hs16. unfold sizeof_free in Hs16.
  assert (Htot : alloc_total (s - sizeof_alloc) = s).
  { rewrite <- (alloc_total_reuse s Hsr Hs8) at 2. f_equal. symmetry.
    apply wrap64_small. unfold sizeof_alloc. lia. }
  destruct (first_fit_whole_spec os mf1 [] (Blk (p - sizeof_alloc) s) L (s - sizeof_alloc) al)
    as (mf2 & Halloc & Hhdr & Hwf2 & Hal2 & _).
  - exact Hwf1.
  - exact Hal1.
  - constructor.
  - rewrite Htot. simpl. lia.
  - rewrite Htot. simpl. unfold sizeof_free. lia.
  - exists mf1, mf2. simpl in Halloc, Hhdr, Hwf2.
    replace (p - sizeof_alloc + sizeof_alloc) with p in Halloc by lia.
    auto.
Qed.

(** X15.  Free, then allocate the same size: a round trip.  In a state
    with the well-formed free list [L], for a live block at [p - 8]
    whose header holds its size [s], a multiple of 8, [memfile_free]
    followed by [memfile_alloc] of [s - 8] bytes returns [p] again
    without any system call, with [s] in the header, the free list [L]
    well-formed as before and [allocated] unchanged. *)
Theorem free_alloc_round_trip os mf L p s al :
  well_formed mf L ->
  rd64 mf f_allocated = Some al ->
  rd64 mf (p - sizeof_alloc) = Some s ->
  blk_ok al (Blk (p - sizeof_alloc) s) ->
  Forall (disjoint_blk (Blk (p - sizeof_alloc) s)) L ->
  s mod 8 = 0 ->
  exists mf1 mf2,
    memfile_free mf p = Some mf1 /\
    memfile_alloc os mf1 (s - sizeof_alloc) = Some (p, mf2) /\
    rd64 mf2 (p - sizeof_alloc) = Some s /\
    well_formed mf2 L /\
    rd64 mf2 f_allocated = Some al.
Proof. apply free_alloc_round_trip_spec. Qed.

Lemma free_alloc_round_trip_witness :
  exists mf1 mf2,
    memfile_free (run (snd <$> one_alloc)) 40 = Some mf1 /\
    memfile_alloc all_ok mf1 (112 - sizeof_alloc) = Some (40, mf2) /\
    well_formed mf2 [].
Proof.
  destruct (free_alloc_round_trip all_ok (run (snd <$> one_alloc)) [] 40 112 144 one_alloc_wf)
    as (mf1 & mf2 & Hf & Ha & _ & Hwf & _).
  - vm_compute. reflexivity.
  - vm_compute. reflexivity.
  - repeat split; vm_compute; discriminate.
  - constructor.
  - reflexivity.
  - exists mf1, mf2. auto.
Defined.

(** X16.  [memfile_free] does not check the pointer it gets from
    [memfile_ptr].  For an offset from 1 to 8, or one whose header
    would start at or after the end of the mapping, [memfile_ptr]
    returns [NULL] and [memfile_free] reads the block size through it:
    the call has no defined result. *)
Theorem free_unmapped_offset_undefined mf offset :
  0 <= mmap_size mf <= 2 ^ 64 - 8 ->
  0 < offset <= sizeof_alloc \/ mmap_size mf + sizeof_alloc <= offset < 2 ^ 64 ->
  memfile_free mf offset = None.
Proof.
  intros Hsz Hoff. unfold memfile_free, sizeof_alloc in *.
  destruct (Z.eqb_spec offset 0) as [->|_]; [lia|].
  assert (Hp : memfile_ptr mf (wrap64 (offset - 8)) = None).
  { apply memfile_ptr_None.
    destruct (Z.eq_dec offset 8) as [->|Hne]; [left; reflexivity|right].
    destruct Hoff as [Hlo|Hhi].
    - unfold wrap64.
      replace (offset - 8) with (offset - 8 + 2 ^ 64 + (-1) * 2 ^ 64) by lia.
      rewrite Z.mod_add by lia. rewrite Z.mod_small by lia. lia.
    - rewrite wrap64_small by lia. lia. }
  rewrite Hp. reflexivity.
Qed.

Lemma free_unmapped_offset_undefined_witness :
  memfile_free (run fresh_4096) 8 = None /\
  memfile_free (run fresh_4096) 5000 = None.
Proof.
  split; apply free_unmapped_offset_undefined;
    try (vm_compute; split; discriminate).
  - left. vm_compute. split; [reflexivity|discriminate].
  - right. vm_compute. split; [discriminate|reflexivity].
Defined.

(** ** The sort of [memfile_coalesce] *)

(** X17.  The insertion sort of [memfile_coalesce], run from index 1 on
    an array of at most 2^31 entries, returns a permutation of the
    array that is sorted by offset, and returns an array that is
    already sorted as it is. *)
Theorem insertion_sort_sorts (blocks : list blk) :
  Z.of_nat (length blocks) <= 2 ^ 31 ->
  exists sorted,
    sort_loop (length blocks - 1) 1 blocks = Some sorted /\
    blocks ≡ₚ sorted /\
    StronglySorted le_off sorted /\
    (StronglySorted le_off blocks -> sorted = blocks).
Proof.
  intros Hlen. destruct blocks as [|b0 rest].
  - exists []. simpl. repeat split; auto. constructor.
  - simpl length in *. replace (S (length rest) - 1)%nat with (length rest) by lia.
    destruct (sort_loop_spec rest [b0]) as (sorted & Hsort & Hperm & Hsorted & Hid).
    + repeat constructor.
    + simpl length. lia.
    + exists sorted. simpl in Hsort, Hperm, Hid. auto.
Qed.

Lemma insertion_sort_sorts_witness :
  exists sorted,
    sort_loop 2 1 three_freed_list = Some sorted /\
    StronglySorted le_off sorted.
Proof.
  destruct (insertion_sort_sorts three_freed_list) as (sorted & Hs & _ & Hsorted & _).
  - simpl. lia.
  - exists sorted. split; [exact Hs|exact Hsorted].
Defined.

(** ** Write, then read *)

(** X18.  What [memfile_write] has written, [memfile_read] returns: after
    a write of [len] bytes at [offset] that returned 0, a read of [len]
    bytes at [offset] returns 0 and the first [len] bytes of the buffer
    that was written. *)
Theorem write_read_round_trip mf offset buf len mf' :
  memfile_write mf offset buf len = Some (0, mf') ->
  memfile_read mf' offset len = Some (0, take (Z.to_nat len) buf).
Proof.
  unfold memfile_write, memfile_read. intros H.
  destruct (mmap_size mf <? wrap64 (offset + len)) eqn:Hb; [discriminate|].
  destruct (memfile_ptr mf offset) as [dst|] eqn:Hp; [|discriminate].
  destruct (Z.ltb_spec (Z.of_nat (length buf)) len) as [|Hlen]; [discriminate|].
  destruct (Mem.store_bytes (mmap_base mf) dst (take (Z.to_nat len) buf))
    as [m|] eqn:Hst; [|discriminate].
  injection H as <-. unfold memfile_ptr in *. simpl. rewrite Hb, Hp.
  pose proof (MemFacts.load_store_same _ _ _ _ Hst) as Hld.
  rewrite length_take_le in Hld by lia. rewrite Hld. reflexivity.
Qed.

Lemma write_read_round_trip_witness :
  exists mf',
    memfile_write (run fresh_4096) 100 [Byte.x01; Byte.x02; Byte.x03] 3 = Some (0, mf') /\
    memfile_read mf' 100 3 = Some (0, [Byte.x01; Byte.x02; Byte.x03]).
Proof.
  destruct (memfile_write (run fresh_4096) 100 [Byte.x01; Byte.x02; Byte.x03] 3)
    as [[rc mf']|] eqn:Hw; [|vm_compute in Hw; discriminate].
  assert (Hrc : rc = 0) by (vm_compute in Hw; congruence).
  subst rc. exists mf'. split; [reflexivity|].
  exact (write_read_round_trip _ _ _ _ _ Hw).
Defined.

(** ** Reuse of a freed block *)




(** ** Freeing a block of 8 bytes *)

(** C9.  [memfile_free] writes a node of 16 bytes whatever the size of
    the block, and the block of a zero-byte request has 8.  In every
    arena with an empty free list and room for two more blocks, after
    [memfile_alloc] of 0 bytes (offset [a]) and of [n] bytes (offset
    [b]) the size word of the second block is the word at [a], after
    the 8 bytes of the first block; [memfile_free] of [a] returns, and
    that word, which belongs to a live allocation and held its size,
    holds 0 afterwards, the [next] of the free node. *)
Theorem free_overwrites_live_header os mf al fsz n :
  well_formed mf [] ->
  rd64 mf f_allocated = Some al -> sizeof_header <= al ->
  rd64 mf f_file_size = Some fsz -> fsz <= mmap_size mf ->
  0 <= n -> n + sizeof_alloc + 7 < 2 ^ 64 ->
  al + 8 + alloc_total n <= fsz ->
  exists a b mf1 mf2 mf3,
    memfile_alloc os mf 0 = Some (a, mf1) /\
    memfile_alloc os mf1 n = Some (b, mf2) /\
    b - sizeof_alloc = a /\
    rd64 mf2 (b - sizeof_alloc) = Some (alloc_total n) /\
    0 < alloc_total n /\
    memfile_free mf2 a = Some mf3 /\
    rd64 mf3 (b - sizeof_alloc) = Some 0.
Proof.
  intros Hwf Hal Hal32 Hfs Hfsz Hn Hnw Hroom.
  assert (H0 : alloc_total 0 = 8) by reflexivity.
  pose proof (alloc_total_bounds n Hn Hnw) as Htot.
  unfold sizeof_header in Hal32. unfold sizeof_alloc in Htot.
  assert (Hx1 : exists mf1,
            memfile_alloc os mf 0 = Some (al + 8, mf1) /\
            rd64 mf1 f_allocated = Some (al + 8) /\
            rd64 mf1 f_file_size = Some fsz /\
            well_formed mf1 [] /\ mmap_size mf1 = mmap_size mf).
  { destruct (alloc_bump_spec os mf [] 0 al fsz Hwf) as
      (mf1 & Ha1 & _ & Hal1 & Hfs1 & Hwf1 & Hm1 & _).
    - constructor.
    - exact Hal.
    - exact Hal32.
    - exact Hfs.
    - exact Hfsz.
    - lia.
    - unfold sizeof_alloc. lia.
    - rewrite H0. lia.
    - rewrite H0 in Hal1. exists mf1. auto. }
  destruct Hx1 as (mf1 & Ha1 & Hal1 & Hfs1 & Hwf1 & Hm1).
  assert (Hx2 : exists mf2,
            memfile_alloc os mf1 n = Some (al + 8 + 8, mf2) /\
            rd64 mf2 (al + 8) = Some (alloc_total n) /\
            well_formed mf2 [] /\ mmap_size mf2 = mmap_size mf1).
  { destruct (alloc_bump_spec os mf1 [] n (al + 8) fsz Hwf1) as
      (mf2 & Ha2 & Hhdr2 & _ & _ & Hwf2 & Hm2 & _).
    - constructor.
    - exact Hal1.
    - unfold sizeof_header. lia.
    - exact Hfs1.
    - lia.
    - exact Hn.
    - exact Hnw.
    - lia.
    - exists mf2. auto. }
  destruct Hx2 as (mf2 & Ha2 & Hhdr2 & Hwf2 & Hm2).
  pose proof Hwf2 as [Hmap2 Hsz2 (h & Hh & Hc) _ _ _]. simpl in Hc. subst h.
  assert (Hv : valid_offset mf2 (al + 8)).
  { unfold valid_offset, sizeof_header, sizeof_alloc, sizeof_free. lia. }
  destruct (MemFacts.load64_defined (mmap_base mf2) (al + 8 - 8)) as [s Hs]; [lia..|].
  destruct (free_post mf2 (al + 8) s 0 Hmap2 Hv Hs Hh) as (mf3 & Hfree & _ & Hnx & _).
  unfold sizeof_alloc, f_next in *.
  exists (al + 8), (al + 8 + 8), mf1, mf2, mf3.
  split; [exact Ha1|]. split; [exact Ha2|]. split; [lia|].
  replace (al + 8 + 8 - 8) with (al + 8) by lia.
  split; [exact Hhdr2|]. split; [lia|]. split; [exact Hfree|].
  replace (al + 8 - 8 + 8) with (al + 8) in Hnx by lia. exact Hnx.
Qed.

Lemma free_overwrites_live_header_witness :
  exists a b mf1 mf2 mf3,
    memfile_alloc all_ok (run fresh_4096) 0 = Some (a, mf1) /\
    memfile_alloc all_ok mf1 8 = Some (b, mf2) /\
    rd64 mf2 (b - sizeof_alloc) = Some (alloc_total 8) /\
    memfile_free mf2 a = Some mf3 /\
    rd64 mf3 (b - sizeof_alloc) = Some 0.
Proof.
  destruct (free_overwrites_live_header all_ok (run fresh_4096) 32 4096 8 fresh_4096_wf)
    as (a & b & mf1 & mf2 & mf3 & H1 & H2 & _ & H3 & _ & H4 & H5).
  - vm_compute. reflexivity.
  - vm_compute. discriminate.
  - vm_compute. reflexivity.
  - vm_compute. discriminate.
  - lia.
  - vm_compute. reflexivity.
  - vm_compute. discriminate.
  - exists a, b, mf1, mf2, mf3. auto.
Defined.

(** ** What [memfile_alloc] returns *)

Lemma first_fit_decompose (L : list blk) total :
  Forall (fun x => b_size x < total) L \/
  exists pre b post,
    L = pre ++ b :: post /\
    Forall (fun x => b_size x < total) pre /\ total <= b_size b.
Proof.
  induction L as [|x L IH]; [left; constructor|].
  destruct (Z_lt_le_dec (b_size x) total) as [Hlt|Hge].
  - destruct IH as [IH|(pre & b & post & -> & Hpre & Hb)].
    + left. constructor; assumption.
    + right. exists (x :: pre), b, post.
      split; [reflexivity|]. split; [constructor; assumption|exact Hb].
  - right. exists [], x, L. split; [reflexivity|]. split; [constructor|exact Hge].
Qed.

Lemma aligned_sub a b : a mod 8 = 0 -> b mod 8 = 0 -> (a - b) mod 8 = 0.
Proof.
  intros Ha Hb. rewrite Zminus_mod, Ha, Hb. reflexivity.
Qed.

Lemma alloc_result_spec os mf L size al fsz p mf' :
  well_formed mf L ->
  Forall (fun b => b_size b mod 8 = 0) L ->
  rd64 mf f_allocated = Some al -> sizeof_header <= al ->
  rd64 mf f_file_size = Some fsz -> fsz <= mmap_size mf ->
  1 <= size -> size + sizeof_alloc + 7 < 2 ^ 64 ->
  mmap_size mf * 2 < 2 ^ 64 -> al + alloc_total size + 4096 < 2 ^ 64 ->
  memfile_alloc os mf size = Some (p, mf') -> p <> 0 ->
  exists s L' al' fsz',
    rd64 mf' (p - sizeof_alloc) = Some s /\
    s mod 8 = 0 /\ alloc_total size <= s /\
    blk_ok al' (Blk (p - sizeof_alloc) s) /\
    Forall (disjoint_blk (Blk (p - sizeof_alloc) s)) L' /\
    well_formed mf' L' /\
    Forall (fun b => b_size b mod 8 = 0) L' /\
    rd64 mf' f_allocated = Some al' /\ sizeof_header <= al' /\
    al' <= mmap_size mf' /\
    rd64 mf' f_file_size = Some fsz' /\ fsz' <= mmap_size mf'.
Proof.
  intros Hwf Hal8 Hal Hal32 Hfs Hfsz Hsize Hnw Hdbl Hslack Halloc Hp.
  pose proof (alloc_total_aligned size) as [Ht8 Htr].
  pose proof (alloc_total_min size Hsize Hnw) as Ht16.
  pose proof Hwf as [Hmap Hsz _ (al0 & Hal0 & Hle & Hok) _ _].
  assert (al0 = al) as -> by congruence.
  set (total := alloc_total size) in *.
  destruct (first_fit_decompose L total) as [Hsmall|(pre & b & post & -> & Hsmall & Hfit)].
  - (* no block fits: the end of the arena *)
    assert (Hdis : forall al1, al <= al1 ->
              Forall (disjoint_blk (Blk (al + sizeof_alloc - sizeof_alloc) total)) L).
    { intros al1 _. eapply Forall_impl; [exact Hok|]. intros x (_ & _ & Hx).
      right. unfold blk_end in *. simpl. unfold sizeof_alloc. lia. }
    destruct (Z_le_gt_dec (al + total) fsz) as [Hroom|Hgrow].
    + destruct (alloc_bump_spec os mf L size al fsz Hwf Hsmall Hal Hal32 Hfs Hfsz
                  ltac:(lia) Hnw Hroom)
        as (mf1 & Ha & Hhdr & Hal1 & Hfs1 & Hwf1 & Hm1 & _).
      fold total in Ha, Hhdr, Hal1. rewrite Ha in Halloc. injection Halloc as <- <-.
      exists total, L, (al + total), fsz.
      replace (al + sizeof_alloc - sizeof_alloc) with al by lia.
      split; [exact Hhdr|]. split; [exact Ht8|]. split; [lia|].
      split; [unfold blk_ok, blk_end, sizeof_header, sizeof_free in *; simpl; lia|].
      split.
      { specialize (Hdis al ltac:(lia)).
        replace (al + sizeof_alloc - sizeof_alloc) with al in Hdis by lia. exact Hdis. }
      split; [exact Hwf1|]. split; [exact Hal8|]. split; [exact Hal1|].
      split; [unfold sizeof_header in *; lia|]. split; [lia|].
      split; [exact Hfs1|lia].
    + set (new_size := if mmap_size mf * 2 <? al + total
                       then al + total + 4096 else mmap_size mf * 2).
      destruct (sys_ftruncate os new_size && mremap_ok os) eqn:Hos.
      * apply andb_true_iff in Hos as [Hft Hmr].
        destruct (alloc_grow_spec os mf L size al fsz new_size Hwf Hsmall Hal Hal32 Hfs
                    ltac:(lia) Hnw ltac:(fold total; lia) Hdbl Hslack eq_refl Hft Hmr)
          as (mf1 & Ha & Hm1 & _ & Hge & Hin & Hfs1 & Hhdr & Hal1 & Hwf1 & _).
        fold total in Ha, Hhdr, Hal1, Hin. rewrite Ha in Halloc. injection Halloc as <- <-.
        exists total, L, (al + total), new_size.
        replace (al + sizeof_alloc - sizeof_alloc) with al by lia.
        split; [exact Hhdr|]. split; [exact Ht8|]. split; [lia|].
        split; [unfold blk_ok, blk_end, sizeof_header, sizeof_free in *; simpl; lia|].
        split.
        { specialize (Hdis al ltac:(lia)).
          replace (al + sizeof_alloc - sizeof_alloc) with al in Hdis by lia. exact Hdis. }
        split; [exact Hwf1|]. split; [exact Hal8|]. split; [exact Hal1|].
        split; [unfold sizeof_header in *; lia|]. split; [lia|].
        split; [exact Hfs1|lia].
      * exfalso.
        assert (H0 : 0 <= mmap_size mf) by lia.
        unfold sizeof_header in Hal32.
        destruct (alloc_grow_fails_spec os mf L size al fsz Hwf Hsmall Hal Hfs)
          as (mf1 & Ha & _).
        { fold total. rewrite wrap64_small by lia. lia. }
        { fold total. rewrite (wrap64_small (mmap_size mf * 2)) by lia.
          rewrite (wrap64_small (al + total)) by lia.
          rewrite (wrap64_small (al + total + 4096)) by lia. exact Hos. }
        rewrite Ha in Halloc. injection Halloc as <- <-. contradiction.
  - (* the first block that fits *)
    destruct (wf_split_facts mf pre b post al Hwf Hal)
      as (_ & Hokb & Hok' & Hdb & _ & _).
    assert (Hb8 : b_size b mod 8 = 0).
    { rewrite Forall_forall in Hal8. apply Hal8. apply elem_of_app. right. left. }
    assert (Hal8' : Forall (fun x => b_size x mod 8 = 0) (pre ++ post)).
    { apply Forall_app in Hal8 as [H1 H2]. apply Forall_cons in H2 as [_ H2].
      apply Forall_app. auto. }
    pose proof Hokb as (Hb1 & Hb2 & Hb3).
    destruct (Z_lt_le_dec (b_size b - total) (sizeof_free + 8)) as [Hwhole|Hsplit].
    + destruct (first_fit_whole_spec os mf pre b post size al Hwf Hal Hsmall Hfit Hwhole)
        as (mf1 & Ha & Hhdr & Hwf1 & Hal1 & Hfs1 & Hm1).
      rewrite Ha in Halloc. injection Halloc as <- <-.
      exists (b_size b), (pre ++ post), al, fsz.
      replace (b_offset b + sizeof_alloc - sizeof_alloc) with (b_offset b) by lia.
      split; [exact Hhdr|]. split; [exact Hb8|]. split; [exact Hfit|].
      split; [exact Hokb|]. split; [destruct b; exact Hdb|].
      split; [exact Hwf1|]. split; [exact Hal8'|]. split; [exact Hal1|].
      split; [exact Hal32|]. split; [lia|]. split; [congruence|lia].
    + destruct (first_fit_split_spec os mf pre b post size al Hwf Hal Hsmall
                  ltac:(fold total; unfold sizeof_free; lia) Hsplit)
        as (mf1 & Ha & Hhdr & Hwf1 & Hal1 & Hfs1 & Hm1).
      fold total in Ha, Hhdr, Hwf1. rewrite Ha in Halloc. injection Halloc as <- <-.
      exists total, (pre ++ Blk (b_offset b + total) (b_size b - total) :: post), al, fsz.
      replace (b_offset b + sizeof_alloc - sizeof_alloc) with (b_offset b) by lia.
      split; [exact Hhdr|]. split; [exact Ht8|]. split; [lia|].
      split.
      { unfold blk_ok, blk_end, sizeof_header, sizeof_free in *. simpl. lia. }
      split.
      { apply Forall_app in Hdb as [Hd1 Hd2]. apply Forall_app. split; [|constructor].
        - eapply Forall_impl; [exact Hd1|]. intros x.
          unfold disjoint_blk, blk_end, sizeof_free in *. simpl. lia.
        - left. unfold blk_end. simpl. lia.
        - eapply Forall_impl; [exact Hd2|]. intros x.
          unfold disjoint_blk, blk_end, sizeof_free in *. simpl. lia. }
      split; [exact Hwf1|].
      split.
      { apply Forall_app in Hal8' as [H1 H2]. apply Forall_app. split; [exact H1|].
        constructor; [|exact H2]. simpl. apply aligned_sub; assumption. }
      split; [exact Hal1|]. split; [exact Hal32|]. split; [lia|].
      split; [congruence|lia].
Qed.

(** X20.  The block of an allocation.  In a well-formed state whose
    free blocks have sizes that are multiples of 8, with
    [32 <= allocated] and [file_size <= mmap_size], a [memfile_alloc]
    of 1 byte or more that does not wrap and returns an offset [p]
    other than 0 has stored at [p - 8] a size [s] that is a multiple of
    8 and holds the request and its header; the block lies past the
    file header and below [allocated], which is inside the mapping, and
    meets no free block; the state is well-formed again, with free
    blocks whose sizes are multiples of 8, [32 <= allocated] and
    [file_size <= mmap_size]. *)
Theorem alloc_returns_valid_block os mf L size al fsz p mf' :
  well_formed mf L ->
  Forall (fun b => b_size b mod 8 = 0) L ->
  rd64 mf f_allocated = Some al -> sizeof_header <= al ->
  rd64 mf f_file_size = Some fsz -> fsz <= mmap_size mf ->
  1 <= size -> size + sizeof_alloc + 7 < 2 ^ 64 ->
  mmap_size mf * 2 < 2 ^ 64 -> al + alloc_total size + 4096 < 2 ^ 64 ->
  memfile_alloc os mf size = Some (p, mf') -> p <> 0 ->
  exists s L' al' fsz',
    rd64 mf' (p - sizeof_alloc) = Some s /\
    s mod 8 = 0 /\ alloc_total size <= s /\
    blk_ok al' (Blk (p - sizeof_alloc) s) /\
    Forall (disjoint_blk (Blk (p - sizeof_alloc) s)) L' /\
    well_formed mf' L' /\
    Forall (fun b => b_size b mod 8 = 0) L' /\
    rd64 mf' f_allocated = Some al' /\ sizeof_header <= al' /\
    al' <= mmap_size mf' /\
    rd64 mf' f_file_size = Some fsz' /\ fsz' <= mmap_size mf'.
Proof. apply alloc_result_spec. Qed.


Lemma alloc_returns_valid_block_witness :
  exists s,
    memfile_alloc all_ok (run fresh_4096) 100 = Some (40, run (snd <$> one_alloc)) /\
    rd64 (run (snd <$> one_alloc)) (40 - sizeof_alloc) = Some s /\ s mod 8 = 0.
Proof.
  assert (Ha : memfile_alloc all_ok (run fresh_4096) 100
               = Some (40, run (snd <$> one_alloc))) by (vm_compute; reflexivity).
  destruct (alloc_returns_valid_block all_ok (run fresh_4096) [] 100 32 4096 40
              (run (snd <$> one_alloc)) fresh_4096_wf)
    as (s & L' & al' & fsz' & Hs & Hs8 & _).
  - constructor.
  - vm_compute. reflexivity.
  - vm_compute. discriminate.
  - vm_compute. reflexivity.
  - vm_compute. discriminate.
  - lia.
  - vm_compute. reflexivity.
  - vm_compute. reflexivity.
  - vm_compute. reflexivity.
  - exact Ha.
  - discriminate.
  - exists s. auto.
Defined.

(** X21.  Allocate, free, allocate again.  In a well-formed state
    whose free blocks have sizes that are multiples of 8, with
    [32 <= allocated] and [file_size <= mmap_size], for a request of 1
    byte or more that does not wrap, when [memfile_alloc] has returned an offset [p] other than 0 and stored
    the size [s] at [p - 8], [memfile_free] of [p] returns, and the
    [memfile_alloc] of [s - 8] bytes that follows returns [p] again,
    whatever the system calls would do, and leaves the free list as it
    was after the first allocation. *)
Theorem alloc_free_alloc_reuses os os' mf L size al fsz p mf' :
  well_formed mf L ->
  Forall (fun b => b_size b mod 8 = 0) L ->
  rd64 mf f_allocated = Some al -> sizeof_header <= al ->
  rd64 mf f_file_size = Some fsz -> fsz <= mmap_size mf ->
  1 <= size -> size + sizeof_alloc + 7 < 2 ^ 64 ->
  mmap_size mf * 2 < 2 ^ 64 -> al + alloc_total size + 4096 < 2 ^ 64 ->
  memfile_alloc os mf size = Some (p, mf') -> p <> 0 ->
  exists s L' mf1 mf2,
    rd64 mf' (p - sizeof_alloc) = Some s /\
    well_formed mf' L' /\
    memfile_free mf' p = Some mf1 /\
    memfile_alloc os' mf1 (s - sizeof_alloc) = Some (p, mf2) /\
    rd64 mf2 (p - sizeof_alloc) = Some s /\
    well_formed mf2 L'.
Proof.
  intros Hwf Hal8 Hal Hal32 Hfs Hfsz Hsize Hnw Hdbl Hslack Halloc Hp.
  destruct (alloc_result_spec os mf L size al fsz p mf' Hwf Hal8 Hal Hal32 Hfs Hfsz
              Hsize Hnw Hdbl Hslack Halloc Hp)
    as (s & L' & al' & fsz' & Hs & Hs8 & _ & Hok & Hdis & Hwf' & _ & Hal' & _).
  destruct (free_alloc_round_trip_spec os' mf' L' p s al' Hwf' Hal' Hs Hok Hdis Hs8)
    as (mf1 & mf2 & Hfree & Hre & Hhdr & Hwf2 & _).
  exists s, L', mf1, mf2. auto 10.
Qed.

Lemma alloc_free_alloc_reuses_witness :
  exists s mf1 mf2,
    memfile_alloc all_ok (run fresh_4096) 100 = Some (40, run (snd <$> one_alloc)) /\
    memfile_free (run (snd <$> one_alloc)) 40 = Some mf1 /\
    memfile_alloc all_ok mf1 (s - sizeof_alloc) = Some (40, mf2).
Proof.
  assert (Ha : memfile_alloc all_ok (run fresh_4096) 100
               = Some (40, run (snd <$> one_alloc))) by (vm_compute; reflexivity).
  destruct (alloc_free_alloc_reuses all_ok all_ok (run fresh_4096) [] 100 32 4096 40
              (run (snd <$> one_alloc)) fresh_4096_wf)
    as (s & L' & mf1 & mf2 & _ & _ & Hfree & Hre & _).
  - constructor.
  - vm_compute. reflexivity.
  - vm_compute. discriminate.
  - vm_compute. reflexivity.
  - vm_compute. discriminate.
  - lia.
  - vm_compute. reflexivity.
  - vm_compute. reflexivity.
  - vm_compute. reflexivity.
  - exact Ha.
  - discriminate.
  - exists s, mf1, mf2. auto.
Defined.
